(** * XGC loader: field-line-following grid interpolation

    A shallow embedding of [sdp/plasma/xgc/loader.py] (the [XGC_Loader]
    class and the module-level helpers it calls) together with the
    properties of the interpolation engine.

    Numbers.  NumPy's [float64] is modelled by the reals, with one extra
    value for what [np.isfinite] rejects (NaN and the infinities); rounding
    and overflow are abstracted away.  Arrays are lists; an array of shape
    [(NZ,NY,NX)] is the list of its elements in flattened order, as the
    source itself does with [flatten()] / [reshape].

    Masked arrays.  The interpolants of the mesh return [numpy.ma] arrays;
    an element is modelled with its data and its mask bit, and every
    operation the tracer applies to them is written out, because what
    stays in the data under the mask is what the tracer stores.

    Effects.  A call returns, raises, or runs out of the fuel given to its
    [while] loops; a method of the loader threads the object's state and
    leaves it as it was at the point where it raises.

    Outside the embedding.  [scipy.spatial.ConvexHull],
    [CloughTocher2DInterpolator], the Butcher tableau returned by
    [runge_kutta_explicit], the contents of the simulation files and the
    methods that only read files are parameters of the sections that use
    them; nothing is assumed about them beyond what a lemma states as a
    hypothesis.

    The definitions live in the module [loader], named after the source
    file; the properties follow it. *)

From Stdlib Require Import String Reals Lra Lia ZArith Bool List.
From Stdlib Require Import Sorted.
Import ListNotations.

Open Scope R_scope.

Module loader.

(** ** Python outcomes *)

Inductive pyexn : Type :=
| XGC_Loader_Error (value : string)
| AttributeError (attr : string)
| IndexError
| ZeroDivisionError
| ValueError.

(** A call either returns, raises, or is still looping when the fuel given
    to its [while] loops runs out. *)
Inductive res (A : Type) : Type :=
| Ret (x : A)
| Raise (e : pyexn)
| OutOfFuel.
Arguments Ret {A} x.
Arguments Raise {A} e.
Arguments OutOfFuel {A}.

Definition bind {A B : Type} (m : res A) (k : A -> res B) : res B :=
  match m with
  | Ret x => k x
  | Raise e => Raise e
  | OutOfFuel => OutOfFuel
  end.

Notation "x <- m ;; k" := (bind m (fun x => k))
  (at level 61, m at next level, right associativity).

Fixpoint mapM {A B : Type} (f : A -> res B) (l : list A) : res (list B) :=
  match l with
  | [] => Ret []
  | x :: l' => y <- f x ;; ys <- mapM f l' ;; Ret (y :: ys)
  end.

(** ** float64 values *)

Inductive fval : Type :=
| Fin (r : R)
| NonFin.

Definition isfinite (x : fval) : bool :=
  match x with Fin _ => true | NonFin => false end.

Definition lift2 (f : R -> R -> R) (x y : fval) : fval :=
  match x, y with
  | Fin u, Fin v => Fin (f u v)
  | _, _ => NonFin
  end.

Definition fadd : fval -> fval -> fval := lift2 Rplus.
Definition fsub : fval -> fval -> fval := lift2 Rminus.
Definition fmul : fval -> fval -> fval := lift2 Rmult.

Definition Reqb (x y : R) : bool := if Req_dec_T x y then true else false.
Definition Rltb (x y : R) : bool := if Rlt_dec x y then true else false.
Definition Rleb (x y : R) : bool := if Rle_dec x y then true else false.

(** Division of plain arrays: a zero divisor gives NaN or an infinity. *)
Definition fdiv (x y : fval) : fval :=
  match x, y with
  | Fin u, Fin v => if Reqb v 0 then NonFin else Fin (u / v)
  | _, _ => NonFin
  end.

Definition fsqrt (x : fval) : fval :=
  match x with
  | Fin u => if Rltb u 0 then NonFin else Fin (sqrt u)
  | NonFin => NonFin
  end.

Definition fabs (x : fval) : fval :=
  match x with Fin u => Fin (Rabs u) | NonFin => NonFin end.

(** [np.sum] over one axis: the empty sum is [0.0]. *)
Definition fsum (l : list fval) : fval := fold_left fadd l (Fin 0).

(** ** Plane bracketing *)

(** [np.arange(n_plane) * dPHI] with [dPHI = 2*np.pi/n_plane]. *)
Definition phi_planes (n_plane : nat) : list R :=
  map (fun k => INR k * (2 * PI / INR n_plane)) (seq 0 n_plane).

(** [np.searchsorted(a, v, side='right')] on a sorted array: the index [i]
    with [a[i-1] <= v < a[i]], found here by scanning from the left. *)
Fixpoint searchsorted_right (a : list R) (v : R) : nat :=
  match a with
  | [] => O
  | x :: a' => if Rle_dec x v then S (searchsorted_right a' v) else O
  end.

(** [arr[np.nonzero(arr == n)] = 0] *)
Definition wrap_to_zero (n : Z) (arr : list Z) : list Z :=
  map (fun p => if Z.eqb p n then 0%Z else p) arr.

Definition get_interp_planes (n_plane : nat) (CO_DIR : bool)
    (phi3D : list R) : list Z * list Z :=
  let planes := phi_planes n_plane in
  if CO_DIR then
    let nextplane := map (fun p => Z.of_nat (searchsorted_right planes p)) phi3D in
    let prevplane := map (fun p => (p - 1)%Z) nextplane in
    let nextplane := wrap_to_zero (Z.of_nat n_plane) nextplane in
    (prevplane, nextplane)
  else
    let prevplane := map (fun p => Z.of_nat (searchsorted_right planes p)) phi3D in
    let nextplane := map (fun p => (p - 1)%Z) prevplane in
    let prevplane := wrap_to_zero (Z.of_nat n_plane) prevplane in
    (prevplane, nextplane).

(** The plane pair of a point whose angle lies between planes [k] and
    [k+1], plane [P] being plane 0 again. *)
Definition bracket_prev (P : nat) (co : bool) (k : nat) : Z :=
  if co then Z.of_nat k
  else if Nat.eqb (S k) P then 0%Z else Z.of_nat (S k).

Definition bracket_next (P : nat) (co : bool) (k : nat) : Z :=
  if co then (if Nat.eqb (S k) P then 0%Z else Z.of_nat (S k))
  else Z.of_nat k.

(** ** Masked arrays

    [matplotlib.tri.CubicTriInterpolator.__call__] returns
    [np.ma.masked_invalid(...)]: at a point outside the triangulation the
    data is NaN and the entry is masked.  An element of a masked array is
    its data together with its mask bit; the operations below follow
    [numpy.ma.core], including what they leave in the data under the mask. *)

Record melt : Type := mk_melt { data : fval; mask : bool }.

Definition ma_of_nd (x : fval) : melt := mk_melt x false.

(** The masked value of an interpolant at one point; [None] stands for a
    point that the triangle finder places outside the mesh. *)
Definition masked_invalid (o : option R) : melt :=
  match o with
  | Some v => mk_melt (Fin v) false
  | None => mk_melt NonFin true
  end.

Definition tri_interp : Type := R -> R -> option R.

Definition interp_call (f : tri_interp) (z r : fval) : melt :=
  match z, r with
  | Fin z', Fin r' => masked_invalid (f z' r')
  | _, _ => mk_melt NonFin true
  end.

(** [arr[~np.isfinite(arr)] = 0]: the test reads the data, the assignment
    writes the data and clears the mask. *)
Definition clean_nonfinite (x : melt) : melt :=
  if isfinite (data x) then x else mk_melt (Fin 0) false.

(** [_MaskedBinaryOperation]: where the result is masked the data of the
    first operand is put back. *)
Definition ma_binop (f : fval -> fval -> fval) (x y : melt) : melt :=
  let m := mask x || mask y in
  mk_melt (if m then data x else f (data x) (data y)) m.

Definition ma_add : melt -> melt -> melt := ma_binop fadd.
Definition ma_multiply : melt -> melt -> melt := ma_binop fmul.

(** [_DomainedBinaryOperation] for [true_divide]: a non-finite quotient is
    masked as well, and the numerator's data is put back under the mask. *)
Definition ma_true_divide (x y : melt) : melt :=
  let q := fdiv (data x) (data y) in
  let m := negb (isfinite q) || mask x || mask y in
  mk_melt (if m then data x else q) m.

(** Default [fill_value] of a float masked array. *)
Definition default_fill_value : R := 10 ^ 20.

(** [numpy.ma.power(x, 2)], reached through [x**2]. *)
Definition ma_power2 (x : melt) : melt :=
  let r := if mask x then data x else fmul (data x) (data x) in
  let invalid := negb (isfinite r) in
  mk_melt (if invalid then Fin default_fill_value else r) (mask x || invalid).

(** [np.sqrt] on a masked array ([MaskedArray.__array_wrap__]): entries
    that are masked or outside the domain of [sqrt] are masked and their
    data is set to the fill of [sqrt], [0.0]. *)
Definition np_sqrt (x : melt) : melt :=
  let d := mask x || match data x with Fin u => Rltb u 0 | NonFin => false end in
  mk_melt (if d then Fin 0 else fsqrt (data x)) d.

(** ** Field-line tracer *)

(** [phi_planes[plane]] for an integer index; negative indices count from
    the end, anything else out of range raises. *)
Definition np_take (l : list R) (i : Z) : res R :=
  let n := Z.of_nat (length l) in
  if ((0 <=? i) && (i <? n))%Z then Ret (nth (Z.to_nat i) l 0)
  else if ((- n <=? i) && (i <? 0))%Z then Ret (nth (Z.to_nat (i + n)) l 0)
  else Raise IndexError.

(** One query point as the tracer reads it: [Rwant], [Zwant], [Phiwant],
    [prevplane] and [nextplane] at the same flattened index. *)
Record qpoint : Type := mk_qpoint {
  qR : R; qZ : R; qPhi : R; qprev : Z; qnext : Z
}.

Fixpoint zip_qpoints (rs zs phis : list R) (prevs nexts : list Z)
    : list qpoint :=
  match rs, zs, phis, prevs, nexts with
  | r :: rs', z :: zs', p :: phis', pp :: prevs', np :: nexts' =>
      mk_qpoint r z p pp np :: zip_qpoints rs' zs' phis' prevs' nexts'
  | _, _, _, _, _ => []
  end.

(** The toroidal angle still to cover towards the next and the previous
    plane; plane 0 counts as [2*pi] for the direction that wraps. *)
Definition phiFWD_init (n_plane : nat) (CO_DIR : bool) (q : qpoint) : res R :=
  x <- np_take (phi_planes n_plane) (qnext q) ;;
  Ret (if CO_DIR
       then (if Z.eqb (qnext q) 0 then PI * 2 - qPhi q else x - qPhi q)
       else x - qPhi q).

Definition phiBWD_init (n_plane : nat) (CO_DIR : bool) (q : qpoint) : res R :=
  x <- np_take (phi_planes n_plane) (qprev q) ;;
  Ret (if CO_DIR
       then x - qPhi q
       else (if Z.eqb (qprev q) 0 then PI * 2 - qPhi q else x - qPhi q)).

Definition FWD_sign (CO_DIR : bool) : R := if CO_DIR then 1 else -1.
Definition BWD_sign (CO_DIR : bool) : R := if CO_DIR then -1 else 1.

(** The running state of one trace at one index: the remaining angle
    ([phiFWD] or [phiBWD]), the position and the arc length. *)
Record tpoint : Type := mk_tpoint {
  rem : R; Rp : fval; Zp : fval; sp : fval
}.

Definition K0 (k : fval * fval * fval) : fval := fst (fst k).
Definition K1 (k : fval * fval * fval) : fval := snd (fst k).
Definition K2 (k : fval * fval * fval) : fval := snd k.

(** The midpoint rule, a two-stage explicit scheme. *)
Definition midpoint_a (i j : nat) : R :=
  if Nat.eqb i 1 && Nat.eqb j 0 then 1 / 2 else 0.

Definition midpoint_b (j : nat) : R := if Nat.eqb j 1 then 1 else 0.

(** A field component that vanishes everywhere, and one of unit strength. *)
Definition zero_field : tri_interp := fun _ _ => Some 0.
Definition unit_field : tri_interp := fun _ _ => Some 1.

(** Finite position and arc length, finite triple of derivatives or of
    increments. *)
Definition tfinite (p : tpoint) : Prop :=
  isfinite (Rp p) = true /\ isfinite (Zp p) = true /\ isfinite (sp p) = true.

Definition kfinite (k : fval * fval * fval) : Prop :=
  isfinite (K0 k) = true /\ isfinite (K1 k) = true /\ isfinite (K2 k) = true.

(** Derivatives of a field line that does not move in (R, Z). *)
Definition flat (k : fval * fval * fval) : Prop := K0 k = Fin 0 /\ K1 k = Fin 0.

(** What the two traces of one query point start from and end in. *)
Record trace_pair : Type := mk_trace_pair {
  phif0 : R; phib0 : R; fwd_end : tpoint; bwd_end : tpoint
}.

Section Tracer.

(** [a, b, c, Nstage = runge_kutta_explicit(2)]: the Butcher tableau of
    the explicit scheme ([c] is not used by the tracer). *)
Variable Nstage : nat.
Variable a : nat -> nat -> R.
Variable b : nat -> R.

Variables BR BZ BPhi : tri_interp.

(** [np.sum(a[i,:i]*K[:,c,:i],axis=1)] at one point, [K] holding the
    stages already computed. *)
Definition stage_sum (i : nat) (K : list fval) : fval :=
  fsum (map (fun j => fmul (Fin (a i j)) (nth j K (Fin 0))) (seq 0 i)).

(** [np.sum(b[np.newaxis,:]*K[:,c,:],axis=1)] *)
Definition final_sum (K : list fval) : fval :=
  fsum (map (fun j => fmul (Fin (b j)) (nth j K (Fin 0))) (seq 0 Nstage)).

(** [Rtemp] and [Ztemp] of stage [i]. *)
Definition stage_pos (X0 : fval) (step : R) (i : nat) (K : list fval) : fval :=
  fadd X0 (fmul (Fin step) (stage_sum i K)).

(** The three derivatives evaluated at a stage position: [K[:,0,i]],
    [K[:,1,i]] and [K[:,2,i]].  Storing a masked array into the plain
    array [K] keeps its data. *)
Definition stage_K (Rtemp Ztemp : fval) : fval * fval * fval :=
  let BPhitemp := interp_call BPhi Ztemp Rtemp in
  let BRtemp := clean_nonfinite (interp_call BR Ztemp Rtemp) in
  let BZtemp := clean_nonfinite (interp_call BZ Ztemp Rtemp) in
  ( data (ma_true_divide (ma_multiply (ma_of_nd Rtemp) BRtemp) BPhitemp),
    data (ma_true_divide (ma_multiply (ma_of_nd Rtemp) BZtemp) BPhitemp),
    data (ma_multiply
            (np_sqrt (ma_add (ma_add (ma_of_nd (Fin 1))
                                (ma_power2 (ma_true_divide BRtemp BPhitemp)))
                             (ma_power2 (ma_true_divide BZtemp BPhitemp))))
            (ma_of_nd Rtemp)) ).

(** Body of [for i in range(Nstage)]: stage [i] at one point. *)
Definition rk_stage (R0 Z0 : fval) (step : R)
    (K : list (fval * fval * fval)) (i : nat) : list (fval * fval * fval) :=
  let Rtemp := stage_pos R0 step i (map K0 K) in
  let Ztemp := stage_pos Z0 step i (map K1 K) in
  K ++ [stage_K Rtemp Ztemp].

Definition rk_stages (R0 Z0 : fval) (step : R) : list (fval * fval * fval) :=
  fold_left (rk_stage R0 Z0 step) (seq 0 Nstage) [].

(** The size of the next step: [step[np.abs(step) > dphi] = sign * dphi]. *)
Definition next_step (sign dphi phi : R) : R :=
  if Rltb dphi (Rabs phi) then sign * dphi else phi.

(** [dR], [dZ] and [ds] of one pass at one index. *)
Definition increments (sign dphi : R) (p : tpoint) : fval * fval * fval :=
  let step := next_step sign dphi (rem p) in
  let K := rk_stages (Rp p) (Zp p) step in
  ( fmul (Fin step) (final_sum (map K0 K)),
    fmul (Fin step) (final_sum (map K1 K)),
    fmul (fabs (Fin step)) (final_sum (map K2 K)) ).

(** One pass of the [while] body at an index where [ind] holds. *)
Definition trace_step (sign dphi : R) (p : tpoint) : tpoint :=
  let step := next_step sign dphi (rem p) in
  let d := increments sign dphi p in
  mk_tpoint (rem p - step)
            (fadd (Rp p) (K0 d)) (fadd (Zp p) (K1 d)) (fadd (sp p) (K2 d)).

(** The [while] body on the whole batch: only the indices selected by
    [ind] are advanced. *)
Fixpoint trace_iter (sign dphi : R) (ind : list bool) (pts : list tpoint)
    : list tpoint :=
  match ind, pts with
  | i :: ind', p :: pts' =>
      (if i then trace_step sign dphi p else p) :: trace_iter sign dphi ind' pts'
  | _, _ => pts
  end.

(** [ind = (phiFWD != 0)] *)
Definition still_tracing (p : tpoint) : bool := negb (Reqb (rem p) 0).

(** [while ind.any(): ...] *)
Fixpoint trace_loop (fuel : nat) (sign dphi : R) (ind : list bool)
    (pts : list tpoint) : res (list tpoint) :=
  if existsb (fun i => i) ind then
    match fuel with
    | O => OutOfFuel
    | S fuel' =>
        let pts' := trace_iter sign dphi ind pts in
        trace_loop fuel' sign dphi (map still_tracing pts') pts'
    end
  else Ret pts.

(** [ind = np.ones(Rwant.shape,dtype=bool)] followed by the loop. *)
Definition trace_all (fuel : nat) (sign dphi : R) (pts : list tpoint)
    : res (list tpoint) :=
  trace_loop fuel sign dphi (map (fun _ => true) pts) pts.

(** The loop as one index lives it: advanced while its own [ind] entry
    holds, left alone afterwards. *)
Fixpoint pt_loop (fuel : nat) (sign dphi : R) (i : bool) (p : tpoint)
    : res tpoint :=
  if i then
    match fuel with
    | O => OutOfFuel
    | S fuel' =>
        let p' := trace_step sign dphi p in
        pt_loop fuel' sign dphi (still_tracing p') p'
    end
  else Ret p.

(** One pass at one index, together with the index's next [ind] entry. *)
Definition advance (sign dphi : R) (bp : bool * tpoint) : bool * tpoint :=
  let p' := if fst bp then trace_step sign dphi (snd bp) else snd bp in
  (still_tracing p', p').

(** An index leaves [ind] only when its remaining angle is zero. *)
Definition settled (bp : bool * tpoint) : Prop :=
  fst bp = false -> rem (snd bp) = 0.

Definition start_tpoint (q : qpoint) (phi0 : R) : tpoint :=
  mk_tpoint phi0 (Fin (qR q)) (Fin (qZ q)) (Fin 0).

(** The forward and the backward trace (lines 37-171): the final
    [(phiBWD, R_BWD, Z_BWD, s_BWD)] and [(phiFWD, R_FWD, Z_FWD, s_FWD)]. *)
Definition field_line_traces (fuel : nat) (n_plane : nat)
    (CO_DIR : bool) (r3D z3D phi3D : list R) (prevplane nextplane : list Z)
    (Nstep : nat) : res (list tpoint * list tpoint) :=
  let qs := zip_qpoints r3D z3D phi3D prevplane nextplane in
  let dPhi := 2 * PI / INR n_plane in
  let dphi := dPhi / INR Nstep in
  phiFWD <- mapM (phiFWD_init n_plane CO_DIR) qs ;;
  phiBWD <- mapM (phiBWD_init n_plane CO_DIR) qs ;;
  fwd <- trace_all fuel (FWD_sign CO_DIR) dphi
           (map (fun qp => start_tpoint (fst qp) (snd qp)) (combine qs phiFWD)) ;;
  bwd <- trace_all fuel (BWD_sign CO_DIR) dphi
           (map (fun qp => start_tpoint (fst qp) (snd qp)) (combine qs phiBWD)) ;;
  Ret (bwd, fwd).

(** How one query point fares: its two starting angles, the ends of its
    two traces, and the planes its angle lies between. *)
Definition traced_as (fuel P : nat) (co : bool) (Nstep : nat) (q : qpoint)
    (y : trace_pair) : Prop :=
  phiFWD_init P co q = Ret (phif0 y) /\
  phiBWD_init P co q = Ret (phib0 y) /\
  pt_loop fuel (FWD_sign co) (2 * PI / INR P / INR Nstep) true
          (start_tpoint q (phif0 y)) = Ret (fwd_end y) /\
  pt_loop fuel (BWD_sign co) (2 * PI / INR P / INR Nstep) true
          (start_tpoint q (phib0 y)) = Ret (bwd_end y) /\
  exists k : nat,
    (k < P)%nat /\
    INR k * (2 * PI / INR P) <= qPhi q < INR (S k) * (2 * PI / INR P) /\
    qprev q = bracket_prev P co k /\ qnext q = bracket_next P co k /\
    (if co then phif0 y <> 0 else phib0 y <> 0) /\
    (qPhi q = INR k * (2 * PI / INR P) ->
     if co then phib0 y = 0 else phif0 y = 0).

(** [sum_j b[j] * r]: what the stages add up to when each of them
    evaluates to [r]. *)
Definition weighted (r : R) : R :=
  fold_left Rplus (map (fun j => b j * r) (seq 0 Nstage)) 0.

(** The two triples of [interp_positions] at one index, each in the
    order [(Z, R, portion)]: [[0,:]] for the previous plane, [[1,:]] for
    the next plane. *)
Record ipos : Type := mk_ipos {
  prevZ : fval; prevR : fval; prev_frac : fval;
  nextZ : fval; nextR : fval; next_frac : fval
}.

Definition ipos_of (bwd fwd : tpoint) : ipos :=
  let f := fdiv (sp bwd) (fadd (sp bwd) (sp fwd)) in
  mk_ipos (Zp bwd) (Rp bwd) f (Zp fwd) (Rp fwd) (fsub (Fin 1) f).

Definition find_interp_positions_v2_upgrade (fuel : nat) (n_plane : nat)
    (CO_DIR : bool) (r3D z3D phi3D : list R) (prevplane nextplane : list Z)
    (Nstep : nat) : res (list ipos) :=
  t <- field_line_traces fuel n_plane CO_DIR r3D z3D phi3D
         prevplane nextplane Nstep ;;
  Ret (map (fun bf => ipos_of (fst bf) (snd bf)) (combine (fst t) (snd t))).

End Tracer.

(** ** Arrays with a shape

    An array attribute of the loader: its shape and its elements in
    row-major order.  A plain [ndarray] has no masked element. *)

Record ndarr : Type := mk_ndarr { shape : list nat; cells : list melt }.

Definition size_of (sh : list nat) : nat := fold_right Nat.mul 1%nat sh.

Definition nd_plain (sh : list nat) (l : list fval) : ndarr :=
  mk_ndarr sh (map ma_of_nd l).

Definition np_zeros (sh : list nat) : ndarr :=
  nd_plain sh (repeat (Fin 0) (size_of sh)).

(** Offset and shape of the block [arr[i0,i1,...]] selected by leading
    indices. *)
Fixpoint block_at (sh idx : list nat) : res (nat * list nat) :=
  match idx with
  | [] => Ret (O, sh)
  | i :: idx' =>
      match sh with
      | [] => Raise IndexError
      | d :: sh' =>
          if Nat.ltb i d
          then r <- block_at sh' idx' ;; Ret ((i * size_of sh' + fst r)%nat, snd r)
          else Raise IndexError
      end
  end.

(** [arr[i0,i1,...]] *)
Definition nd_block (arr : ndarr) (idx : list nat) : res ndarr :=
  r <- block_at (shape arr) idx ;;
  Ret (mk_ndarr (snd r) (firstn (size_of (snd r)) (skipn (fst r) (cells arr)))).

(** [arr[i0,i1,...] = v] for a value of the block's own shape; any other
    shape is refused. *)
Definition nd_set_block (arr : ndarr) (idx : list nat) (v : ndarr) : res ndarr :=
  r <- block_at (shape arr) idx ;;
  if list_eq_dec Nat.eq_dec (snd r) (shape v)
  then Ret (mk_ndarr (shape arr)
              (firstn (fst r) (cells arr) ++ cells v
               ++ skipn (fst r + size_of (snd r)) (cells arr)))
  else Raise ValueError.

(** [l[m]] for a boolean array [m]. *)
Fixpoint mask_select {A : Type} (m : list bool) (l : list A) : list A :=
  match m, l with
  | i :: m', x :: l' => if i then x :: mask_select m' l' else mask_select m' l'
  | _, _ => []
  end.

(** [l[m] = v] for a boolean array [m] and as many values as [m] selects. *)
Fixpoint mask_assign {A : Type} (m : list bool) (l v : list A) : list A :=
  match m, l with
  | i :: m', x :: l' =>
      if i then
        match v with
        | y :: v' => y :: mask_assign m' l' v'
        | [] => x :: mask_assign m' l' []
        end
      else x :: mask_assign m' l' v
  | _, _ => l
  end.

(** [np.argmin]: the first index of the least element. *)
Fixpoint argmin_from (l : list R) (i best : nat) (least : R) : nat :=
  match l with
  | [] => best
  | x :: l' =>
      if Rltb x least then argmin_from l' (S i) i x
      else argmin_from l' (S i) best least
  end.

Definition np_argmin (l : list R) : res nat :=
  match l with
  | [] => Raise ValueError
  | x :: l' => Ret (argmin_from l' 1 0 x)
  end.

(** ** Interpolants over the mesh *)

(** A [CubicTriInterpolator]: its value and its gradient
    [(d/dZ, d/dR)], both masked outside the triangulation. *)
Record cubic_interp : Type := mk_cubic_interp {
  ci_call : tri_interp;
  ci_gradient : R -> R -> option (R * R)
}.

(** A 1-D [interp1d] profile applied to one value; NaN in, NaN out. *)
Definition apply_1d (sp : R -> R) (x : fval) : fval :=
  match x with Fin u => Fin (sp u) | NonFin => NonFin end.

(** [(Z-Z_boundary)**2 + (R-R_boundary)**2] *)
Definition dist2 (z r : R) (boundary : list (R * R)) : list R :=
  map (fun v => (z - fst v) ^ 2 + (r - snd v) ^ 2) boundary.

(** The boundary vertex nearest to one outside point. *)
Definition nearest_vertex (boundary : list (R * R)) (zr : R * R) : res (R * R) :=
  n <- np_argmin (dist2 (fst zr) (snd zr) boundary) ;;
  Ret (nth n boundary (0, 0)).

(** [a_n + (Zout-Zn)*grad_Z + (Rout-Rn)*grad_R] at one outside point. *)
Definition taylor_out (f : cubic_interp) (on : (R * R) * (R * R)) : melt :=
  let '((zo, ro), (zn, rn)) := on in
  let a_n := masked_invalid (ci_call f zn rn) in
  let g := ci_gradient f zn rn in
  let grad_Z := masked_invalid (option_map fst g) in
  let grad_R := masked_invalid (option_map snd g) in
  ma_add (ma_add a_n (ma_multiply (ma_of_nd (Fin (zo - zn))) grad_Z))
         (ma_multiply (ma_of_nd (Fin (ro - rn))) grad_R).

(** [f(Z2D,R2D)] *)
Definition interp_array (f : cubic_interp) (zr : list (R * R)) : list melt :=
  map (fun p => masked_invalid (ci_call f (fst p) (snd p))) zr.

(** [arr = f(Z2D,R2D)] followed by [arr[out_mask] = f_out]. *)
Definition extrapolated (f : cubic_interp) (zr : list (R * R))
    (out_mask : list bool) (near : list (R * R)) : list melt :=
  mask_assign out_mask (interp_array f zr)
    (map (taylor_out f) (combine (mask_select out_mask zr) near)).

(** The squared distance of a point to a vertex, and a vertex of the
    boundary that no other vertex beats. *)
Definition sqdist (zr v : R * R) : R :=
  (fst zr - fst v) ^ 2 + (snd zr - snd v) ^ 2.

Definition nearest_in (boundary : list (R * R)) (zr v : R * R) : Prop :=
  In v boundary /\ forall w, In w boundary -> sqdist zr v <= sqdist zr w.

(** ** Grids *)

Record grid2D : Type := mk_grid2D { g2_R1D : list R; g2_Z1D : list R }.

(** [Z2D = zeros((NZ,NR)) + Z1D[:,newaxis]], [R2D = zeros + R1D[newaxis,:]],
    as the list of the [(Z, R)] pairs of the grid. *)
Definition mesh2D (Z1D R1D : list R) : list (R * R) :=
  flat_map (fun z => map (fun r => (z, r)) R1D) Z1D.

Record cylindrical : Type := mk_cylindrical {
  r3D : list R; z3D : list R; phi3D : list R
}.

(** A 3-D grid: its three axes ([NX], [NY], [NZ] are their lengths) and,
    once [ToCylindrical] has run, its cylindrical coordinates. *)
Record grid3D : Type := mk_grid3D {
  g3_X1D : list R; g3_Y1D : list R; g3_Z1D : list R;
  g3_cyl : option cylindrical
}.

(** [(NZ, NY, NX)] *)
Definition g3_shape (g : grid3D) : list nat :=
  [length (g3_Z1D g); length (g3_Y1D g); length (g3_X1D g)].

(** [(X3D, Y3D, Z3D)] at every grid point, X fastest. *)
Definition mesh3D (g : grid3D) : list (R * R * R) :=
  flat_map (fun z => flat_map (fun y => map (fun x => (x, y, z)) (g3_X1D g))
                              (g3_Y1D g)) (g3_Z1D g).

Definition np_sign (x : R) : R :=
  if Rltb x 0 then -1 else if Rltb 0 x then 1 else 0.

(** The toroidal angle of [ToCylindrical] at one point. *)
Definition cyl_phi (x z : R) : R
  := let p := if Reqb x 0 then - PI / 2 * np_sign z else atan (- z / x) in
     let p := if Rltb x 0 then p + PI else p in
     if Rltb p 0 then p + 2 * PI else p.

Definition ToCylindrical (g : grid3D) : grid3D :=
  match g3_cyl g with
  | Some _ => g
  | None =>
      let pts := mesh3D g in
      mk_grid3D (g3_X1D g) (g3_Y1D g) (g3_Z1D g)
        (Some (mk_cylindrical
                 (map (fun p => sqrt (fst (fst p) ^ 2 + snd p ^ 2)) pts)
                 (map (fun p => snd (fst p)) pts)
                 (map (fun p => cyl_phi (fst (fst p)) (snd p)) pts)))
  end.

Inductive grid_obj : Type :=
| Cartesian2D (g : grid2D)
| Cartesian3D (g : grid3D)
| OtherGrid (class_name : string).

(** ** The loader object *)

Record XGC_Loader : Type := mk_loader {
  dimension : Z;
  grid : grid_obj;
  equilibrium_mesh : string;
  Equilibrium_Only : bool;
  Fluc_Only : bool;
  load_ions : bool;
  n_cross_section : nat;
  time_steps : list Z;
  (* attributes that the loading methods create *)
  points : option (list (R * R));
  psi_interp : option cubic_interp;
  B_interp : option cubic_interp;
  BR_interp : option cubic_interp;
  BZ_interp : option cubic_interp;
  BPhi_interp : option cubic_interp;
  te0_sp : option (R -> R);
  ti0_sp : option (R -> R);
  ne0_sp : option (R -> R);
  ni0_sp : option (R -> R);
  HaveElectron : option bool;
  n_plane : option nat;
  CO_DIR : option bool;
  prevplane : option (list Z);
  nextplane : option (list Z);
  planes : option (list Z);
  center_planes : option (list Z);
  (* every array attribute, by name *)
  arrays : string -> option ndarr
}.

Definition set_dimension (d : Z) (s : XGC_Loader) : XGC_Loader :=
  mk_loader d (grid s) (equilibrium_mesh s) (Equilibrium_Only s) (Fluc_Only s)
    (load_ions s) (n_cross_section s) (time_steps s) (points s) (psi_interp s)
    (B_interp s) (BR_interp s) (BZ_interp s) (BPhi_interp s) (te0_sp s)
    (ti0_sp s) (ne0_sp s) (ni0_sp s) (HaveElectron s) (n_plane s) (CO_DIR s)
    (prevplane s) (nextplane s) (planes s) (center_planes s) (arrays s).

Definition set_grid (g : grid_obj) (s : XGC_Loader) : XGC_Loader :=
  mk_loader (dimension s) g (equilibrium_mesh s) (Equilibrium_Only s)
    (Fluc_Only s) (load_ions s) (n_cross_section s) (time_steps s) (points s)
    (psi_interp s) (B_interp s) (BR_interp s) (BZ_interp s) (BPhi_interp s)
    (te0_sp s) (ti0_sp s) (ne0_sp s) (ni0_sp s) (HaveElectron s) (n_plane s)
    (CO_DIR s) (prevplane s) (nextplane s) (planes s) (center_planes s)
    (arrays s).

Definition set_interp_planes (pn : list Z * list Z) (s : XGC_Loader)
    : XGC_Loader :=
  mk_loader (dimension s) (grid s) (equilibrium_mesh s) (Equilibrium_Only s)
    (Fluc_Only s) (load_ions s) (n_cross_section s) (time_steps s) (points s)
    (psi_interp s) (B_interp s) (BR_interp s) (BZ_interp s) (BPhi_interp s)
    (te0_sp s) (ti0_sp s) (ne0_sp s) (ni0_sp s) (HaveElectron s) (n_plane s)
    (CO_DIR s) (Some (fst pn)) (Some (snd pn)) (planes s) (center_planes s)
    (arrays s).

(** [self.n_plane = ...] *)
Definition set_n_plane (np : nat) (s : XGC_Loader) : XGC_Loader :=
  mk_loader (dimension s) (grid s) (equilibrium_mesh s) (Equilibrium_Only s)
    (Fluc_Only s) (load_ions s) (n_cross_section s) (time_steps s) (points s)
    (psi_interp s) (B_interp s) (BR_interp s) (BZ_interp s) (BPhi_interp s)
    (te0_sp s) (ti0_sp s) (ne0_sp s) (ni0_sp s) (HaveElectron s) (Some np)
    (CO_DIR s) (prevplane s) (nextplane s) (planes s) (center_planes s)
    (arrays s).

(** [self.center_planes = ...] *)
Definition set_center_planes (cps : list Z) (s : XGC_Loader) : XGC_Loader :=
  mk_loader (dimension s) (grid s) (equilibrium_mesh s) (Equilibrium_Only s)
    (Fluc_Only s) (load_ions s) (n_cross_section s) (time_steps s) (points s)
    (psi_interp s) (B_interp s) (BR_interp s) (BZ_interp s) (BPhi_interp s)
    (te0_sp s) (ti0_sp s) (ne0_sp s) (ni0_sp s) (HaveElectron s) (n_plane s)
    (CO_DIR s) (prevplane s) (nextplane s) (planes s) (Some cps) (arrays s).

(** [self.planes = ...] *)
Definition set_planes (pls : list Z) (s : XGC_Loader) : XGC_Loader :=
  mk_loader (dimension s) (grid s) (equilibrium_mesh s) (Equilibrium_Only s)
    (Fluc_Only s) (load_ions s) (n_cross_section s) (time_steps s) (points s)
    (psi_interp s) (B_interp s) (BR_interp s) (BZ_interp s) (BPhi_interp s)
    (te0_sp s) (ti0_sp s) (ne0_sp s) (ni0_sp s) (HaveElectron s) (n_plane s)
    (CO_DIR s) (prevplane s) (nextplane s) (Some pls) (center_planes s)
    (arrays s).

Definition set_array (name : string) (v : ndarr) (s : XGC_Loader) : XGC_Loader :=
  mk_loader (dimension s) (grid s) (equilibrium_mesh s) (Equilibrium_Only s)
    (Fluc_Only s) (load_ions s) (n_cross_section s) (time_steps s) (points s)
    (psi_interp s) (B_interp s) (BR_interp s) (BZ_interp s) (BPhi_interp s)
    (te0_sp s) (ti0_sp s) (ne0_sp s) (ni0_sp s) (HaveElectron s) (n_plane s)
    (CO_DIR s) (prevplane s) (nextplane s) (planes s) (center_planes s)
    (fun k => if String.eqb k name then Some v else arrays s k).

(** A method of the loader: it returns or raises, and leaves the object in
    some state either way. *)
Definition meth (A : Type) : Type := XGC_Loader -> res A * XGC_Loader.

Definition mret {A : Type} (x : A) : meth A := fun s => (Ret x, s).

Definition mbind {A B : Type} (m : meth A) (k : A -> meth B) : meth B :=
  fun s =>
    match m s with
    | (Ret x, s') => k x s'
    | (Raise e, s') => (Raise e, s')
    | (OutOfFuel, s') => (OutOfFuel, s')
    end.

Notation "x <~ m ;; k" := (mbind m (fun x => k))
  (at level 61, m at next level, right associativity).
Notation "m ;;; k" := (mbind m (fun _ => k))
  (at level 61, right associativity).

Definition lift {A : Type} (r : res A) : meth A := fun s => (r, s).

Definition raise {A : Type} (e : pyexn) : meth A := fun s => (Raise e, s).

(** [self.name] *)
Definition getattr {A : Type} (name : string) (field : XGC_Loader -> option A)
    : meth A :=
  fun s =>
    match field s with
    | Some v => (Ret v, s)
    | None => (Raise (AttributeError name), s)
    end.

Definition read {A : Type} (field : XGC_Loader -> A) : meth A :=
  fun s => (Ret (field s), s).

Definition getarr (name : string) : meth ndarr :=
  getattr name (fun s => arrays s name).

Definition setarr (name : string) (v : ndarr) : meth unit :=
  fun s => (Ret tt, set_array name v s).

Definition modify (f : XGC_Loader -> XGC_Loader) : meth unit :=
  fun s => (Ret tt, f s).

Fixpoint mfor {A : Type} (l : list A) (body : A -> meth unit) : meth unit :=
  match l with
  | [] => mret tt
  | x :: l' => body x ;;; mfor l' body
  end.

Definition when (c : bool) (m : meth unit) : meth unit :=
  if c then m else mret tt.

(** A method that leaves the array attribute [name] as it found it. *)
Definition keeps (name : string) {A : Type} (m : meth A) : Prop :=
  forall s, arrays (snd (m s)) name = arrays s name.

Fixpoint foldM {A B : Type} (f : B -> A -> res B) (l : list A) (acc : B) : res B :=
  match l with
  | [] => Ret acc
  | x :: l' => acc' <- f acc x ;; foldM f l' acc'
  end.

Fixpoint map3 {A B C D : Type} (f : A -> B -> C -> D) (la : list A)
    (lb : list B) (lc : list C) : list D :=
  match la, lb, lc with
  | x :: la', y :: lb', z :: lc' => f x y z :: map3 f la' lb' lc'
  | _, _, _ => []
  end.

(** ** Interpolation on the grid *)

(** The report of [interp_check]: whether the check passed, and the two
    lists of violations. *)
Record check_report : Type := mk_check_report {
  check_pass : bool;
  adiabatic_error_info : list (R * R * R);
  non_adiabatic_error_info : list (R * R * R)
}.

Section OnGrid.

(** [scipy.spatial.ConvexHull(points).vertices] *)
Variable ConvexHull : list (R * R) -> res (list nat).

(** [CloughTocher2DInterpolator(self.Delaunay, values, fill_value = 0)]
    evaluated at one position. *)
Variable CloughTocher2DInterpolator :
  list (R * R) -> list fval -> fval -> fval -> fval.

(** The back-interpolation with [RectBivariateSpline] and the comparison
    made by [interp_check], on the arrays that it reads. *)
Variable back_interp_report :
  grid2D -> list (R * R) -> ndarr -> ndarr -> ndarr -> ndarr -> check_report.

(** [runge_kutta_explicit(2)] *)
Variable Nstage : nat.
Variable a : nat -> nat -> R.
Variable b : nat -> R.

(** [self.grid] read as a 2-D grid ([R2D], [Z2D], [R1D], [Z1D]). *)
Definition grid_2D : meth grid2D :=
  fun s =>
    match grid s with
    | Cartesian2D g => (Ret g, s)
    | _ => (Raise (AttributeError "R2D"), s)
    end.

(** [self.grid.r3D], [self.grid.z3D], [self.grid.phi3D] *)
Definition grid_3D : meth (grid3D * cylindrical) :=
  fun s =>
    match grid s with
    | Cartesian3D g =>
        match g3_cyl g with
        | Some c => (Ret (g, c), s)
        | None => (Raise (AttributeError "r3D"), s)
        end
    | _ => (Raise (AttributeError "r3D"), s)
    end.

(** [p_boundary = self.points[hull.vertices]] *)
Definition hull_boundary (pts : list (R * R)) : res (list (R * R)) :=
  vs <- ConvexHull pts ;;
  mapM (fun v => match nth_error pts v with
                 | Some p => Ret p
                 | None => Raise IndexError
                 end) vs.

(** [self.name = sp(self.psi_on_grid)] for a 1-D profile. *)
Definition profile_on_grid (name : string) (sp : R -> R) (psi : ndarr)
    : meth unit :=
  setarr name (nd_plain (shape psi) (map (fun c => apply_1d sp (data c)) (cells psi))).

(** [self.name = f(Z2D,R2D)] followed by [self.name[out_mask] = f_out]. *)
Definition extrapolated_on_grid (name : string) (f : cubic_interp)
    (sh : list nat) (zr : list (R * R)) (out_mask : list bool)
    (near : list (R * R)) : meth unit :=
  setarr name (mk_ndarr sh (interp_array f zr)) ;;;
  setarr name (mk_ndarr sh (extrapolated f zr out_mask near)).

(** [arr[i,j,...] += CloughTocher2DInterpolator(...)(grid points)] *)
Definition add_interpolated (name field : string) (i j : nat)
    (zr : list (R * R)) : meth unit :=
  pts <~ getattr "Delaunay" points ;;
  src <~ getarr field ;;
  vals <~ lift (nd_block src [i; j]) ;;
  dst <~ getarr name ;;
  old <~ lift (nd_block dst [i; j]) ;;
  let new := map (fun cp => fadd (data (fst cp))
                   (CloughTocher2DInterpolator pts (map data (cells vals))
                      (Fin (fst (snd cp))) (Fin (snd (snd cp)))))
                 (combine (cells old) zr) in
  dst' <~ lift (nd_set_block dst [i; j] (nd_plain (shape old) new)) ;;
  setarr name dst'.

Definition interp_check : meth (option check_report) :=
  d <~ read dimension ;;
  if Z.eqb d 3 then mret None
  else
    g <~ grid_2D ;;
    pts <~ getattr "mesh" points ;;
    dne_ad <~ getarr "dne_ad" ;;
    nane <~ getarr "nane" ;;
    dne_ad_on_grid <~ getarr "dne_ad_on_grid" ;;
    nane_on_grid <~ getarr "nane_on_grid" ;;
    mret (Some (back_interp_report g pts dne_ad nane dne_ad_on_grid nane_on_grid)).

(** [Te0], [Ti0], [ne0] and [ni0] on grid, interpolated on [psi]. *)
Definition profiles_on_grid (te_name ti_name : string) : meth unit :=
  te <~ getattr "te0_sp" te0_sp ;;
  psi_on_grid <~ getarr "psi_on_grid" ;;
  profile_on_grid te_name te psi_on_grid ;;;
  ti <~ getattr "ti0_sp" ti0_sp ;;
  profile_on_grid ti_name ti psi_on_grid ;;;
  ne <~ getattr "ne0_sp" ne0_sp ;;
  profile_on_grid "ne0_on_grid" ne psi_on_grid ;;;
  ni <~ getattr "ni0_sp" ni0_sp ;;
  profile_on_grid "ni0_on_grid" ni psi_on_grid.

(** Lines 1098-1116. *)
Definition fluctuations_on_grid_2D (sh : list nat) (zr : list (R * R))
    : meth unit :=
  ncs <~ read n_cross_section ;;
  nt <~ read (fun s => length (time_steps s)) ;;
  let fsh := ncs :: nt :: sh in
  setarr "phi_on_grid" (np_zeros fsh) ;;;
  setarr "dne_ad_on_grid" (np_zeros fsh) ;;;
  setarr "dni_ad_on_grid" (np_zeros fsh) ;;;
  he <~ getattr "HaveElectron" HaveElectron ;;
  when he (setarr "nane_on_grid" (np_zeros fsh)) ;;;
  ions <~ read load_ions ;;
  when ions (setarr "dni_on_grid" (np_zeros fsh)) ;;;
  mfor (seq 0 ncs) (fun i =>
    mfor (seq 0 nt) (fun j =>
      add_interpolated "phi_on_grid" "phi" i j zr ;;;
      add_interpolated "dne_ad_on_grid" "dne_ad" i j zr ;;;
      when he (add_interpolated "nane_on_grid" "nane" i j zr) ;;;
      when ions (add_interpolated "dni_on_grid" "dni" i j zr))).

Definition interpolate_all_on_grid_2D : meth unit :=
  g <~ grid_2D ;;
  let zr := mesh2D (g2_Z1D g) (g2_R1D g) in
  let sh := [length (g2_Z1D g); length (g2_R1D g)] in
  (* psi on grid *)
  psi <~ getattr "psi_interp" psi_interp ;;
  setarr "psi_on_grid" (mk_ndarr sh (interp_array psi zr)) ;;;
  let out_mask := map mask (interp_array psi zr) in
  let out := mask_select out_mask zr in
  pts <~ getattr "points" points ;;
  boundary <~ lift (hull_boundary pts) ;;
  near <~ lift (mapM (nearest_vertex boundary) out) ;;
  setarr "psi_on_grid" (mk_ndarr sh (extrapolated psi zr out_mask near)) ;;;
  (* B on grid *)
  B <~ getattr "B_interp" B_interp ;;
  extrapolated_on_grid "B_on_grid" B sh zr out_mask near ;;;
  profiles_on_grid "te0_on_grid" "ti0_on_grid" ;;;
  fluctuations_on_grid_2D sh zr ;;;
  interp_check ;;; mret tt.

(** *** Three-dimensional grids *)

(** Unary minus, [-], and [np.sin]/[np.cos] factors on masked arrays. *)
Definition fneg (x : fval) : fval :=
  match x with Fin u => Fin (- u) | NonFin => NonFin end.

Definition ma_neg (x : melt) : melt := mk_melt (fneg (data x)) (mask x).

Definition ma_subtract : melt -> melt -> melt := ma_binop fsub.

(** [np.sqrt(x**2 + y**2 + z**2)] *)
Definition ma_norm3 (x y z : melt) : melt :=
  np_sqrt (ma_add (ma_add (ma_power2 x) (ma_power2 y)) (ma_power2 z)).

(** The branch [equilibrium_mesh == '3D']: everything is interpolated at
    the points of the 3-D grid itself. *)
Definition equilibrium_on_grid_3D_mesh (g : grid3D) (c : cylindrical)
    : meth unit :=
  let sh := g3_shape g in
  let zr := combine (z3D c) (r3D c) in
  psi <~ getattr "psi_interp" psi_interp ;;
  setarr "psi_on_grid" (mk_ndarr sh (interp_array psi zr)) ;;;
  BPhi <~ getattr "BPhi_interp" BPhi_interp ;;
  BR <~ getattr "BR_interp" BR_interp ;;
  let BX := map3 (fun bphi br phi =>
                    ma_add (ma_multiply (ma_neg bphi) (ma_of_nd (Fin (sin phi))))
                           (ma_multiply br (ma_of_nd (Fin (cos phi)))))
                 (interp_array BPhi zr) (interp_array BR zr) (phi3D c) in
  setarr "BX_on_grid" (mk_ndarr sh BX) ;;;
  BZ <~ getattr "BZ_interp" BZ_interp ;;
  let BY := interp_array BZ zr in
  setarr "BY_on_grid" (mk_ndarr sh BY) ;;;
  let BZg := map3 (fun br bphi phi =>
                     ma_subtract
                       (ma_multiply (ma_neg br) (ma_of_nd (Fin (sin phi))))
                       (ma_multiply bphi (ma_of_nd (Fin (cos phi)))))
                  (interp_array BR zr) (interp_array BPhi zr) (phi3D c) in
  setarr "BZ_on_grid" (mk_ndarr sh BZg) ;;;
  setarr "B_on_grid" (mk_ndarr sh (map3 ma_norm3 BX BY BZg)) ;;;
  profiles_on_grid "te_on_grid" "ti_on_grid".

(** The branch [equilibrium_mesh == '2D']: the equilibrium is
    interpolated on the (X, Y) plane of the grid, read as (R, Z), and
    extrapolated outside the mesh. *)
Definition equilibrium_on_grid_2D_mesh (g : grid3D) : meth unit :=
  let zr := mesh2D (g3_Y1D g) (g3_X1D g) in
  let sh := [length (g3_Y1D g); length (g3_X1D g)] in
  psi <~ getattr "psi_interp" psi_interp ;;
  setarr "psi_on_grid" (mk_ndarr sh (interp_array psi zr)) ;;;
  let out_mask := map mask (interp_array psi zr) in
  let out := mask_select out_mask zr in
  pts <~ getattr "points" points ;;
  boundary <~ lift (hull_boundary pts) ;;
  near <~ lift (mapM (nearest_vertex boundary) out) ;;
  setarr "psi_on_grid" (mk_ndarr sh (extrapolated psi zr out_mask near)) ;;;
  BR <~ getattr "BR_interp" BR_interp ;;
  extrapolated_on_grid "BR_on_grid" BR sh zr out_mask near ;;;
  BZ <~ getattr "BZ_interp" BZ_interp ;;
  extrapolated_on_grid "BZ_on_grid" BZ sh zr out_mask near ;;;
  BPhi <~ getattr "BPhi_interp" BPhi_interp ;;
  extrapolated_on_grid "BPhi_on_grid" BPhi sh zr out_mask near ;;;
  setarr "B_on_grid"
    (mk_ndarr sh (map3 ma_norm3 (extrapolated BR zr out_mask near)
                                (extrapolated BZ zr out_mask near)
                                (extrapolated BPhi zr out_mask near))) ;;;
  profiles_on_grid "te0_on_grid" "ti0_on_grid".

(** [find_interp_positions_v2_upgrade(self)], [Nstep] left at 10. *)
Definition find_interp_positions (fuel : nat) : meth (list ipos) :=
  BR <~ getattr "BR_interp" BR_interp ;;
  BZ <~ getattr "BZ_interp" BZ_interp ;;
  BPhi <~ getattr "BPhi_interp" BPhi_interp ;;
  gc <~ grid_3D ;;
  prevp <~ getattr "prevplane" prevplane ;;
  nextp <~ getattr "nextplane" nextplane ;;
  np <~ getattr "n_plane" n_plane ;;
  co <~ getattr "CO_DIR" CO_DIR ;;
  lift (find_interp_positions_v2_upgrade Nstage a b
          (ci_call BR) (ci_call BZ) (ci_call BPhi) fuel np co
          (r3D (snd gc)) (z3D (snd gc)) (phi3D (snd gc)) prevp nextp 10).

(** [arr[np.where(sel == plane)] = interpolator(positions there)] *)
Definition fill_where (pts : list (R * R)) (vals : list fval) (plane : Z)
    (sel : list Z) (pos : list (fval * fval)) (arr : list fval) : list fval :=
  map3 (fun s p v =>
          if Z.eqb s plane
          then CloughTocher2DInterpolator pts vals (fst p) (snd p)
          else v)
       sel pos arr.

(** Body of the loop over the loaded planes (lines 1246-1250): the field
    of plane [j] is interpolated at the landing positions of the points
    that use it as previous plane, and of those that use it as next
    plane. *)
Definition interpolate_plane (pts : list (R * R)) (field : ndarr)
    (k i : nat) (pls prevp nextp : list Z) (ip : list ipos)
    (acc : list fval * list fval) (j : nat) : res (list fval * list fval) :=
  let plane := nth j pls 0%Z in
  prev' <- (if existsb (Z.eqb plane) prevp
            then vals <- nd_block field [k; i; j] ;;
                 Ret (fill_where pts (map data (cells vals)) plane prevp
                        (map (fun o => (prevZ o, prevR o)) ip) (fst acc))
            else Ret (fst acc)) ;;
  next' <- (if existsb (Z.eqb plane) nextp
            then vals <- nd_block field [k; i; j] ;;
                 Ret (fill_where pts (map data (cells vals)) plane nextp
                        (map (fun o => (nextZ o, nextR o)) ip) (snd acc))
            else Ret (snd acc)) ;;
  Ret (prev', next').

Definition interpolate_planes (pts : list (R * R)) (field : ndarr)
    (k i : nat) (pls prevp nextp : list Z) (ip : list ipos)
    (prev next : list fval) : res (list fval * list fval) :=
  foldM (interpolate_plane pts field k i pls prevp nextp ip)
        (seq 0 (length pls)) (prev, next).

(** What the plane loop leaves at one index whose plane is [s] and
    whose landing position is [pos]. *)
Definition pick_plane (pts : list (R * R)) (field : ndarr) (k i : nat)
    (pls : list Z) (s : Z) (pos : fval * fval) (js : list nat) (v0 : fval)
    : fval :=
  fold_left (fun v j =>
               if Z.eqb s (nth j pls 0%Z)
               then match nd_block field [k; i; j] with
                    | Ret vals =>
                        CloughTocher2DInterpolator pts (map data (cells vals))
                          (fst pos) (snd pos)
                    | _ => v
                    end
               else v)
            js v0.

(** [prev * interp_positions[1,2,...] + next * interp_positions[0,2,...]] *)
Definition blend (prev next : list fval) (ip : list ipos) : list fval :=
  map3 (fun p n o => fadd (fmul p (next_frac o)) (fmul n (prev_frac o)))
       prev next ip.

(** One quantity at one (cross-section, timestep) pair: the plane loop
    and the assignment of the blend to [self.name[k,i,...]]. *)
Definition blend_on_grid (name field : string) (g : grid3D) (k i : nat)
    (ip : list ipos) (prev next : list fval) : meth (list fval * list fval) :=
  pls <~ getattr "planes" planes ;;
  prevp <~ getattr "prevplane" prevplane ;;
  nextp <~ getattr "nextplane" nextplane ;;
  pts <~ getattr "Delaunay" points ;;
  src <~ getarr field ;;
  pn <~ lift (interpolate_planes pts src k i pls prevp nextp ip prev next) ;;
  dst <~ getarr name ;;
  dst' <~ lift (nd_set_block dst [k; i]
                  (nd_plain (g3_shape g) (blend (fst pn) (snd pn) ip))) ;;
  setarr name dst' ;;;
  mret pn.

(** Lines 1221-1277. *)
Definition fluctuations_on_grid_3D (fuel : nat) (g : grid3D) : meth unit :=
  ncs <~ read n_cross_section ;;
  nt <~ read (fun s => length (time_steps s)) ;;
  setarr "dne_ad_on_grid" (np_zeros (ncs :: nt :: g3_shape g)) ;;;
  he <~ getattr "HaveElectron" HaveElectron ;;
  when he (setarr "nane_on_grid" (np_zeros (ncs :: nt :: g3_shape g))) ;;;
  ions <~ read load_ions ;;
  when ions (like <~ getarr "dni_ad_on_grid" ;;
             setarr "dni_on_grid" (np_zeros (shape like))) ;;;
  ip <~ find_interp_positions fuel ;;
  let zeros := repeat (Fin 0) (size_of (g3_shape g)) in
  mfor (seq 0 ncs) (fun k =>
    cps <~ getattr "center_planes" center_planes ;;
    lift (match nth_error cps k with
          | Some _ => Ret tt
          | None => Raise IndexError
          end) ;;;
    mfor (seq 0 nt) (fun i =>
      pn <~ blend_on_grid "dne_ad_on_grid" "dne_ad" g k i ip zeros zeros ;;
      when he (blend_on_grid "nane_on_grid" "nane" g k i ip (fst pn) (snd pn)
               ;;; mret tt) ;;;
      when ions (blend_on_grid "dni_on_grid" "dni" g k i ip zeros zeros
                 ;;; mret tt))).

Definition interpolate_all_on_grid_3D (fuel : nat) : meth unit :=
  gc <~ grid_3D ;;
  style <~ read equilibrium_mesh ;;
  (if String.eqb style "3D" then equilibrium_on_grid_3D_mesh (fst gc) (snd gc)
   else if String.eqb style "2D" then equilibrium_on_grid_2D_mesh (fst gc)
   else mret tt) ;;;
  eq_only <~ read Equilibrium_Only ;;
  when (negb eq_only) (fluctuations_on_grid_3D fuel (fst gc)).

End OnGrid.

(** The interpolant has a value and a gradient at every boundary vertex. *)
Definition defined_on (f : cubic_interp) (boundary : list (R * R)) : Prop :=
  forall v, In v boundary ->
    exists a gz gr, ci_call f (fst v) (snd v) = Some a /\
                    ci_gradient f (fst v) (snd v) = Some (gz, gr).

(** ** Loading the fluctuations of a 3-D run *)

(** [np.unique]: the sorted list of the distinct values. *)
Fixpoint insert_unique (x : Z) (l : list Z) : list Z :=
  match l with
  | [] => [x]
  | y :: l' =>
      if Z.ltb x y then x :: y :: l'
      else if Z.eqb x y then y :: l'
      else y :: insert_unique x l'
  end.

Definition np_unique (l : list Z) : list Z := fold_right insert_unique [] l.

(** [np.average(arr, axis = 0)] at one position. *)
Definition favg (l : list fval) : fval := fdiv (fsum l) (Fin (INR (length l))).

(** Element-wise [+] and [-] of two node arrays. *)
Definition vadd (x y : list fval) : list fval :=
  map (fun p => fadd (fst p) (snd p)) (combine x y).

Definition vsub (x y : list fval) : list fval :=
  map (fun p => fsub (fst p) (snd p)) (combine x y).

(** [l[i] = f(l[i])] *)
Fixpoint update_nth {A : Type} (i : nat) (f : A -> A) (l : list A) {struct l}
    : list A :=
  match l, i with
  | [], _ => []
  | x :: l', O => f x :: l'
  | x :: l', S i' => x :: update_nth i' f l'
  end.

(** The average over the first axis of an array given as the list of its
    slices, each a table of [rows] rows and [cols] columns. *)
Definition average_axis0 (rows cols : nat) (arr : list (list (list fval)))
    : list (list fval) :=
  map (fun i =>
         map (fun n => favg (map (fun plane => nth n (nth i plane []) NonFin) arr))
             (seq 0 cols))
      (seq 0 rows).

Section Loading.

(** The file [xgc.3d.<step>.h5]: the number of toroidal planes (the
    second dimension of ['dpot']) and, for a dataset and a plane [j],
    the node array [np.swapaxes(fluc_mesh[name][...][:,j],0,1)]. *)
Variable fluc_planes : Z -> nat.
Variable fluc_data : Z -> string -> nat -> list fval.

(** [all[j,i] += data of plane j] for every plane [j], at time index [i]. *)
Definition load_step (n_plane : nat) (step : Z) (name : string) (i : nat)
    (all : list (list (list fval))) : list (list (list fval)) :=
  fold_left (fun acc j =>
               update_nth j (update_nth i
                 (fun row => vadd row (fluc_data step name j))) acc)
            (seq 0 n_plane) all.

(** [for i in range(1,len(self.time_steps))]: the files of all the steps
    but the first are read into [all]. *)
Definition load_rest (n_plane : nat) (steps : list Z) (name : string)
    (all : list (list (list fval))) : list (list (list fval)) :=
  fold_left (fun acc i => load_step n_plane (nth i steps 0%Z) name i acc)
            (seq 1 (length steps - 1)) all.

(** [np.zeros((n_plane, nt, nnode))] *)
Definition zeros3 (n_plane nt nnode : nat) : list (list (list fval)) :=
  repeat (repeat (repeat (Fin 0) nnode) nt) n_plane.

(** [np.swapaxes(all[(center + planes) % n_plane,:,:],0,1)
     - avg_tor[:,np.newaxis,:]], flattened. *)
Definition centred (n_plane nt : nat) (center : Z) (pls : list Z)
    (all : list (list (list fval))) (avg_tor : list (list fval))
    : list fval :=
  flat_map (fun i =>
    flat_map (fun p =>
      vsub (nth i (nth (Z.to_nat ((center + p) mod Z.of_nat n_plane)) all []) [])
           (nth i avg_tor []))
      pls)
    (seq 0 nt).

(** One quantity: all planes are loaded, the chosen ones are stored with
    the toroidal average taken off; the result is the stored array and
    the time average of the toroidal average. *)
Definition fluctuation_only (n_plane ncs nnode : nat) (steps : list Z)
    (centers pls : list Z) (name : string) : ndarr * list fval :=
  let nt := length steps in
  let all := load_rest n_plane steps name (zeros3 n_plane nt nnode) in
  let avg_tor := average_axis0 nt nnode all in
  ( nd_plain [ncs; nt; length pls; nnode]
      (flat_map (fun j => centred n_plane nt (nth j centers 0%Z) pls all avg_tor)
                (seq 0 ncs)),
    map (fun n => favg (map (fun row => nth n row NonFin) avg_tor)) (seq 0 nnode) ).

(** [self.name[:] += v] *)
Definition add_to_profile (name : string) (v : list fval) : meth unit :=
  old <~ getarr name ;;
  setarr name (nd_plain (shape old) (vadd (map data (cells old)) v)).

Definition load_fluctuations_3D_fluc_only : meth unit :=
  steps <~ read time_steps ;;
  step0 <~ lift (match steps with
                 | t :: _ => Ret t
                 | [] => Raise IndexError
                 end) ;;
  let np := fluc_planes step0 in
  modify (set_n_plane np) ;;;
  ncs <~ read n_cross_section ;;
  (if Nat.eqb ncs 0 then raise ZeroDivisionError else mret tt) ;;;
  let dn := Z.of_nat (np / ncs) in
  let centers := map (fun c => (Z.of_nat c * dn)%Z) (seq 0 ncs) in
  modify (set_center_planes centers) ;;;
  prevp <~ getattr "prevplane" prevplane ;;
  nextp <~ getattr "nextplane" nextplane ;;
  let pls := np_unique (prevp ++ nextp) in
  modify (set_planes pls) ;;;
  he <~ getattr "HaveElectron" HaveElectron ;;
  pts <~ getattr "mesh" points ;;
  let nnode := length pts in
  let sh := [ncs; length steps; length pls; nnode] in
  when he (setarr "nane" (np_zeros sh)) ;;;
  ions <~ read load_ions ;;
  when ions (setarr "dni" (np_zeros sh)) ;;;
  setarr "phi" (np_zeros sh) ;;;
  let phi := fluctuation_only np ncs nnode steps centers pls "dpot" in
  let nane := fluctuation_only np ncs nnode steps centers pls "eden" in
  let dni := fluctuation_only np ncs nnode steps centers pls "iden" in
  setarr "phi" (fst phi) ;;;
  when he (setarr "nane" (fst nane)) ;;;
  when ions (setarr "dni" (fst dni)) ;;;
  add_to_profile "ne0" (snd phi) ;;;
  when he (add_to_profile "ne0" (snd nane)) ;;;
  add_to_profile "ni0" (snd phi) ;;;
  when ions (add_to_profile "ni0" (snd dni)).

End Loading.

(** ** Changing the grid *)

Section ChangeGrid.

Variable ConvexHull : list (R * R) -> res (list nat).
Variable CloughTocher2DInterpolator :
  list (R * R) -> list fval -> fval -> fval -> fval.
Variable back_interp_report :
  grid2D -> list (R * R) -> ndarr -> ndarr -> ndarr -> ndarr -> check_report.
Variable Nstage : nat.
Variable a : nat -> nat -> R.
Variable b : nat -> R.
Variable fluc_planes : Z -> nat.
Variable fluc_data : Z -> string -> nat -> list fval.

(** The methods that read the mesh, the equilibrium and the 2-D
    fluctuation files, and the adiabatic response. *)
Variables load_mesh_2D load_psi_2D load_B_2D load_eq_2D3D : meth unit.
Variables load_fluctuations_2D_fluc_only load_fluctuations_2D_all : meth unit.
Variables load_mesh_psi_3D load_B_3D load_fluctuations_3D_all : meth unit.
Variable calculate_dne_ad_2D3D : meth unit.

(** Fuel for the tracing loops of the 3-D interpolation. *)
Variable fuel : nat.

(** [self.prevplane,self.nextplane = get_interp_planes(self)] *)
Definition set_planes_from_grid : meth unit :=
  np <~ getattr "n_plane" n_plane ;;
  co <~ getattr "CO_DIR" CO_DIR ;;
  gc <~ grid_3D ;;
  modify (set_interp_planes (get_interp_planes np co (phi3D (snd gc)))).

Definition not_valid_grid : string :=
  "NOT VALID GRID, please use either Cartesian3D or Cartesian2D grids.Grid NOT changed.".

Definition change_grid (new_grid : grid_obj) : meth unit :=
  d <~ read dimension ;;
  if Z.eqb d 2 then
    match new_grid with
    | Cartesian2D _ =>
        modify (set_grid new_grid) ;;;
        interpolate_all_on_grid_2D ConvexHull CloughTocher2DInterpolator
          back_interp_report
    | Cartesian3D g =>
        modify (set_dimension 3) ;;;
        modify (set_grid new_grid) ;;;
        modify (set_grid (Cartesian3D (ToCylindrical g))) ;;;
        load_mesh_psi_3D ;;;
        load_B_3D ;;;
        set_planes_from_grid ;;;
        load_eq_2D3D ;;;
        fo <~ read Fluc_Only ;;
        (if fo then load_fluctuations_3D_fluc_only fluc_planes fluc_data
         else load_fluctuations_3D_all) ;;;
        calculate_dne_ad_2D3D ;;;
        interpolate_all_on_grid_3D ConvexHull CloughTocher2DInterpolator
          Nstage a b fuel
    | OtherGrid _ => raise (XGC_Loader_Error not_valid_grid)
    end
  else
    match new_grid with
    | Cartesian3D _ =>
        modify (set_grid new_grid) ;;;
        interpolate_all_on_grid_3D ConvexHull CloughTocher2DInterpolator
          Nstage a b fuel
    | Cartesian2D _ =>
        modify (set_dimension 2) ;;;
        modify (set_grid new_grid) ;;;
        load_mesh_2D ;;;
        load_psi_2D ;;;
        load_B_2D ;;;
        load_eq_2D3D ;;;
        fo <~ read Fluc_Only ;;
        (if fo then load_fluctuations_2D_fluc_only
         else load_fluctuations_2D_all) ;;;
        calculate_dne_ad_2D3D ;;;
        interpolate_all_on_grid_2D ConvexHull CloughTocher2DInterpolator
          back_interp_report
    | OtherGrid _ => raise (XGC_Loader_Error not_valid_grid)
    end.

End ChangeGrid.

(** ** A small run

    A mesh that covers the square 0 <= Z <= 1, 1 <= R <= 2 with constant
    fields, a 3-D grid of one point at X = 5, well outside it, two toroidal
    planes and one loaded timestep whose file holds the potential 1 on
    plane 0 and 3 on plane 1 at the single mesh node kept here. *)

Definition on_square (z r : R) : bool :=
  Rleb 0 z && Rleb z 1 && Rleb 1 r && Rleb r 2.

Definition square_field (v : R) : cubic_interp :=
  mk_cubic_interp (fun z r => if on_square z r then Some v else None)
                  (fun z r => if on_square z r then Some (0, 0) else None).

Definition small_grid : grid3D := ToCylindrical (mk_grid3D [5] [0] [0] None).

Definition small_arrays (name : string) : option ndarr :=
  if String.eqb name "ne0" then Some (nd_plain [1%nat] [Fin 10])
  else if String.eqb name "ni0" then Some (nd_plain [1%nat] [Fin 10])
  else None.

Definition small_run : XGC_Loader :=
  mk_loader 3 (Cartesian3D small_grid) "3D" false true true 1 [7%Z]
    (Some [(0, 1)]) (Some (square_field 1)) None
    (Some (square_field 0)) (Some (square_field 0)) (Some (square_field 2))
    (Some (fun psi => psi)) (Some (fun psi => psi))
    (Some (fun psi => psi)) (Some (fun psi => psi))
    (Some false) (Some 2%nat) (Some true)
    (Some [0%Z]) (Some [1%Z]) None None
    small_arrays.

(** The same run asked for its equilibrium only. *)
Definition small_equilibrium_run : XGC_Loader :=
  mk_loader 3 (Cartesian3D small_grid) "3D" true false false 1 [7%Z]
    (Some [(0, 1)]) (Some (square_field 1)) None
    (Some (square_field 0)) (Some (square_field 0)) (Some (square_field 2))
    (Some (fun psi => psi)) (Some (fun psi => psi))
    (Some (fun psi => psi)) (Some (fun psi => psi))
    (Some false) (Some 2%nat) (Some true)
    (Some [0%Z]) (Some [1%Z]) None None
    small_arrays.

Definition small_fluc_planes (step : Z) : nat := 2.

Definition small_fluc_data (step : Z) (name : string) (j : nat) : list fval :=
  if Nat.eqb j 0 then [Fin 1] else [Fin 3].

(** The same mesh under a 2-D grid of one point at R = 5, Z = 0, with a
    hull routine that keeps every mesh node as a vertex, an interpolator
    that is constant and a back-interpolation check that passes. *)
Definition small_grid_2D : grid2D := mk_grid2D [5] [0].

Definition small_run_2D : XGC_Loader :=
  mk_loader 2 (Cartesian2D small_grid_2D) "2D" false true true 1 [7%Z]
    (Some [(0, 1)]) (Some (square_field 1)) (Some (square_field 2))
    None None None
    (Some (fun psi => psi)) (Some (fun psi => psi))
    (Some (fun psi => psi)) (Some (fun psi => psi))
    (Some false) None None None None None None
    small_arrays.

Definition small_hull (pts : list (R * R)) : res (list nat) :=
  Ret (seq 0 (length pts)).

Definition small_interpolator (pts : list (R * R)) (vals : list fval)
    (z r : fval) : fval := Fin 0.

Definition small_report (g : grid2D) (pts : list (R * R))
    (dne_ad nane dne_back nane_back : ndarr) : check_report :=
  mk_check_report true [] [].

(** ** Attributes that a method leaves alone *)

(** A method that leaves what [f] reads of the loader as it found it,
    whether it returns or raises. *)
Definition unchanged {B : Type} (f : XGC_Loader -> B) {A : Type} (m : meth A)
    : Prop :=
  forall s, f (snd (m s)) = f s.

(** A method that cannot return normally from a state in [I]. *)
Definition never_returns (I : XGC_Loader -> Prop) {A : Type} (m : meth A)
    : Prop :=
  forall s, I s -> forall x, fst (m s) <> Ret x.

(** ** More small runs

    The small run asked for its equilibrium only, with the '2D'
    equilibrium mesh and with a style that does not exist. *)
Definition small_run_styled (style : string) : XGC_Loader :=
  mk_loader 3 (Cartesian3D small_grid) style true false false 1 [7%Z]
    (Some [(0, 1)]) (Some (square_field 1)) None
    (Some (square_field 0)) (Some (square_field 0)) (Some (square_field 2))
    (Some (fun psi => psi)) (Some (fun psi => psi))
    (Some (fun psi => psi)) (Some (fun psi => psi))
    (Some false) (Some 2%nat) (Some true)
    (Some [0%Z]) (Some [1%Z]) None None
    small_arrays.

(** ** The adiabatic response and the filter

    [calculate_dne_ad_2D3D] tests [te0 > 0] and compares magnitudes, and a
    comparison tells NaN (never larger, never smaller) from the
    infinities.  The arrays of this method therefore hold a real, an
    infinity with its sign, or NaN. *)

Inductive f64 : Type :=
| Num (r : R)
| Inf (positive : bool)
| NaN.

(** [x > y] *)
Definition f64_gt (x y : f64) : bool :=
  match x, y with
  | Num u, Num v => Rltb v u
  | Inf true, Num _ => true
  | Inf true, Inf false => true
  | Num _, Inf false => true
  | _, _ => false
  end.

(** [np.absolute] *)
Definition f64_abs (x : f64) : f64 :=
  match x with
  | Num u => Num (Rabs u)
  | Inf _ => Inf true
  | NaN => NaN
  end.

Definition f64_add (x y : f64) : f64 :=
  match x, y with
  | Num u, Num v => Num (u + v)
  | Num _, Inf s => Inf s
  | Inf s, Num _ => Inf s
  | Inf s, Inf t => if Bool.eqb s t then Inf s else NaN
  | _, _ => NaN
  end.

Definition f64_mul (x y : f64) : f64 :=
  match x, y with
  | Num u, Num v => Num (u * v)
  | Num u, Inf s => if Reqb u 0 then NaN else Inf (if Rltb 0 u then s else negb s)
  | Inf s, Num u => if Reqb u 0 then NaN else Inf (if Rltb 0 u then s else negb s)
  | Inf s, Inf t => Inf (Bool.eqb s t)
  | _, _ => NaN
  end.

(** [x / y]; a zero divisor stands for [+0.0]. *)
Definition f64_div (x y : f64) : f64 :=
  match x, y with
  | Num u, Num v =>
      if Reqb v 0 then (if Reqb u 0 then NaN else Inf (Rltb 0 u))
      else Num (u / v)
  | Num _, Inf _ => Num 0
  | Inf s, Num v => Inf (if Rltb v 0 then negb s else s)
  | _, _ => NaN
  end.

(** An array of such values: its shape and its elements in row-major
    order.  The last axis of the fluctuation arrays runs over the mesh
    nodes, so the element at flat position [c] belongs to node
    [c mod N], [N] being the length of the last axis. *)
Record farr : Type := mk_farr { fshape : list nat; fcells : list f64 }.

(** [self.name], for an attribute that may not have been created. *)
Definition attr {A : Type} (name : string) (o : option A) : res A :=
  match o with
  | Some v => Ret v
  | None => Raise (AttributeError name)
  end.

(** [np.where(te0>0)[0]] *)
Definition np_where_positive (te0 : list f64) : list nat :=
  filter (fun n => f64_gt (nth n te0 NaN) (Num 0)) (seq 0 (length te0)).

(** Lines 1020-1021:
    [self.dne_ad = np.zeros(self.phi.shape)] and
    [self.dne_ad[...,inner_idx] += ne0[inner_idx] * self.phi[...,inner_idx]
                                   / self.te0[inner_idx]].
    An index of [inner_idx] beyond [ne0] or beyond the last axis of [phi]
    raises, and so does a [phi] without axes. *)
Definition adiabatic_response (ne0 te0 : list f64) (phi : farr) : res farr :=
  let inner_idx := np_where_positive te0 in
  match fshape phi with
  | [] => Raise IndexError
  | _ :: _ =>
      let N := last (fshape phi) O in
      if forallb (fun n => Nat.ltb n N && Nat.ltb n (length ne0)) inner_idx
      then Ret (mk_farr (fshape phi)
                  (map (fun c =>
                          let n := (c mod N)%nat in
                          if existsb (Nat.eqb n) inner_idx
                          then f64_add (Num 0)
                                 (f64_div (f64_mul (nth n ne0 NaN)
                                                   (nth c (fcells phi) NaN))
                                          (nth n te0 NaN))
                          else Num 0)
                       (seq 0 (size_of (fshape phi)))))
      else Raise IndexError
  end.

(** [mask = np.absolute(arr) > np.absolute(ref)] followed by
    [arr[mask] = 0], for a 1-D [ref].  [ref] is broadcast along the last
    axis of [arr]: it must have that length or length 1; when only [arr]
    has length 1 there, the mask is larger than [arr] and the assignment
    is refused; any other pair of lengths cannot be broadcast. *)
Definition filter_larger (ref : list f64) (arr : farr) : res farr :=
  match fshape arr with
  | [] => Raise IndexError
  | _ :: _ =>
      let N := last (fshape arr) O in
      let L := length ref in
      if Nat.eqb L N || Nat.eqb L 1 then
        Ret (mk_farr (fshape arr)
               (map (fun cv =>
                       let r := nth (if Nat.eqb L N then (fst cv mod N)%nat else O)
                                    ref NaN in
                       if f64_gt (f64_abs (snd cv)) (f64_abs r)
                       then Num 0 else snd cv)
                    (combine (seq 0 (length (fcells arr))) (fcells arr))))
      else if Nat.eqb N 1 then Raise IndexError
      else Raise ValueError
  end.

(** An array whose last axis has one entry per mesh node and that holds
    as many elements as its shape says. *)
Definition node_array (N : nat) (arr : farr) : Prop :=
  fshape arr <> [] /\ last (fshape arr) O = N /\
  length (fcells arr) = size_of (fshape arr).

(** No element of [arr] is larger in magnitude than the entry of [ref] at
    its node: [np.absolute(arr) > np.absolute(ref)] is false everywhere. *)
Definition bounded_by (ref : list f64) (arr : farr) : Prop :=
  forall c v, nth_error (fcells arr) c = Some v ->
    f64_gt (f64_abs v) (f64_abs (nth (c mod last (fshape arr) O) ref NaN))
    = false.

(** What the method leaves in [self.dne_ad], [self.nane] and [self.dni]. *)
Record density_fluctuations : Type := mk_density_fluctuations {
  dne_ad : farr; nane : option farr; dni : option farr
}.

(** The method, from the attributes it reads to the attributes it leaves
    when it completes (lines 1012-1034). *)
Definition calculate_dne_ad_2D3D (Fluc_Filtering : bool)
    (HaveElectron : option bool) (load_ions : bool)
    (ne0 te0 ni0 : option (list f64)) (phi nane dni : option farr)
    : res density_fluctuations :=
  ne0 <- attr "ne0" ne0 ;;
  te0 <- attr "te0" te0 ;;
  ni0 <- attr "ni0" ni0 ;;
  phi <- attr "phi" phi ;;
  dne_ad <- adiabatic_response ne0 te0 phi ;;
  if Fluc_Filtering then
    dne_ad <- filter_larger ne0 dne_ad ;;
    he <- attr "HaveElectron" HaveElectron ;;
    nane <- (if he then
               x <- attr "nane" nane ;; y <- filter_larger ne0 x ;; Ret (Some y)
             else Ret nane) ;;
    dni <- (if load_ions then
              x <- attr "dni" dni ;; y <- filter_larger ni0 x ;; Ret (Some y)
            else Ret dni) ;;
    Ret (mk_density_fluctuations dne_ad nane dni)
  else Ret (mk_density_fluctuations dne_ad nane dni).

(** ** The node before each node

    Lines 642-650 of [load_mesh_psi_3D]: [nextnode] is a 1-D array of node
    numbers; [prevnode[i]] is the first node whose next node is [i], or
    [-1] when there is none.  (The source keeps these integers in an array
    of floats.) *)

(** [np.nonzero(arr == v)[0]] *)
Definition np_nonzero_eq (arr : list Z) (v : Z) : list nat :=
  filter (fun j => Z.eqb (nth j arr 0%Z) v) (seq 0 (length arr)).

Definition prevnode_of (nextnode : list Z) : list Z :=
  map (fun i =>
         match np_nonzero_eq nextnode (Z.of_nat i) with
         | j :: _ => Z.of_nat j
         | [] => (-1)%Z
         end)
      (seq 0 (length nextnode)).

(** ** Building the grids

    The constructors of [Cartesian2D] and [Cartesian3D]
    ([Geometry/Grid.py]), from their keyword arguments to the attributes
    of the object.  A constructor returns the object, raises [GridError],
    or fails with another exception, which it passes on. *)

Inductive built (A : Type) : Type :=
| Built (x : A)
| GridError (msg : string)
| Failed (e : pyexn).
Arguments Built {A} x.
Arguments GridError {A} msg.
Arguments Failed {A} e.

Definition and_then {A B : Type} (m : built A) (k : A -> built B) : built B :=
  match m with
  | Built x => k x
  | GridError msg => GridError msg
  | Failed e => Failed e
  end.

Notation "x <-- m ;; k" := (and_then m (fun x => k))
  (at level 61, m at next level, right associativity).

(** [int(x)] on a float: the fractional part is dropped. *)
Definition py_int (x : R) : Z :=
  if Rle_dec 0 x then Int_part x else (- Int_part (- x))%Z.

(** [np.linspace(start, stop, num)]: [num] points from [start] to [stop]
    inclusive, [start + i * (stop - start) / (num - 1)]; a single point is
    [start]; a negative [num] is refused. *)
Definition np_linspace (start stop : R) (num : Z) : built (list R) :=
  if (num <? 0)%Z then Failed ValueError
  else match Z.to_nat num with
       | O => Built []
       | S O => Built [start]
       | S (S m) =>
           Built (map (fun i => start + INR i * ((stop - start) / INR (S m)))
                      (seq 0 (S (S m))))
       end.

(** The number of points and the resolution that [Cartesian3D] stores
    for one axis, from [N] or from [Res] (lines 370-383). *)
Definition axis_3D (range : R) (N : option Z) (Res : option R) (msg : string)
    : built (Z * R) :=
  match N, Res with
  | Some n, None =>
      Built (n, if (1 <? n)%Z then range / IZR (n - 1) else 0)
  | None, Some res =>
      if Reqb res 0 then Failed ZeroDivisionError
      else
        let n := py_int (range / res + 2) in
        if (n =? 0)%Z then Failed ZeroDivisionError
        else Built (n, range / IZR n)
  | _, _ => GridError msg
  end.

(** The same for [Cartesian2D] (lines 245-255), which divides by [N]
    itself. *)
Definition axis_2D (range : R) (N : option Z) (Res : option R) (msg : string)
    : built (Z * R) :=
  match N, Res with
  | Some n, None =>
      if (n =? 0)%Z then Failed ZeroDivisionError
      else Built (n, range / IZR n)
  | None, Some res =>
      if Reqb res 0 then Failed ZeroDivisionError
      else
        let n := py_int (range / res + 2) in
        if (n =? 0)%Z then Failed ZeroDivisionError
        else Built (n, range / IZR n)
  | _, _ => GridError msg
  end.

(** The keyword arguments [**P] that the constructors look at. *)
Record kwargs_3D : Type := mk_kwargs_3D {
  kw_Xmin : option R; kw_Xmax : option R;
  kw_Ymin : option R; kw_Ymax : option R;
  kw_Zmin : option R; kw_Zmax : option R;
  kw_NX : option Z; kw_ResX : option R;
  kw_NY : option Z; kw_ResY : option R;
  kw_NZ : option Z; kw_ResZ : option R
}.

Record kwargs_2D : Type := mk_kwargs_2D {
  kw_DownLeft : option (R * R); kw_UpRight : option (R * R);
  kw_NR : option Z; kw_ResR : option R;
  kw_NZ_2D : option Z; kw_ResZ_2D : option R
}.

(** The attributes of the objects: the numbers of points, the stored
    resolutions and the axes. *)
Record Cartesian3D_object : Type := mk_Cartesian3D_object {
  NX : Z; ResX : R; NY : Z; ResY : R; NZ : Z; ResZ : R;
  axes_3D : grid3D
}.

Record Cartesian2D_object : Type := mk_Cartesian2D_object {
  NR : Z; ResR : R; NZ_2D : Z; ResZ_2D : R;
  axes_2D : grid2D
}.

Definition Cartesian3D_init (P : kwargs_3D) : built Cartesian3D_object :=
  match kw_Xmin P, kw_Xmax P, kw_Ymin P, kw_Ymax P, kw_Zmin P, kw_Zmax P with
  | Some Xmin, Some Xmax, Some Ymin, Some Ymax, Some Zmin, Some Zmax =>
      let rangeX := Xmax - Xmin in
      let rangeY := Ymax - Ymin in
      let rangeZ := Zmax - Zmin in
      X <-- axis_3D rangeX (kw_NX P) (kw_ResX P)
              "NX and ResX missing or conflicting, make                     sure you specify exactly one of them." ;;
      Y <-- axis_3D rangeY (kw_NY P) (kw_ResY P)
              "NY and ResY missing or conflicting, make                     sure you specify exactly one of them." ;;
      Z <-- axis_3D rangeZ (kw_NZ P) (kw_ResZ P)
              "NZ and ResZ missing or conflicting, make                     sure you specify exactly one of them." ;;
      X1D <-- np_linspace Xmin Xmax (fst X) ;;
      Y1D <-- np_linspace Ymin Ymax (fst Y) ;;
      Z1D <-- np_linspace Zmin Zmax (fst Z) ;;
      Built (mk_Cartesian3D_object (fst X) (snd X) (fst Y) (snd Y) (fst Z) (snd Z)
               (mk_grid3D X1D Y1D Z1D None))
  | _, _, _, _, _, _ =>
      GridError "Initializing Grid fails: X/Y/Z limits not                 set."
  end.

Definition Cartesian2D_init (P : kwargs_2D) : built Cartesian2D_object :=
  match kw_DownLeft P, kw_UpRight P with
  | Some (Zmin, Rmin), Some (Zmax, Rmax) =>
      let rangeR := Rmax - Rmin in
      let rangeZ := Zmax - Zmin in
      Rax <-- axis_2D rangeR (kw_NR P) (kw_ResR P)
                "NR and ResR missing or conflicting, make                     sure you specify exactly one of them." ;;
      Zax <-- axis_2D rangeZ (kw_NZ_2D P) (kw_ResZ_2D P)
                "NZ and ResZ missing or conflicting, make                     sure you specify exactly one of them." ;;
      R1D <-- np_linspace Rmin Rmax (fst Rax) ;;
      Z1D <-- np_linspace Zmin Zmax (fst Zax) ;;
      Built (mk_Cartesian2D_object (fst Rax) (snd Rax) (fst Zax) (snd Zax)
               (mk_grid2D R1D Z1D))
  | _, _ =>
      GridError "Initializing Grid fails: DownLeft or UpRight                 not set."
  end.

(** An axis of at least two points from [lo] to [hi], equally spaced. *)
Definition spans (lo hi : R) (pts : list R) : Prop :=
  (2 <= length pts)%nat /\
  nth_error pts 0 = Some lo /\ nth_error pts (length pts - 1) = Some hi /\
  forall i, (S i < length pts)%nat ->
    nth (S i) pts 0 - nth i pts 0 = (hi - lo) / INR (length pts - 1).

(** What a constructor makes of one axis given by its resolution [res]:
    [N = floor((hi - lo) / res) + 2] points that span the axis with a
    spacing below [res], and the stored resolution [(hi - lo) / N]. *)
Definition axis_from_resolution (lo hi res : R) (N : Z) (Res : R)
    (pts : list R) : Prop :=
  IZR N - 2 <= (hi - lo) / res < IZR N - 1 /\
  Z.of_nat (length pts) = N /\
  spans lo hi pts /\
  (hi - lo) / INR (length pts - 1) < res /\
  Res = (hi - lo) / IZR N.

(** ** The potential of the small run

    What [CloughTocher2DInterpolator(..., fill_value = 0)] does on the
    one-node mesh of the small run: the node's value on the square, the
    fill value everywhere else. *)
Definition small_fill_interpolator (pts : list (R * R)) (vals : list fval)
    (z r : fval) : fval :=
  match z, r with
  | Fin z', Fin r' => if on_square z' r' then nth 0 vals (Fin 0) else Fin 0
  | _, _ => Fin 0
  end.

(** A stored potential of shape (1, 1, 2, 1): 1 on plane 0 and 3 on plane 1
    at the single node. *)
Definition small_field : ndarr := nd_plain [1; 1; 2; 1]%nat [Fin 1; Fin 3].

End loader.

Import loader.

(** * Plane bracketing *)

Lemma searchsorted_right_le_length (a : list R) (v : R) :
  (searchsorted_right a v <= length a)%nat.
Proof.
  induction a as [|x a IH]; simpl; [lia|].
  destruct (Rle_dec x v); lia.
Qed.

Lemma searchsorted_right_all (a : list R) (v : R) :
  Forall (fun x => x <= v) a -> searchsorted_right a v = length a.
Proof.
  induction 1 as [|x a Hx _ IH]; simpl; [reflexivity|].
  destruct (Rle_dec x v); [now rewrite IH | contradiction].
Qed.

Lemma phi_planes_length (P : nat) : length (phi_planes P) = P.
Proof. unfold phi_planes. now rewrite length_map, length_seq. Qed.

Lemma searchsorted_right_planes_pos (P : nat) (phi : R) :
  (0 < P)%nat -> 0 <= phi ->
  (1 <= searchsorted_right (phi_planes P) phi)%nat.
Proof.
  intros HP Hphi. destruct P as [|n]; [lia|].
  unfold phi_planes. rewrite <- cons_seq, map_cons.
  cbn [searchsorted_right INR].
  destruct (Rle_dec _ phi) as [_|Hn]; [lia|].
  exfalso. apply Hn. rewrite Rmult_0_l. exact Hphi.
Qed.

Lemma phi_planes_below_last (P : nat) (phi : R) :
  (0 < P)%nat -> 2 * PI * INR (P - 1) / INR P <= phi ->
  Forall (fun x => x <= phi) (phi_planes P).
Proof.
  intros HP Hphi. unfold phi_planes. apply Forall_forall. intros x Hx.
  apply in_map_iff in Hx. destruct Hx as [k [<- Hk]].
  apply in_seq in Hk.
  assert (HPpos : 0 < INR P) by (apply lt_0_INR; lia).
  assert (Hk' : INR k <= INR (P - 1)) by (apply le_INR; lia).
  assert (Hd : 0 <= 2 * PI / INR P).
  { apply Rmult_le_pos; [pose proof PI_RGT_0; lra|].
    left. now apply Rinv_0_lt_compat. }
  apply Rle_trans with (INR (P - 1) * (2 * PI / INR P)).
  - now apply Rmult_le_compat_r.
  - replace (INR (P - 1) * (2 * PI / INR P)) with (2 * PI * INR (P - 1) / INR P);
      [assumption | field; lra].
Qed.

Lemma get_interp_planes_nth (P : nat) (co : bool) (phi3D : list R) (i : nat)
    (phi : R) :
  nth_error phi3D i = Some phi ->
  let ss := Z.of_nat (searchsorted_right (phi_planes P) phi) in
  let wrapped := (if Z.eqb ss (Z.of_nat P) then 0 else ss)%Z in
  nth_error (fst (get_interp_planes P co phi3D)) i
    = Some (if co then (ss - 1)%Z else wrapped) /\
  nth_error (snd (get_interp_planes P co phi3D)) i
    = Some (if co then wrapped else (ss - 1)%Z).
Proof.
  intros Hi ss wrapped. unfold get_interp_planes, wrap_to_zero.
  destruct co; simpl fst; simpl snd; split;
    repeat (apply map_nth_error with (f := fun p => _)); try exact Hi.
  all: rewrite map_map; try rewrite map_map.
  all: try (apply (map_nth_error (fun p => _) _ _ Hi)).
Qed.

(** C3.  For a toroidal angle in [0, 2*pi) and [P] planes,
    [get_interp_planes] gives a previous- and a next-plane index that both
    lie in [0 .. P-1].  In the last sector, [2*pi*(P-1)/P <= phi], the
    co-current direction brackets the point by planes [(P-1, 0)] and the
    counter-current direction by [(0, P-1)]. *)
Theorem get_interp_planes_in_range (P : nat) (co : bool) (phi3D : list R)
    (i : nat) (phi : R) :
  (0 < P)%nat ->
  nth_error phi3D i = Some phi ->
  0 <= phi < 2 * PI ->
  exists prev next : Z,
    nth_error (fst (get_interp_planes P co phi3D)) i = Some prev /\
    nth_error (snd (get_interp_planes P co phi3D)) i = Some next /\
    (0 <= prev < Z.of_nat P)%Z /\
    (0 <= next < Z.of_nat P)%Z /\
    (2 * PI * INR (P - 1) / INR P <= phi ->
     prev = (if co then Z.of_nat P - 1 else 0)%Z /\
     next = (if co then 0 else Z.of_nat P - 1)%Z).
Proof.
  intros HP Hi [Hlo Hhi].
  destruct (get_interp_planes_nth P co phi3D i phi Hi) as [Hprev Hnext].
  pose proof (searchsorted_right_le_length (phi_planes P) phi) as Hle.
  rewrite phi_planes_length in Hle.
  pose proof (searchsorted_right_planes_pos P phi HP Hlo) as Hge.
  eexists; eexists. split; [exact Hprev|]. split; [exact Hnext|].
  assert (Hlast : 2 * PI * INR (P - 1) / INR P <= phi ->
                  searchsorted_right (phi_planes P) phi = P).
  { intros H. rewrite searchsorted_right_all; [apply phi_planes_length|].
    now apply phi_planes_below_last. }
  destruct (Z.eqb_spec (Z.of_nat (searchsorted_right (phi_planes P) phi))
              (Z.of_nat P)) as [He|Hne].
  - destruct co; (split; [lia|]); (split; [lia|]);
      intros Hw; rewrite (Hlast Hw); lia.
  - destruct co; (split; [lia|]); (split; [lia|]);
      intros Hw; rewrite (Hlast Hw) in Hne; lia.
Qed.

Lemma two_pi_gt_4 : 4 < 2 * PI.
Proof. pose proof PI2_1. lra. Qed.

(** The example of the specification: sixteen planes, co-current field,
    a point just below [2*pi] is bracketed by planes 15 and 0. *)
Lemma get_interp_planes_in_range_witness :
  get_interp_planes 16 true [2 * PI - 1 / 100] = ([15%Z], [0%Z]).
Proof.
  destruct (get_interp_planes_in_range 16 true [2 * PI - 1 / 100] 0
              (2 * PI - 1 / 100)) as (prev & next & Hp & Hn & _ & _ & Hw).
  - lia.
  - reflexivity.
  - pose proof two_pi_gt_4. lra.
  - assert (Hlast : 2 * PI * INR (16 - 1) / INR 16 <= 2 * PI - 1 / 100).
    { change (16 - 1)%nat with 15%nat.
      rewrite (INR_IZR_INZ 15), (INR_IZR_INZ 16). simpl Z.of_nat.
      pose proof two_pi_gt_4. lra. }
    destruct (Hw Hlast) as [-> ->]. clear Hw Hlast.
    unfold get_interp_planes, wrap_to_zero in *.
    cbn [map fst snd nth_error] in *.
    apply (f_equal (fun o => match o with Some v => [v] | None => [] end)) in Hp, Hn.
    cbv beta iota in Hp, Hn.
    now rewrite Hp, Hn.
Defined.

(** * float64 and masked-array facts *)

Lemma isfinite_Fin_inv (x : fval) : isfinite x = true -> exists r, x = Fin r.
Proof. destruct x; [eauto | discriminate]. Qed.

Lemma isfinite_lift2 (f : R -> R -> R) (x y : fval) :
  isfinite x = true -> isfinite y = true -> isfinite (lift2 f x y) = true.
Proof. destruct x, y; simpl; congruence. Qed.

Lemma isfinite_fabs (x : fval) : isfinite x = true -> isfinite (fabs x) = true.
Proof. destruct x; simpl; congruence. Qed.

Lemma isfinite_fold_fadd (l : list fval) (acc : fval) :
  isfinite acc = true -> Forall (fun x => isfinite x = true) l ->
  isfinite (fold_left fadd l acc) = true.
Proof.
  revert acc. induction l as [|x l IH]; intros acc Hacc Hl; simpl; [assumption|].
  inversion Hl; subst. apply IH; [|assumption].
  now apply isfinite_lift2.
Qed.

Lemma isfinite_fsum (l : list fval) :
  Forall (fun x => isfinite x = true) l -> isfinite (fsum l) = true.
Proof. intros H. now apply isfinite_fold_fadd. Qed.

Lemma clean_nonfinite_finite (x : melt) :
  isfinite (data (clean_nonfinite x)) = true.
Proof.
  unfold clean_nonfinite. destruct (isfinite (data x)) eqn:E; [exact E | reflexivity].
Qed.

Lemma clean_nonfinite_outside (f : tri_interp) (z r : R) :
  f z r = None -> clean_nonfinite (interp_call f (Fin z) (Fin r)) = ma_of_nd (Fin 0).
Proof. intros H. unfold interp_call. now rewrite H. Qed.

Lemma ma_true_divide_finite (x y : melt) :
  isfinite (data x) = true -> isfinite (data (ma_true_divide x y)) = true.
Proof.
  intros Hx. unfold ma_true_divide. cbn [data].
  destruct (isfinite (fdiv (data x) (data y))) eqn:Eq; cbn [negb orb]; [|exact Hx].
  destruct (mask x || mask y); [exact Hx | exact Eq].
Qed.

Lemma ma_binop_finite (f : R -> R -> R) (x y : melt) :
  isfinite (data x) = true -> isfinite (data y) = true ->
  isfinite (data (ma_binop (lift2 f) x y)) = true.
Proof.
  intros Hx Hy. unfold ma_binop. cbn [data].
  destruct (mask x || mask y); [exact Hx | now apply isfinite_lift2].
Qed.

Lemma ma_power2_finite (x : melt) : isfinite (data (ma_power2 x)) = true.
Proof.
  unfold ma_power2. cbn [data].
  destruct (isfinite (if mask x then data x else fmul (data x) (data x))) eqn:E;
    cbn [negb]; [exact E | reflexivity].
Qed.

Lemma np_sqrt_finite (x : melt) :
  isfinite (data x) = true -> isfinite (data (np_sqrt x)) = true.
Proof.
  intros Hx. unfold np_sqrt. cbn [data].
  destruct (data x) as [u|]; [|discriminate].
  destruct (mask x); cbn [orb]; [reflexivity|].
  unfold fsqrt. destruct (Rltb u 0); reflexivity.
Qed.

(** A zero numerator survives the masked division whatever the divisor
    is: masked, zero or not. *)
Lemma ma_true_divide_zero_num (r : R) (y : melt) :
  data (ma_true_divide (ma_multiply (ma_of_nd (Fin r)) (ma_of_nd (Fin 0))) y)
  = Fin 0.
Proof.
  unfold ma_true_divide, ma_multiply, ma_binop, ma_of_nd.
  cbn [data mask orb lift2 fmul]. rewrite Rmult_0_r.
  unfold fdiv. destruct (data y) as [v|]; cbn; [|reflexivity].
  destruct (Reqb v 0); cbn; [reflexivity|].
  destruct (mask y); [reflexivity|]. f_equal. unfold Rdiv. ring.
Qed.

(** * The tracer keeps everything finite *)

Section TracerFinite.

Variable Nstage : nat.
Variable a : nat -> nat -> R.
Variable b : nat -> R.
Variables BR BZ BPhi : tri_interp.

Lemma isfinite_nth (K : list fval) (j : nat) :
  Forall (fun x => isfinite x = true) K -> isfinite (nth j K (Fin 0)) = true.
Proof.
  intros H. destruct (nth_in_or_default j K (Fin 0)) as [Hin | ->]; [|reflexivity].
  rewrite Forall_forall in H. now apply H.
Qed.

Lemma weighted_sum_finite (w : nat -> R) (K : list fval) (n : nat) :
  Forall (fun x => isfinite x = true) K ->
  isfinite (fsum (map (fun j => fmul (Fin (w j)) (nth j K (Fin 0))) (seq 0 n))) = true.
Proof.
  intros H. apply isfinite_fsum. apply Forall_forall. intros x Hx.
  apply in_map_iff in Hx. destruct Hx as [j [<- _]].
  apply isfinite_lift2; [reflexivity | now apply isfinite_nth].
Qed.

Lemma stage_pos_finite (X0 : fval) (step : R) (i : nat) (K : list fval) :
  isfinite X0 = true -> Forall (fun x => isfinite x = true) K ->
  isfinite (stage_pos a X0 step i K) = true.
Proof.
  intros HX HK. unfold stage_pos, stage_sum.
  apply isfinite_lift2; [assumption|].
  apply isfinite_lift2; [reflexivity | now apply weighted_sum_finite].
Qed.

Lemma stage_K_finite (Rtemp Ztemp : fval) :
  isfinite Rtemp = true -> kfinite (stage_K BR BZ BPhi Rtemp Ztemp).
Proof.
  intros HR. unfold kfinite, stage_K, K0, K1, K2. cbn [fst snd].
  repeat split.
  - apply ma_true_divide_finite. apply ma_binop_finite;
      [exact HR | apply clean_nonfinite_finite].
  - apply ma_true_divide_finite. apply ma_binop_finite;
      [exact HR | apply clean_nonfinite_finite].
  - apply ma_binop_finite; [|exact HR].
    apply np_sqrt_finite.
    apply ma_binop_finite; [|apply ma_power2_finite].
    apply ma_binop_finite; [reflexivity | apply ma_power2_finite].
Qed.

Lemma Forall_map_K (f : fval * fval * fval -> fval) (K : list (fval * fval * fval)) :
  (forall k, kfinite k -> isfinite (f k) = true) ->
  Forall kfinite K -> Forall (fun x => isfinite x = true) (map f K).
Proof.
  intros Hf HK. apply Forall_forall. intros x Hx.
  apply in_map_iff in Hx. destruct Hx as [k [<- Hk]].
  rewrite Forall_forall in HK. auto.
Qed.

Lemma K0_finite k : kfinite k -> isfinite (K0 k) = true.
Proof. now intros [H _]. Qed.
Lemma K1_finite k : kfinite k -> isfinite (K1 k) = true.
Proof. now intros [_ [H _]]. Qed.
Lemma K2_finite k : kfinite k -> isfinite (K2 k) = true.
Proof. now intros [_ [_ H]]. Qed.

Lemma rk_stage_finite (R0 Z0 : fval) (step : R) (K : list (fval * fval * fval))
    (i : nat) :
  isfinite R0 = true -> Forall kfinite K ->
  Forall kfinite (rk_stage a BR BZ BPhi R0 Z0 step K i).
Proof.
  intros HR HK. unfold rk_stage. apply Forall_app. split; [assumption|].
  constructor; [|constructor].
  apply stage_K_finite. apply stage_pos_finite; [assumption|].
  apply Forall_map_K; [apply K0_finite | assumption].
Qed.

Lemma rk_stages_finite (R0 Z0 : fval) (step : R) :
  isfinite R0 = true ->
  Forall kfinite (rk_stages Nstage a BR BZ BPhi R0 Z0 step).
Proof.
  intros HR. unfold rk_stages.
  assert (H : forall l K, Forall kfinite K ->
            Forall kfinite (fold_left (rk_stage a BR BZ BPhi R0 Z0 step) l K)).
  { induction l as [|i l IH]; intros K HK; simpl; [assumption|].
    apply IH. now apply rk_stage_finite. }
  apply H. constructor.
Qed.

Lemma increments_finite (sign dphi : R) (p : tpoint) :
  isfinite (Rp p) = true ->
  kfinite (increments Nstage a b BR BZ BPhi sign dphi p).
Proof.
  intros HR. unfold increments, kfinite, K0 at 1, K1 at 1, K2 at 1. cbn [fst snd].
  pose proof (rk_stages_finite (Rp p) (Zp p)
                (next_step sign dphi (rem p)) HR) as HK.
  repeat split; (apply isfinite_lift2; [reflexivity|]); unfold final_sum;
    apply weighted_sum_finite; apply Forall_map_K;
    auto using K0_finite, K1_finite, K2_finite.
Qed.

Lemma trace_step_finite (sign dphi : R) (p : tpoint) :
  tfinite p -> tfinite (trace_step Nstage a b BR BZ BPhi sign dphi p).
Proof.
  intros (HR & HZ & Hs).
  destruct (increments_finite sign dphi p HR) as (H0 & H1 & H2).
  unfold trace_step, tfinite. cbn [Rp Zp sp].
  repeat split; now apply isfinite_lift2.
Qed.

Lemma trace_iter_finite (sign dphi : R) (ind : list bool) (pts : list tpoint) :
  Forall tfinite pts ->
  Forall tfinite (trace_iter Nstage a b BR BZ BPhi sign dphi ind pts).
Proof.
  revert ind. induction pts as [|p pts IH]; intros ind H.
  - destruct ind; constructor.
  - destruct ind as [|i ind]; [assumption|]. inversion H; subst. simpl.
    constructor; [|now apply IH].
    destruct i; [now apply trace_step_finite | assumption].
Qed.

(** C6.  In one pass of the tracing loop over a batch of finite points:
    at a stage position outside the mesh, where the interpolants of B_R
    and B_Z are undefined, zero replaces them and the stage derivatives
    of R and Z vanish; whatever the interpolants return, the increments
    dR, dZ and ds of every point are finite, and the batch after the pass
    is finite again.  The pass is a total function: nothing is raised. *)
Theorem trace_iter_increments_finite (sign dphi : R) (ind : list bool)
    (pts : list tpoint) :
  Forall tfinite pts ->
  (forall z r : R, BR z r = None ->
     clean_nonfinite (interp_call BR (Fin z) (Fin r)) = ma_of_nd (Fin 0)) /\
  (forall z r : R, BZ z r = None ->
     clean_nonfinite (interp_call BZ (Fin z) (Fin r)) = ma_of_nd (Fin 0)) /\
  (forall z r : R, BR z r = None -> BZ z r = None ->
     exists k2 : R, stage_K BR BZ BPhi (Fin r) (Fin z) = (Fin 0, Fin 0, Fin k2)) /\
  Forall (fun p => kfinite (increments Nstage a b BR BZ BPhi sign dphi p)) pts /\
  Forall tfinite (trace_iter Nstage a b BR BZ BPhi sign dphi ind pts).
Proof.
  intros Hpts.
  split; [intros z r; apply clean_nonfinite_outside|].
  split; [intros z r; apply clean_nonfinite_outside|].
  split.
  - intros z r HBR HBZ.
    destruct (stage_K_finite (Fin r) (Fin z) eq_refl) as (_ & _ & H2).
    apply isfinite_Fin_inv in H2. destruct H2 as [k2 Hk2].
    exists k2. unfold stage_K in *.
    rewrite (clean_nonfinite_outside BR z r HBR) in *.
    rewrite (clean_nonfinite_outside BZ z r HBZ) in *.
    unfold K2 in Hk2. cbn [snd] in Hk2. rewrite Hk2.
    now rewrite !ma_true_divide_zero_num.
  - split; [|now apply trace_iter_finite].
    eapply Forall_impl; [|exact Hpts].
    intros p (HR & _). now apply increments_finite.
Qed.

End TracerFinite.

(** * The batch loop, index by index *)

Section TracerLoop.

Variable Nstage : nat.
Variable a : nat -> nat -> R.
Variable b : nat -> R.
Variables BR BZ BPhi : tri_interp.
Variables sign dphi : R.

Local Abbreviation trace_step := (trace_step Nstage a b BR BZ BPhi sign dphi).
Local Abbreviation trace_iter := (trace_iter Nstage a b BR BZ BPhi sign dphi).
Local Abbreviation trace_loop n := (trace_loop Nstage a b BR BZ BPhi n sign dphi).
Local Abbreviation trace_all n := (trace_all Nstage a b BR BZ BPhi n sign dphi).
Local Abbreviation pt_loop n := (pt_loop Nstage a b BR BZ BPhi n sign dphi).

Local Abbreviation advance := (advance Nstage a b BR BZ BPhi sign dphi).

Lemma trace_iter_pairs (bps : list (bool * tpoint)) :
  trace_iter (map fst bps) (map snd bps) = map snd (map advance bps).
Proof.
  induction bps as [|[i p] bps IH]; simpl; [reflexivity|]. now rewrite IH.
Qed.

Lemma still_tracing_pairs (bps : list (bool * tpoint)) :
  map still_tracing (map snd (map advance bps)) = map fst (map advance bps).
Proof.
  induction bps as [|[i p] bps IH]; simpl; [reflexivity|]. now rewrite IH.
Qed.

Lemma still_tracing_false (p : tpoint) : still_tracing p = false <-> rem p = 0.
Proof.
  unfold still_tracing, Reqb. destruct (Req_dec_T (rem p) 0); simpl; split;
    intros; congruence.
Qed.

Lemma trace_loop_pointwise (n : nat) :
  forall (bps : list (bool * tpoint)) (outs : list tpoint),
    Forall2 (fun bp q => settled bp /\ pt_loop n (fst bp) (snd bp) = Ret q)
            bps outs ->
    trace_loop n (map fst bps) (map snd bps) = Ret outs.
Proof.
  induction n as [|n IH]; intros bps outs H.
  - assert (Hdone : existsb (fun i => i) (map fst bps) = false
                    /\ outs = map snd bps).
    { induction H as [|[i p] q bps outs [_ Hq] _ [IH1 IH2]]; [now split|].
      cbn [fst snd] in Hq. destruct i; [discriminate|].
      simpl in Hq. injection Hq as <-. simpl. now rewrite IH1, IH2. }
    destruct Hdone as [He ->]. simpl. now rewrite He.
  - cbn [loader.trace_loop].
    destruct (existsb (fun i => i) (map fst bps)) eqn:He.
    + rewrite trace_iter_pairs, still_tracing_pairs. apply IH.
      clear He. induction H as [|[i p] q bps outs [Hs Hq] _ IH']; [constructor|].
      simpl map. constructor; [|exact IH'].
      unfold loader.advance. cbn [fst snd] in *. split.
      * intros Hst. cbn [snd]. now apply still_tracing_false.
      * destruct i; [exact Hq|].
        simpl in Hq. injection Hq as <-.
        unfold settled in Hs. cbn [fst snd] in Hs. specialize (Hs eq_refl).
        apply still_tracing_false in Hs. rewrite Hs. now destruct n.
    + f_equal. clear IH.
      induction H as [|[i p] q bps outs [_ Hq] _ IH']; [reflexivity|].
      simpl in He. apply orb_false_iff in He. destruct He as [Hi He].
      cbn [fst snd] in *. subst i. simpl in Hq. injection Hq as <-.
      simpl. now rewrite <- (IH' He).
Qed.

(** Tracing a whole batch is tracing each of its points. *)
Lemma trace_all_pointwise (n : nat) (pts outs : list tpoint) :
  Forall2 (fun p q => pt_loop n true p = Ret q) pts outs ->
  trace_all n pts = Ret outs.
Proof.
  intros H. unfold loader.trace_all.
  replace (map (fun _ => true) pts) with (map fst (map (fun p => (true, p)) pts))
    by (rewrite map_map; reflexivity).
  replace pts with (map snd (map (fun p => (true, p)) pts)) at 2
    by (rewrite map_map; apply map_id).
  apply trace_loop_pointwise.
  induction H; simpl; constructor; auto.
  split; [intros Hf; discriminate | assumption].
Qed.

Lemma pt_loop_more_fuel (n m : nat) (i : bool) (p q : tpoint) :
  (n <= m)%nat -> pt_loop n i p = Ret q -> pt_loop m i p = Ret q.
Proof.
  revert m i p. induction n as [|n IH]; intros m i p Hle H.
  - destruct i; [discriminate|]. simpl in H. now destruct m.
  - destruct i.
    + destruct m as [|m]; [lia|]. simpl in *. apply IH; [lia | exact H].
    + simpl in H. now destruct m.
Qed.

Lemma pt_loop_invariant (I : tpoint -> Prop) :
  (forall p, I p -> I (trace_step p)) ->
  forall (n : nat) (i : bool) (p q : tpoint),
    I p -> pt_loop n i p = Ret q -> I q.
Proof.
  intros Hstep. induction n as [|n IH]; intros i p q Hp H.
  - destruct i; [discriminate|]. simpl in H. now injection H as <-.
  - destruct i; simpl in H.
    + eapply IH; [|exact H]. now apply Hstep.
    + now injection H as <-.
Qed.

Hypothesis sign_unit : sign = 1 \/ sign = -1.

Lemma rem_trace_step (p : tpoint) :
  rem (trace_step p) = rem p - next_step sign dphi (rem p).
Proof. reflexivity. Qed.

(** A point whose remaining angle has the sign of the tracing direction
    and is at most [n] steps long is done after [n] passes. *)
Lemma pt_loop_terminates (n : nat) :
  forall p : tpoint,
    (1 <= n)%nat -> 0 <= sign * rem p -> Rabs (rem p) <= INR n * dphi ->
    exists q, pt_loop n true p = Ret q /\ rem q = 0.
Proof.
  induction n as [|n IH]; intros p Hn Hsgn Hlen; [lia|].
  cbn [loader.pt_loop].
  assert (Habs : Rabs (rem p) = sign * rem p).
  { destruct sign_unit as [-> | ->].
    - rewrite Rabs_right; lra.
    - rewrite Rabs_left1; lra. }
  destruct (Rlt_dec dphi (Rabs (rem p))) as [Hbig | Hsmall].
  - assert (Hrem : rem (trace_step p) = rem p - sign * dphi).
    { rewrite rem_trace_step. unfold next_step, Rltb.
      now destruct (Rlt_dec dphi (Rabs (rem p))). }
    assert (Hn1 : (1 <= n)%nat).
    { destruct n; [|lia]. simpl in Hlen. lra. }
    assert (Hsgn' : sign * rem (trace_step p) = Rabs (rem p) - dphi).
    { rewrite Hrem, Habs. destruct sign_unit as [-> | ->]; lra. }
    assert (Hst : still_tracing (trace_step p) = true).
    { destruct (still_tracing (trace_step p)) eqn:E; [reflexivity|].
      apply still_tracing_false in E. rewrite E in Hsgn'. lra. }
    rewrite Hst. apply IH; [assumption | lra |].
    assert (Habs' : Rabs (rem (trace_step p)) = sign * rem (trace_step p)).
    { destruct sign_unit as [Hs | Hs]; rewrite Hs in *.
      - rewrite Rabs_right; lra.
      - rewrite Rabs_left1; lra. }
    rewrite Habs', Hsgn'. rewrite S_INR in Hlen. lra.
  - assert (Hrem : rem (trace_step p) = 0).
    { rewrite rem_trace_step. unfold next_step, Rltb.
      destruct (Rlt_dec dphi (Rabs (rem p))); [contradiction | lra]. }
    apply still_tracing_false in Hrem. rewrite Hrem.
    exists (trace_step p). split; [now destruct n|].
    now apply still_tracing_false.
Qed.

End TracerLoop.

(** * Angles to the bracketing planes *)

Lemma searchsorted_right_spec (l : list R) (v : R) :
  (forall j, (j < searchsorted_right l v)%nat -> nth j l 0 <= v) /\
  ((searchsorted_right l v < length l)%nat ->
   v < nth (searchsorted_right l v) l 0).
Proof.
  induction l as [|x l [IH1 IH2]]; simpl.
  - split; intros; lia.
  - destruct (Rle_dec x v) as [Hx | Hx].
    + split.
      * intros [|j] Hj; [assumption | apply IH1; lia].
      * intros Hlt. apply IH2. lia.
    + split; [intros j Hj; lia | intros _; lra].
Qed.

Lemma nth_map_seq (f : nat -> R) (n : nat) :
  forall s k d, (k < n)%nat -> nth k (map f (seq s n)) d = f (s + k)%nat.
Proof.
  induction n as [|n IH]; intros s k d Hk; [lia|].
  destruct k as [|k]; simpl.
  - now rewrite Nat.add_0_r.
  - rewrite IH by lia. f_equal. lia.
Qed.

Lemma nth_phi_planes (P k : nat) :
  (k < P)%nat -> nth k (phi_planes P) 0 = INR k * (2 * PI / INR P).
Proof.
  intros Hk. unfold phi_planes. now rewrite nth_map_seq.
Qed.

Lemma np_take_phi_planes (P k : nat) :
  (k < P)%nat ->
  np_take (phi_planes P) (Z.of_nat k) = Ret (INR k * (2 * PI / INR P)).
Proof.
  intros Hk. unfold np_take. rewrite phi_planes_length.
  replace ((0 <=? Z.of_nat k) && (Z.of_nat k <? Z.of_nat P))%Z with true
    by (symmetry; apply andb_true_iff; split; [apply Z.leb_le | apply Z.ltb_lt]; lia).
  rewrite Nat2Z.id. now rewrite nth_phi_planes.
Qed.

Lemma plane_spacing_pos (P : nat) : (0 < P)%nat -> 0 < 2 * PI / INR P.
Proof.
  intros HP. apply Rdiv_lt_0_compat; [pose proof PI_RGT_0; lra|].
  apply lt_0_INR. lia.
Qed.

Lemma plane_spacing_full (P : nat) : (0 < P)%nat -> INR P * (2 * PI / INR P) = 2 * PI.
Proof.
  intros HP. field. apply not_0_INR. lia.
Qed.

(** The index [searchsorted] finds for an angle of the torus. *)
Lemma searchsorted_right_bracket (P : nat) (phi : R) :
  (0 < P)%nat -> 0 <= phi < 2 * PI ->
  exists k : nat,
    searchsorted_right (phi_planes P) phi = S k /\ (k < P)%nat /\
    INR k * (2 * PI / INR P) <= phi < INR (S k) * (2 * PI / INR P).
Proof.
  intros HP [Hlo Hhi].
  pose proof (searchsorted_right_planes_pos P phi HP Hlo) as Hge.
  pose proof (searchsorted_right_le_length (phi_planes P) phi) as Hle.
  rewrite phi_planes_length in Hle.
  destruct (searchsorted_right_spec (phi_planes P) phi) as [Hbelow Habove].
  rewrite phi_planes_length in Habove.
  destruct (searchsorted_right (phi_planes P) phi) as [|k]; [lia|].
  exists k. split; [reflexivity|]. split; [lia|]. split.
  - rewrite <- (nth_phi_planes P k) by lia. apply Hbelow. lia.
  - destruct (Nat.eq_dec (S k) P) as [He | Hne].
    + rewrite He, plane_spacing_full by lia. exact Hhi.
    + rewrite <- (nth_phi_planes P (S k)) by lia. apply Habove. lia.
Qed.

(** On a stored plane the bracket starts at that plane. *)
Lemma searchsorted_right_on_plane (P k : nat) :
  (k < P)%nat ->
  searchsorted_right (phi_planes P) (INR k * (2 * PI / INR P)) = S k.
Proof.
  intros Hk.
  assert (HP : (0 < P)%nat) by lia.
  pose proof (plane_spacing_pos P HP) as Hd.
  assert (Hrange : 0 <= INR k * (2 * PI / INR P) < 2 * PI).
  { split.
    - apply Rmult_le_pos; [apply pos_INR | lra].
    - rewrite <- (plane_spacing_full P HP) at 2.
      apply Rmult_lt_compat_r; [assumption | now apply lt_INR]. }
  destruct (searchsorted_right_bracket P _ HP Hrange) as (j & -> & Hj & Hlo & Hhi).
  f_equal.
  assert (H1 : INR j <= INR k) by (apply Rmult_le_reg_r with (2 * PI / INR P); lra).
  assert (H2 : INR k < INR (S j)) by (apply Rmult_lt_reg_r with (2 * PI / INR P); lra).
  apply INR_le in H1. apply INR_lt in H2. lia.
Qed.

Lemma get_interp_planes_bracket (P : nat) (co : bool) (phi3D : list R) (i : nat)
    (phi : R) (k : nat) :
  nth_error phi3D i = Some phi ->
  searchsorted_right (phi_planes P) phi = S k ->
  nth_error (fst (get_interp_planes P co phi3D)) i = Some (bracket_prev P co k) /\
  nth_error (snd (get_interp_planes P co phi3D)) i = Some (bracket_next P co k).
Proof.
  intros Hi Hss.
  destruct (get_interp_planes_nth P co phi3D i phi Hi) as [Hp Hn].
  rewrite Hss in Hp, Hn. rewrite Hp, Hn. unfold bracket_prev, bracket_next.
  assert (Hw : (if (Z.of_nat (S k) =? Z.of_nat P)%Z then 0%Z else Z.of_nat (S k))
               = (if Nat.eqb (S k) P then 0%Z else Z.of_nat (S k))).
  { destruct (Nat.eqb_spec (S k) P) as [He | Hne].
    - rewrite He, Z.eqb_refl. reflexivity.
    - destruct (Z.eqb_spec (Z.of_nat (S k)) (Z.of_nat P)); [lia | reflexivity]. }
  rewrite Hw. destruct co; split; try reflexivity; f_equal; lia.
Qed.

(** The angles the two traces start with: each has the sign of its tracing
    direction and is at most one plane spacing long. *)
Lemma initial_angles (P : nat) (co : bool) (q : qpoint) (k : nat) :
  (k < P)%nat ->
  INR k * (2 * PI / INR P) <= qPhi q < INR (S k) * (2 * PI / INR P) ->
  qprev q = bracket_prev P co k ->
  qnext q = bracket_next P co k ->
  exists phif phib : R,
    phiFWD_init P co q = Ret phif /\ phiBWD_init P co q = Ret phib /\
    0 <= FWD_sign co * phif /\ Rabs phif <= 2 * PI / INR P /\
    0 <= BWD_sign co * phib /\ Rabs phib <= 2 * PI / INR P /\
    (if co then phif <> 0 else phib <> 0) /\
    (qPhi q = INR k * (2 * PI / INR P) ->
     if co then phib = 0 else phif = 0).
Proof.
  intros Hk [Hlo Hhi] Hprev Hnext.
  assert (HP : (0 < P)%nat) by lia.
  pose proof (plane_spacing_pos P HP) as Hd.
  pose proof (plane_spacing_full P HP) as Hfull.
  rewrite S_INR in Hhi.
  set (d := 2 * PI / INR P) in *.
  (* the far plane of the bracket, plane 0 standing for [2*pi] *)
  assert (Hfar : forall far : Z,
            far = (if Nat.eqb (S k) P then 0%Z else Z.of_nat (S k)) ->
            exists x, np_take (phi_planes P) far = Ret x /\
              (if Z.eqb far 0 then PI * 2 - qPhi q else x - qPhi q)
              = (INR k + 1) * d - qPhi q).
  { intros far ->. destruct (Nat.eqb_spec (S k) P) as [He | Hne].
    - exists (INR 0 * d). split; [apply (np_take_phi_planes P 0 HP)|].
      cbn [Z.eqb]. rewrite <- He, S_INR in Hfull. lra.
    - exists (INR (S k) * d). split; [apply np_take_phi_planes; lia|].
      replace (Z.of_nat (S k) =? 0)%Z with false by (symmetry; apply Z.eqb_neq; lia).
      rewrite S_INR. reflexivity. }
  assert (Hnear : np_take (phi_planes P) (Z.of_nat k) = Ret (INR k * d))
    by (now apply np_take_phi_planes).
  unfold phiFWD_init, phiBWD_init, FWD_sign, BWD_sign.
  rewrite Hprev, Hnext. unfold bracket_prev, bracket_next.
  destruct co.
  - destruct (Hfar _ eq_refl) as (x & Hx & Hval).
    rewrite Hx, Hnear. cbn [bind]. rewrite Hval.
    eexists; eexists. split; [reflexivity|]. split; [reflexivity|].
    split; [lra|]. split; [rewrite Rabs_right; lra|].
    split; [lra|]. split; [rewrite Rabs_left1; lra|].
    split; [lra|]. intros ->. lra.
  - destruct (Hfar _ eq_refl) as (x & Hx & Hval).
    rewrite Hx, Hnear. cbn [bind]. rewrite Hval.
    eexists; eexists. split; [reflexivity|]. split; [reflexivity|].
    split; [lra|]. split; [rewrite Rabs_left1; lra|].
    split; [lra|]. split; [rewrite Rabs_right; lra|].
    split; [lra|]. intros ->. lra.
Qed.

(** * Lists and the error monad *)

Lemma Forall_ex_Forall2 {A B : Type} (Rel : A -> B -> Prop) (l : list A) :
  Forall (fun x => exists y, Rel x y) l -> exists l', Forall2 Rel l l'.
Proof.
  induction 1 as [|x l [y Hy] _ [l' IH]].
  - exists []. constructor.
  - exists (y :: l'). now constructor.
Qed.

Lemma Forall2_nth_error_l {A B : Type} (Rel : A -> B -> Prop) (l : list A)
    (l' : list B) :
  Forall2 Rel l l' ->
  forall i x, nth_error l i = Some x ->
    exists y, nth_error l' i = Some y /\ Rel x y.
Proof.
  induction 1 as [|x0 y0 l l' H0 _ IH]; intros i x Hi.
  - destruct i; discriminate.
  - destruct i as [|i]; simpl in *.
    + injection Hi as <-. eauto.
    + eauto.
Qed.

Lemma mapM_Forall2 {A B C : Type} (f : A -> res B) (g : C -> B) (l : list A)
    (ys : list C) :
  Forall2 (fun x y => f x = Ret (g y)) l ys -> mapM f l = Ret (map g ys).
Proof.
  induction 1 as [|x y l ys Hxy _ IH]; simpl; [reflexivity|].
  now rewrite Hxy, IH.
Qed.

Lemma Forall2_map_r {A B C : Type} (Rel : A -> B -> Prop) (h : C -> B)
    (l : list A) (ys : list C) :
  Forall2 (fun x y => Rel x (h y)) l ys -> Forall2 Rel l (map h ys).
Proof. induction 1; simpl; now constructor. Qed.

Lemma Forall2_start_points {C : Type} (Rel : tpoint -> C -> Prop) (g : C -> R)
    (qs : list qpoint) (ys : list C) :
  Forall2 (fun q y => Rel (start_tpoint q (g y)) y) qs ys ->
  Forall2 Rel (map (fun qp => start_tpoint (fst qp) (snd qp))
                   (combine qs (map g ys))) ys.
Proof. induction 1; simpl; now constructor. Qed.

(** * Query points *)

Lemma zip_qpoints_nth_error (rs zs phis : list R) (prevs nexts : list Z) :
  forall i q,
    nth_error (zip_qpoints rs zs phis prevs nexts) i = Some q ->
    nth_error rs i = Some (qR q) /\ nth_error zs i = Some (qZ q) /\
    nth_error phis i = Some (qPhi q) /\
    nth_error prevs i = Some (qprev q) /\ nth_error nexts i = Some (qnext q).
Proof.
  revert zs phis prevs nexts.
  induction rs as [|r rs IH]; intros zs phis prevs nexts i q H.
  - destruct i; discriminate.
  - destruct zs as [|z zs]; [destruct i; discriminate|].
    destruct phis as [|p phis]; [destruct i; discriminate|].
    destruct prevs as [|pp prevs]; [destruct i; discriminate|].
    destruct nexts as [|np nexts]; [destruct i; discriminate|].
    destruct i as [|i]; simpl in H.
    + injection H as <-. simpl. repeat split; reflexivity.
    + simpl. eauto.
Qed.

Lemma zip_qpoints_length (rs zs phis : list R) (prevs nexts : list Z) :
  length zs = length rs -> length phis = length rs ->
  length prevs = length rs -> length nexts = length rs ->
  length (zip_qpoints rs zs phis prevs nexts) = length rs.
Proof.
  revert zs phis prevs nexts.
  induction rs as [|r rs IH]; intros zs phis prevs nexts H1 H2 H3 H4;
    [reflexivity|].
  destruct zs, phis, prevs, nexts; try discriminate. simpl in *.
  f_equal. apply IH; congruence.
Qed.

Lemma get_interp_planes_length (P : nat) (co : bool) (phi3D : list R) :
  length (fst (get_interp_planes P co phi3D)) = length phi3D /\
  length (snd (get_interp_planes P co phi3D)) = length phi3D.
Proof.
  unfold get_interp_planes, wrap_to_zero.
  destruct co; simpl; now rewrite ?length_map.
Qed.

(** * Both traces of a batch, point by point *)

Section Traces.

Variable Nstage : nat.
Variable a : nat -> nat -> R.
Variable b : nat -> R.
Variables BR BZ BPhi : tri_interp.

Local Abbreviation pt_loop := (pt_loop Nstage a b BR BZ BPhi).
Local Abbreviation trace_all := (trace_all Nstage a b BR BZ BPhi).
Local Abbreviation field_line_traces := (field_line_traces Nstage a b BR BZ BPhi).

Local Abbreviation traced_as := (traced_as Nstage a b BR BZ BPhi).

Lemma sign_unit_FWD (co : bool) : FWD_sign co = 1 \/ FWD_sign co = -1.
Proof. destruct co; simpl; auto. Qed.

Lemma sign_unit_BWD (co : bool) : BWD_sign co = 1 \/ BWD_sign co = -1.
Proof. destruct co; simpl; auto. Qed.

Lemma step_angle_pos (P Nstep : nat) :
  (0 < P)%nat -> (0 < Nstep)%nat -> 0 < 2 * PI / INR P / INR Nstep.
Proof.
  intros HP HN. apply Rdiv_lt_0_compat; [now apply plane_spacing_pos|].
  apply lt_0_INR. lia.
Qed.

Lemma traced_point (fuel P : nat) (co : bool) (Nstep : nat) (q : qpoint)
    (k : nat) :
  (0 < Nstep)%nat -> (Nstep <= fuel)%nat -> (k < P)%nat ->
  INR k * (2 * PI / INR P) <= qPhi q < INR (S k) * (2 * PI / INR P) ->
  qprev q = bracket_prev P co k ->
  qnext q = bracket_next P co k ->
  exists y, traced_as fuel P co Nstep q y.
Proof.
  intros HN Hfuel Hk Hphi Hprev Hnext.
  assert (HP : (0 < P)%nat) by lia.
  destruct (initial_angles P co q k Hk Hphi Hprev Hnext)
    as (phif & phib & HF & HB & HsF & HlF & HsB & HlB & Hfar & Hon).
  pose proof (step_angle_pos P Nstep HP HN) as Hd.
  assert (Hlen : INR Nstep * (2 * PI / INR P / INR Nstep) = 2 * PI / INR P).
  { field. split; apply not_0_INR; lia. }
  destruct (pt_loop_terminates Nstage a b BR BZ BPhi (FWD_sign co)
              (2 * PI / INR P / INR Nstep)
              (sign_unit_FWD co) Nstep (start_tpoint q phif))
    as (qf & Hqf & _); [lia | exact HsF | simpl; lra |].
  destruct (pt_loop_terminates Nstage a b BR BZ BPhi (BWD_sign co)
              (2 * PI / INR P / INR Nstep)
              (sign_unit_BWD co) Nstep (start_tpoint q phib))
    as (qb & Hqb & _); [lia | exact HsB | simpl; lra |].
  exists (mk_trace_pair phif phib qf qb). unfold loader.traced_as. cbn.
  split; [exact HF|]. split; [exact HB|].
  split; [eapply pt_loop_more_fuel; eassumption|].
  split; [eapply pt_loop_more_fuel; eassumption|].
  exists k. repeat split; try assumption; apply Hphi.
Qed.

Lemma traces_pointwise (fuel P : nat) (co : bool) (Nstep : nat)
    (r3D z3D phi3D : list R) (prevplane nextplane : list Z)
    (ys : list trace_pair) :
  Forall2 (traced_as fuel P co Nstep)
          (zip_qpoints r3D z3D phi3D prevplane nextplane) ys ->
  field_line_traces fuel P co r3D z3D phi3D prevplane nextplane Nstep
  = Ret (map bwd_end ys, map fwd_end ys).
Proof.
  intros H. unfold loader.field_line_traces.
  set (qs := zip_qpoints r3D z3D phi3D prevplane nextplane) in *.
  rewrite (mapM_Forall2 (phiFWD_init P co) phif0 qs ys)
    by (eapply Forall2_impl; [|exact H]; intros q y Hy; apply Hy).
  rewrite (mapM_Forall2 (phiBWD_init P co) phib0 qs ys)
    by (eapply Forall2_impl; [|exact H]; intros q y Hy; apply Hy).
  cbn [bind].
  rewrite (trace_all_pointwise Nstage a b BR BZ BPhi _ _ fuel _ (map fwd_end ys)).
  2:{ apply Forall2_map_r. apply Forall2_start_points.
      eapply Forall2_impl; [|exact H]. intros q y Hy. apply Hy. }
  cbn [bind].
  rewrite (trace_all_pointwise Nstage a b BR BZ BPhi _ _ fuel _ (map bwd_end ys)).
  2:{ apply Forall2_map_r. apply Forall2_start_points.
      eapply Forall2_impl; [|exact H]. intros q y Hy. apply Hy. }
  reflexivity.
Qed.

(** With planes taken from [get_interp_planes], angles in [0, 2*pi) and
    fuel for [Nstep] passes, both traces return, and every query point is
    traced on its own. *)
Lemma field_line_traces_run (fuel P : nat) (co : bool) (Nstep : nat)
    (r3D z3D phi3D : list R) :
  (0 < P)%nat -> (0 < Nstep)%nat -> (Nstep <= fuel)%nat ->
  length z3D = length r3D -> length phi3D = length r3D ->
  Forall (fun phi => 0 <= phi < 2 * PI) phi3D ->
  exists ys : list trace_pair,
    field_line_traces fuel P co r3D z3D phi3D
      (fst (get_interp_planes P co phi3D)) (snd (get_interp_planes P co phi3D))
      Nstep
    = Ret (map bwd_end ys, map fwd_end ys) /\
    length ys = length r3D /\
    forall i r z phi,
      nth_error r3D i = Some r -> nth_error z3D i = Some z ->
      nth_error phi3D i = Some phi ->
      exists prev next y,
        nth_error (fst (get_interp_planes P co phi3D)) i = Some prev /\
        nth_error (snd (get_interp_planes P co phi3D)) i = Some next /\
        nth_error ys i = Some y /\
        traced_as fuel P co Nstep (mk_qpoint r z phi prev next) y.
Proof.
  intros HP HN Hfuel Hlz Hlphi Hrange.
  set (prevs := fst (get_interp_planes P co phi3D)).
  set (nexts := snd (get_interp_planes P co phi3D)).
  set (qs := zip_qpoints r3D z3D phi3D prevs nexts).
  destruct (get_interp_planes_length P co phi3D) as [Hlp Hln].
  fold prevs in Hlp. fold nexts in Hln.
  assert (Hall : Forall (fun q => exists y, traced_as fuel P co Nstep q y) qs).
  { apply Forall_forall. intros q Hq.
    apply In_nth_error in Hq. destruct Hq as [i Hi].
    destruct (zip_qpoints_nth_error _ _ _ _ _ i q Hi)
      as (_ & _ & Hphi & Hprev & Hnext).
    assert (Hr : 0 <= qPhi q < 2 * PI).
    { rewrite Forall_forall in Hrange. apply Hrange.
      eapply nth_error_In; eassumption. }
    destruct (searchsorted_right_bracket P (qPhi q) HP Hr) as (k & Hss & Hk & Hb).
    destruct (get_interp_planes_bracket P co phi3D i (qPhi q) k Hphi Hss)
      as [Hp' Hn'].
    fold prevs in Hp'. fold nexts in Hn'.
    apply (traced_point fuel P co Nstep q k); try assumption; congruence. }
  apply Forall_ex_Forall2 in Hall. destruct Hall as [ys Hys].
  exists ys. split; [now apply traces_pointwise|].
  assert (Hlq : length qs = length r3D)
    by (apply zip_qpoints_length; congruence).
  split; [rewrite <- Hlq; symmetry; eapply Forall2_length; eassumption|].
  intros i r z phi Hir Hiz Hiphi.
  assert (Hi : (i < length qs)%nat).
  { rewrite Hlq. apply nth_error_Some. congruence. }
  destruct (nth_error qs i) as [q|] eqn:Hq;
    [|apply nth_error_None in Hq; lia].
  destruct (zip_qpoints_nth_error _ _ _ _ _ i q Hq)
    as (Hr' & Hz' & Hphi' & Hprev & Hnext).
  destruct (Forall2_nth_error_l _ _ _ Hys i q Hq) as (y & Hy & Hrel).
  exists (qprev q), (qnext q), y.
  split; [exact Hprev|]. split; [exact Hnext|]. split; [exact Hy|].
  replace (mk_qpoint r z phi (qprev q) (qnext q)) with q; [exact Hrel|].
  destruct q as [qr qz qphi qp qn]. simpl in *. congruence.
Qed.

End Traces.

(** * Landing positions and blend fractions *)

Section Positions.

Variable Nstage : nat.
Variable a : nat -> nat -> R.
Variable b : nat -> R.
Variables BR BZ BPhi : tri_interp.

Local Abbreviation pt_loop := (pt_loop Nstage a b BR BZ BPhi).
Local Abbreviation trace_step := (trace_step Nstage a b BR BZ BPhi).
Local Abbreviation field_line_traces := (field_line_traces Nstage a b BR BZ BPhi).
Local Abbreviation find_interp_positions_v2_upgrade :=
  (find_interp_positions_v2_upgrade Nstage a b BR BZ BPhi).

Lemma start_tpoint_finite (q : qpoint) (phi0 : R) : tfinite (start_tpoint q phi0).
Proof. repeat split. Qed.

Lemma pt_loop_finite (fuel : nat) (sign dphi : R) (i : bool) (p q : tpoint) :
  tfinite p -> pt_loop fuel sign dphi i p = Ret q -> tfinite q.
Proof.
  apply (pt_loop_invariant Nstage a b BR BZ BPhi sign dphi tfinite).
  apply trace_step_finite.
Qed.

Lemma nth_error_combine_map {A B C : Type} (f : C -> A) (g : C -> B)
    (ys : list C) (i : nat) (y : C) :
  nth_error ys i = Some y ->
  nth_error (combine (map f ys) (map g ys)) i = Some (f y, g y).
Proof.
  revert i. induction ys as [|y0 ys IH]; intros i H.
  - destruct i; discriminate.
  - destruct i as [|i]; simpl in *; [now injection H as <- | auto].
Qed.

Lemma length_combine_map {A B C : Type} (f : C -> A) (g : C -> B)
    (ys : list C) :
  length (combine (map f ys) (map g ys)) = length ys.
Proof. rewrite length_combine, !length_map. lia. Qed.




(** ** Vanishing poloidal field *)

Lemma fsum_zeros (l : list fval) :
  Forall (fun x => x = Fin 0) l -> fsum l = Fin 0.
Proof.
  unfold fsum. induction 1 as [|x l -> _ IH]; simpl; [reflexivity|].
  now rewrite Rplus_0_l.
Qed.

Lemma weighted_sum_zeros (w : nat -> R) (K : list fval) (n : nat) :
  Forall (fun x => x = Fin 0) K ->
  fsum (map (fun j => fmul (Fin (w j)) (nth j K (Fin 0))) (seq 0 n)) = Fin 0.
Proof.
  intros HK. apply fsum_zeros. apply Forall_forall. intros x Hx.
  apply in_map_iff in Hx. destruct Hx as [j [<- _]].
  assert (Hj : nth j K (Fin 0) = Fin 0).
  { destruct (nth_in_or_default j K (Fin 0)) as [Hin | ->]; [|reflexivity].
    rewrite Forall_forall in HK. now apply HK. }
  rewrite Hj. simpl. now rewrite Rmult_0_r.
Qed.

Lemma stage_pos_zeros (x step : R) (i : nat) (K : list fval) :
  Forall (fun v => v = Fin 0) K -> stage_pos a (Fin x) step i K = Fin x.
Proof.
  intros HK. unfold stage_pos, stage_sum. rewrite weighted_sum_zeros by assumption.
  simpl. f_equal. ring.
Qed.

Lemma Forall_flat_K0 (K : list (fval * fval * fval)) :
  Forall flat K -> Forall (fun v => v = Fin 0) (map K0 K).
Proof.
  intros H. apply Forall_forall. intros v Hv. apply in_map_iff in Hv.
  destruct Hv as [k [<- Hk]]. rewrite Forall_forall in H. now apply H.
Qed.

Lemma Forall_flat_K1 (K : list (fval * fval * fval)) :
  Forall flat K -> Forall (fun v => v = Fin 0) (map K1 K).
Proof.
  intros H. apply Forall_forall. intros v Hv. apply in_map_iff in Hv.
  destruct Hv as [k [<- Hk]]. rewrite Forall_forall in H. now apply H.
Qed.

Lemma stage_K_zero_field (r z : R) :
  BR z r = Some 0 -> BZ z r = Some 0 ->
  flat (stage_K BR BZ BPhi (Fin r) (Fin z)).
Proof.
  intros HBR HBZ. unfold flat, stage_K, K0, K1, interp_call. cbn [fst snd].
  rewrite HBR, HBZ. cbn [masked_invalid].
  change (clean_nonfinite {| data := Fin 0; mask := false |})
    with (ma_of_nd (Fin 0)).
  now rewrite !ma_true_divide_zero_num.
Qed.

Lemma rk_stages_zero_field (r z step : R) :
  BR z r = Some 0 -> BZ z r = Some 0 ->
  Forall flat (rk_stages Nstage a BR BZ BPhi (Fin r) (Fin z) step).
Proof.
  intros HBR HBZ. unfold rk_stages.
  assert (H : forall l K, Forall flat K ->
            Forall flat (fold_left (rk_stage a BR BZ BPhi (Fin r) (Fin z) step) l K)).
  { induction l as [|i l IH]; intros K HK; simpl; [assumption|].
    apply IH. unfold rk_stage. apply Forall_app. split; [assumption|].
    constructor; [|constructor].
    rewrite (stage_pos_zeros r step i _ (Forall_flat_K0 K HK)).
    rewrite (stage_pos_zeros z step i _ (Forall_flat_K1 K HK)).
    now apply stage_K_zero_field. }
  apply H. constructor.
Qed.

Lemma trace_step_zero_field (sign dphi r z : R) (p : tpoint) :
  BR z r = Some 0 -> BZ z r = Some 0 ->
  Rp p = Fin r /\ Zp p = Fin z ->
  Rp (trace_step sign dphi p) = Fin r /\ Zp (trace_step sign dphi p) = Fin z.
Proof.
  intros HBR HBZ [HR HZ]. unfold loader.trace_step, increments.
  cbn [Rp Zp K0 K1 fst snd]. rewrite HR, HZ.
  pose proof (rk_stages_zero_field r z (next_step sign dphi (rem p)) HBR HBZ) as HK.
  unfold final_sum.
  rewrite (weighted_sum_zeros b _ Nstage (Forall_flat_K0 _ HK)).
  rewrite (weighted_sum_zeros b _ Nstage (Forall_flat_K1 _ HK)).
  simpl. split; f_equal; ring.
Qed.

(** C7.  When the interpolated B_R and B_Z are zero where the query
    points lie, the tracer returns and both the backward and the forward
    trace of every query point land exactly on its own (R, Z). *)
Theorem zero_poloidal_field_keeps_position (fuel P : nat) (co : bool)
    (Nstep : nat) (r3D z3D phi3D : list R) :
  (0 < P)%nat -> (0 < Nstep)%nat -> (Nstep <= fuel)%nat ->
  length z3D = length r3D -> length phi3D = length r3D ->
  Forall (fun phi => 0 <= phi < 2 * PI) phi3D ->
  (forall i r z, nth_error r3D i = Some r -> nth_error z3D i = Some z ->
                 BR z r = Some 0 /\ BZ z r = Some 0) ->
  exists out : list ipos,
    find_interp_positions_v2_upgrade fuel P co r3D z3D phi3D
      (fst (get_interp_planes P co phi3D)) (snd (get_interp_planes P co phi3D))
      Nstep = Ret out /\
    length out = length r3D /\
    forall i r z, nth_error r3D i = Some r -> nth_error z3D i = Some z ->
      exists o : ipos,
        nth_error out i = Some o /\
        prevR o = Fin r /\ prevZ o = Fin z /\
        nextR o = Fin r /\ nextZ o = Fin z.
Proof.
  intros HP HN Hfuel Hlz Hlphi Hrange Hzero.
  destruct (field_line_traces_run Nstage a b BR BZ BPhi fuel P co Nstep
              r3D z3D phi3D HP HN Hfuel Hlz Hlphi Hrange)
    as (ys & Hrun & Hlen & Hpt).
  eexists. unfold loader.find_interp_positions_v2_upgrade.
  rewrite Hrun. cbn [bind fst snd].
  split; [reflexivity|].
  split; [now rewrite length_map, length_combine_map|].
  intros i r z Hr Hz.
  assert (Hi : (i < length phi3D)%nat).
  { rewrite Hlphi. apply nth_error_Some. congruence. }
  destruct (nth_error phi3D i) as [phi|] eqn:Hphi;
    [|apply nth_error_None in Hphi; lia].
  destruct (Hpt i r z phi Hr Hz Hphi) as (prev & next & y & _ & _ & Hy & Hrel).
  destruct Hrel as (_ & _ & HF & HB & _).
  destruct (Hzero i r z Hr Hz) as [HBR HBZ].
  assert (Hinv : forall sign dphi phi0 q,
            pt_loop fuel sign dphi true
              (start_tpoint (mk_qpoint r z phi prev next) phi0) = Ret q ->
            Rp q = Fin r /\ Zp q = Fin z).
  { intros sign dphi phi0 q Hq.
    eapply (pt_loop_invariant Nstage a b BR BZ BPhi sign dphi
              (fun p => Rp p = Fin r /\ Zp p = Fin z)
              (fun p => trace_step_zero_field sign dphi r z p HBR HBZ));
      [|exact Hq]. now split. }
  destruct (Hinv _ _ _ _ HF) as [HRf HZf].
  destruct (Hinv _ _ _ _ HB) as [HRb HZb].
  exists (ipos_of (bwd_end y) (fwd_end y)). split.
  { apply (map_nth_error (fun bf => ipos_of (fst bf) (snd bf)) i
             (combine (map bwd_end ys) (map fwd_end ys))
             (d := (bwd_end y, fwd_end y))).
    now apply nth_error_combine_map. }
  unfold ipos_of. cbn [prevR prevZ nextR nextZ]. auto.
Qed.

End Positions.

(** * Nearest boundary vertex *)

Lemma argmin_from_spec (l : list R) :
  forall (pre : list R) (best : nat) (least : R),
    (best < length pre)%nat -> nth best pre 0 = least ->
    (forall x, In x pre -> least <= x) ->
    let n := argmin_from l (length pre) best least in
    (n < length (pre ++ l))%nat /\
    forall x, In x (pre ++ l) -> nth n (pre ++ l) 0 <= x.
Proof.
  induction l as [|y l IH]; intros pre best least Hb Hn Hmin; simpl.
  - rewrite app_nil_r. split; [assumption|]. intros x Hx. rewrite Hn. auto.
  - replace (pre ++ y :: l) with ((pre ++ [y]) ++ l)
      by (now rewrite <- app_assoc).
    replace (S (length pre)) with (length (pre ++ [y]))
      by (rewrite length_app; simpl; lia).
    unfold Rltb. destruct (Rlt_dec y least) as [Hlt | Hge].
    + apply IH.
      * rewrite length_app. simpl. lia.
      * rewrite app_nth2 by lia. now rewrite Nat.sub_diag.
      * intros x Hx. apply in_app_or in Hx. destruct Hx as [Hx | [<- | []]].
        -- specialize (Hmin x Hx). lra.
        -- lra.
    + apply IH.
      * rewrite length_app. simpl. lia.
      * now rewrite app_nth1.
      * intros x Hx. apply in_app_or in Hx. destruct Hx as [Hx | [<- | []]].
        -- auto.
        -- lra.
Qed.

Lemma np_argmin_spec (l : list R) :
  l <> [] ->
  exists n, np_argmin l = Ret n /\ (n < length l)%nat /\
            forall x, In x l -> nth n l 0 <= x.
Proof.
  intros Hl. destruct l as [|y l]; [contradiction|].
  exists (argmin_from l 1 0 y). split; [reflexivity|].
  apply (argmin_from_spec l [y] 0%nat y); simpl; [lia | reflexivity |].
  intros x [<- | []]. lra.
Qed.

Lemma nearest_vertex_spec (boundary : list (R * R)) (zr : R * R) :
  boundary <> [] ->
  exists v, nearest_vertex boundary zr = Ret v /\ nearest_in boundary zr v.
Proof.
  intros Hb. unfold nearest_vertex.
  destruct (np_argmin_spec (dist2 (fst zr) (snd zr) boundary))
    as (n & Hn & Hlt & Hmin).
  { unfold dist2. destruct boundary; [contradiction | discriminate]. }
  rewrite Hn. cbn [bind]. eexists. split; [reflexivity|].
  unfold dist2 in *. rewrite length_map in Hlt.
  assert (Hnth : forall d, nth n (map (fun v => (fst zr - fst v) ^ 2
                                        + (snd zr - snd v) ^ 2) boundary) d
                 = sqdist zr (nth n boundary (0, 0))).
  { intros d. rewrite (nth_indep _ d (sqdist zr (0, 0)))
      by (now rewrite length_map).
    apply (map_nth (sqdist zr)). }
  split; [now apply nth_In|].
  intros w Hw. rewrite <- (Hnth 0). apply Hmin.
  apply in_map_iff. exists w. auto.
Qed.

Lemma nearest_vertices (boundary : list (R * R)) (out : list (R * R)) :
  boundary <> [] ->
  exists near, mapM (nearest_vertex boundary) out = Ret near /\
               Forall2 (nearest_in boundary) out near.
Proof.
  intros Hb. induction out as [|zr out (near & Hnear & HF)].
  - exists []. split; [reflexivity | constructor].
  - destruct (nearest_vertex_spec boundary zr Hb) as (v & Hv & Hin).
    exists (v :: near). simpl. rewrite Hv, Hnear. split; [reflexivity|].
    now constructor.
Qed.

(** * Assignment through a boolean mask *)

Lemma mask_assign_rank {A : Type} (m : list bool) :
  forall (xs : list A) (i : nat) (x : A),
    length xs = length m ->
    nth_error xs i = Some x -> nth_error m i = Some true ->
    exists j, nth_error (mask_select m xs) j = Some x /\
      forall (B : Type) (orig vs : list B) (v : B),
        length orig = length m -> nth_error vs j = Some v ->
        nth_error (mask_assign m orig vs) i = Some v.
Proof.
  induction m as [|b m IH]; intros xs i x Hl Hx Hm.
  - destruct i; discriminate.
  - destruct xs as [|x0 xs]; [discriminate|]. injection Hl as Hl.
    destruct i as [|i]; simpl in Hx, Hm.
    + injection Hx as <-. injection Hm as ->. exists 0%nat.
      split; [reflexivity|].
      intros B orig vs v Ho Hv. destruct orig; [discriminate|].
      destruct vs; [discriminate|]. simpl in *. exact Hv.
    + destruct (IH xs i x Hl Hx Hm) as (j & Hj & Hassign).
      destruct b.
      * exists (S j). split; [exact Hj|].
        intros B orig vs v Ho Hv. destruct orig as [|o orig]; [discriminate|].
        destruct vs as [|v0 vs]; [discriminate|]. simpl in *.
        injection Ho as Ho. now apply Hassign.
      * exists j. split; [exact Hj|].
        intros B orig vs v Ho Hv. destruct orig as [|o orig]; [discriminate|].
        simpl in *. injection Ho as Ho. now apply Hassign.
Qed.

Lemma mask_assign_unmasked {B : Type} (m : list bool) :
  forall (orig vs : list B) (i : nat),
    length orig = length m -> nth_error m i = Some false ->
    nth_error (mask_assign m orig vs) i = nth_error orig i.
Proof.
  induction m as [|b m IH]; intros orig vs i Ho Hm.
  - destruct i; discriminate.
  - destruct orig as [|o orig]; [discriminate|]. injection Ho as Ho.
    destruct i as [|i]; simpl in Hm.
    + injection Hm as ->. reflexivity.
    + destruct b; simpl.
      * destruct vs; simpl; now apply IH.
      * now apply IH.
Qed.

Lemma length_interp_array (f : cubic_interp) (zr : list (R * R)) :
  length (interp_array f zr) = length zr.
Proof. apply length_map. Qed.

Lemma nth_error_interp_array (f : cubic_interp) (zr : list (R * R)) (i : nat)
    (p : R * R) :
  nth_error zr i = Some p ->
  nth_error (interp_array f zr) i
  = Some (masked_invalid (ci_call f (fst p) (snd p))).
Proof.
  intros H. unfold interp_array.
  exact (map_nth_error
           (fun q => masked_invalid (ci_call f (fst q) (snd q))) i zr H).
Qed.

(** The Taylor value at an outside point whose nearest vertex carries a
    value and a gradient. *)
Lemma taylor_out_defined (f : cubic_interp) (z r zn rn a gz gr : R) :
  ci_call f zn rn = Some a -> ci_gradient f zn rn = Some (gz, gr) ->
  taylor_out f ((z, r), (zn, rn))
  = mk_melt (Fin (a + (z - zn) * gz + (r - rn) * gr)) false.
Proof. intros Ha Hg. unfold taylor_out. rewrite Ha, Hg. reflexivity. Qed.

(** What [extrapolated] leaves at each grid point: outside the mesh the
    Taylor value from one nearest vertex, the same for every interpolated
    quantity; inside, the interpolant's own value. *)
Lemma extrapolated_nth (psi : cubic_interp) (boundary : list (R * R))
    (zr near : list (R * R)) (i : nat) (z r : R) :
  Forall2 (nearest_in boundary)
          (mask_select (map mask (interp_array psi zr)) zr) near ->
  nth_error zr i = Some (z, r) ->
  (ci_call psi z r = None ->
   exists v, nearest_in boundary (z, r) v /\
     forall f : cubic_interp,
       nth_error (extrapolated f zr (map mask (interp_array psi zr)) near) i
       = Some (taylor_out f ((z, r), v))) /\
  (ci_call psi z r <> None ->
   forall f : cubic_interp,
     nth_error (extrapolated f zr (map mask (interp_array psi zr)) near) i
     = Some (masked_invalid (ci_call f z r))).
Proof.
  intros HF Hi. unfold extrapolated.
  set (m := map mask (interp_array psi zr)) in *.
  assert (Hlm : length zr = length m)
    by (unfold m; now rewrite length_map, length_interp_array).
  assert (Hm : nth_error m i = Some (mask (masked_invalid (ci_call psi z r)))).
  { unfold m. apply map_nth_error.
    apply (nth_error_interp_array psi zr i (z, r) Hi). }
  split.
  - intros Hout. rewrite Hout in Hm.
    destruct (mask_assign_rank m zr i (z, r) Hlm Hi Hm) as (j & Hj & Hassign).
    destruct (Forall2_nth_error_l _ _ _ HF j (z, r) Hj) as (v & Hv & Hnear).
    exists v. split; [exact Hnear|]. intros f. apply Hassign.
    + now rewrite length_interp_array.
    + apply (map_nth_error (taylor_out f) j
               (combine (mask_select m zr) near) (d := ((z, r), v))).
      clear -Hj Hv. revert j Hj Hv.
      generalize (mask_select m zr) as xs. intros xs. revert near.
      induction xs as [|x xs IH]; intros near j Hj Hv.
      * destruct j; discriminate.
      * destruct near as [|n near]; [destruct j; discriminate|].
        destruct j as [|j]; simpl in *; [congruence | auto].
  - intros Hin f. destruct (ci_call psi z r) eqn:E; [|contradiction].
    rewrite mask_assign_unmasked; [|now rewrite length_interp_array | exact Hm].
    apply (nth_error_interp_array f zr i (z, r) Hi).
Qed.

(** * Methods and the attributes they leave alone *)

Lemma mbind_ret {A B : Type} (m : meth A) (k : A -> meth B) (s s' : XGC_Loader)
    (x : A) :
  m s = (Ret x, s') -> mbind m k s = k x s'.
Proof. intros H. unfold mbind. now rewrite H. Qed.

Lemma mbind_raise {A B : Type} (m : meth A) (k : A -> meth B)
    (s s' : XGC_Loader) (e : pyexn) :
  m s = (Raise e, s') -> mbind m k s = (Raise e, s').
Proof. intros H. unfold mbind. now rewrite H. Qed.

Lemma keeps_mret {A : Type} (name : string) (x : A) : keeps name (mret x).
Proof. intros s. reflexivity. Qed.

Lemma keeps_lift {A : Type} (name : string) (r : res A) : keeps name (lift r).
Proof. intros s. reflexivity. Qed.

Lemma keeps_read {A : Type} (name : string) (f : XGC_Loader -> A) :
  keeps name (read f).
Proof. intros s. reflexivity. Qed.

Lemma keeps_getattr {A : Type} (name n : string) (f : XGC_Loader -> option A) :
  keeps name (getattr n f).
Proof. intros s. unfold getattr. now destruct (f s). Qed.

Lemma keeps_getarr (name n : string) : keeps name (getarr n).
Proof. apply keeps_getattr. Qed.

Lemma keeps_setarr (name n : string) (v : ndarr) :
  String.eqb name n = false -> keeps name (setarr n v).
Proof. intros H s. unfold setarr, set_array. cbn. now rewrite H. Qed.

Lemma keeps_mbind {A B : Type} (name : string) (m : meth A) (k : A -> meth B) :
  keeps name m -> (forall x, keeps name (k x)) -> keeps name (mbind m k).
Proof.
  intros Hm Hk s. unfold mbind. specialize (Hm s).
  destruct (m s) as [[x | e |] s']; cbn [snd] in *; [|assumption|assumption].
  now rewrite Hk.
Qed.

Lemma mbind_keeps_r {A B : Type} (name : string) (m : meth A)
    (k : A -> meth B) (s : XGC_Loader) :
  (forall x, keeps name (k x)) ->
  arrays (snd (mbind m k s)) name = arrays (snd (m s)) name.
Proof.
  intros Hk. unfold mbind.
  destruct (m s) as [[x | e |] s']; cbn [snd]; [apply Hk | reflexivity..].
Qed.

Lemma arrays_after_setarr {B : Type} (name : string) (v : ndarr)
    (k : unit -> meth B) (s : XGC_Loader) :
  (forall x, keeps name (k x)) ->
  arrays (snd (mbind (setarr name v) k s)) name = Some v.
Proof.
  intros Hk. unfold mbind, setarr. rewrite Hk.
  unfold set_array. cbn [arrays]. now rewrite String.eqb_refl.
Qed.

Lemma keeps_when (name : string) (c : bool) (m : meth unit) :
  keeps name m -> keeps name (when c m).
Proof. intros H. destruct c; [exact H | apply keeps_mret]. Qed.

Lemma keeps_mfor {A : Type} (name : string) (l : list A) (body : A -> meth unit) :
  (forall x, keeps name (body x)) -> keeps name (mfor l body).
Proof.
  intros H. induction l as [|x l IH]; simpl; [apply keeps_mret|].
  apply keeps_mbind; auto.
Qed.

Lemma keeps_grid_2D (name : string) : keeps name grid_2D.
Proof. intros s. unfold grid_2D. now destruct (grid s). Qed.

Lemma keeps_grid_3D (name : string) : keeps name grid_3D.
Proof.
  intros s. unfold grid_3D. destruct (grid s) as [g | g | c]; try reflexivity.
  now destruct (g3_cyl g).
Qed.

Create HintDb keeps.
#[export] Hint Resolve keeps_mret keeps_lift keeps_read keeps_getattr
  keeps_getarr keeps_when keeps_mfor keeps_grid_2D keeps_grid_3D : keeps.

Ltac keeps_tac :=
  repeat first
    [ apply keeps_mbind; [|intros ?]
    | apply keeps_setarr; reflexivity
    | apply keeps_when
    | apply keeps_mfor; intros ?
    | solve [auto with keeps] ].

Section OnGridFrames.

Variable ConvexHull : list (R * R) -> res (list nat).
Variable CloughTocher2DInterpolator :
  list (R * R) -> list fval -> fval -> fval -> fval.
Variable back_interp_report :
  grid2D -> list (R * R) -> ndarr -> ndarr -> ndarr -> ndarr -> check_report.

Lemma keeps_profile_on_grid (name n : string) (sp : R -> R) (psi : ndarr) :
  String.eqb name n = false -> keeps name (profile_on_grid n sp psi).
Proof. intros H. now apply keeps_setarr. Qed.

Lemma keeps_profiles_on_grid (name te ti : string) :
  String.eqb name te = false -> String.eqb name ti = false ->
  String.eqb name "ne0_on_grid" = false ->
  String.eqb name "ni0_on_grid" = false ->
  keeps name (profiles_on_grid te ti).
Proof.
  intros H1 H2 H3 H4. unfold profiles_on_grid.
  repeat first [ apply keeps_mbind; [|intros ?]
               | apply keeps_profile_on_grid; assumption
               | solve [auto with keeps] ].
Qed.

Lemma keeps_add_interpolated (name n field : string) (i j : nat)
    (zr : list (R * R)) :
  String.eqb name n = false ->
  keeps name (add_interpolated CloughTocher2DInterpolator n field i j zr).
Proof.
  intros H. unfold add_interpolated.
  repeat first [ apply keeps_mbind; [|intros ?]
               | apply keeps_setarr; assumption
               | solve [auto with keeps] ].
Qed.

Lemma keeps_interp_check (name : string) :
  keeps name (interp_check back_interp_report).
Proof.
  unfold interp_check. apply keeps_mbind; [auto with keeps|]. intros d.
  destruct (Z.eqb d 3); keeps_tac.
Qed.

(** The fluctuation part of the 2-D method leaves the equilibrium arrays
    alone. *)
Lemma keeps_fluctuations_on_grid_2D (name : string) (sh : list nat)
    (zr : list (R * R)) :
  String.eqb name "phi_on_grid" = false ->
  String.eqb name "dne_ad_on_grid" = false ->
  String.eqb name "dni_ad_on_grid" = false ->
  String.eqb name "nane_on_grid" = false ->
  String.eqb name "dni_on_grid" = false ->
  keeps name (fluctuations_on_grid_2D CloughTocher2DInterpolator sh zr).
Proof.
  intros H1 H2 H3 H4 H5. unfold fluctuations_on_grid_2D.
  repeat first
    [ apply keeps_mbind; [|intros ?]
    | apply keeps_setarr; assumption
    | apply keeps_add_interpolated; assumption
    | apply keeps_when
    | apply keeps_mfor; intros ?
    | solve [auto with keeps] ].
Qed.

End OnGridFrames.

(** * Boundary extrapolation on a 2-D grid *)

Section Extrapolation2D.

Variable ConvexHull : list (R * R) -> res (list nat).
Variable CloughTocher2DInterpolator :
  list (R * R) -> list fval -> fval -> fval -> fval.
Variable back_interp_report :
  grid2D -> list (R * R) -> ndarr -> ndarr -> ndarr -> ndarr -> check_report.

Local Abbreviation interpolate_all_on_grid_2D :=
  (interpolate_all_on_grid_2D ConvexHull CloughTocher2DInterpolator
     back_interp_report).

(** The state in which the 2-D method leaves [psi_on_grid] and
    [B_on_grid], whatever happens afterwards. *)
Lemma interpolate_all_on_grid_2D_equilibrium (s : XGC_Loader) (g : grid2D)
    (psi B : cubic_interp) (pts boundary : list (R * R)) :
  grid s = Cartesian2D g ->
  psi_interp s = Some psi -> B_interp s = Some B -> points s = Some pts ->
  hull_boundary ConvexHull pts = Ret boundary -> boundary <> [] ->
  let zr := mesh2D (g2_Z1D g) (g2_R1D g) in
  let sh := [length (g2_Z1D g); length (g2_R1D g)] in
  let out_mask := map mask (interp_array psi zr) in
  exists near,
    Forall2 (nearest_in boundary) (mask_select out_mask zr) near /\
    arrays (snd (interpolate_all_on_grid_2D s)) "psi_on_grid"
    = Some (mk_ndarr sh (extrapolated psi zr out_mask near)) /\
    arrays (snd (interpolate_all_on_grid_2D s)) "B_on_grid"
    = Some (mk_ndarr sh (extrapolated B zr out_mask near)).
Proof.
  intros Hg Hpsi HB Hpts Hhull Hne zr sh out_mask.
  destruct (nearest_vertices boundary (mask_select out_mask zr) Hne)
    as (near & Hnear & HF).
  exists near. split; [exact HF|].
  unfold loader.interpolate_all_on_grid_2D.
  rewrite (mbind_ret grid_2D _ s s g) by (unfold grid_2D; now rewrite Hg).
  rewrite (mbind_ret (getattr "psi_interp" psi_interp) _ s s psi)
    by (unfold getattr; now rewrite Hpsi).
  fold zr. fold sh. fold out_mask.
  set (s1 := set_array "psi_on_grid" (mk_ndarr sh (interp_array psi zr)) s).
  rewrite (mbind_ret (setarr "psi_on_grid" _) _ s s1 tt) by reflexivity.
  rewrite (mbind_ret (getattr "points" points) _ s1 s1 pts)
    by (unfold getattr; cbn; now rewrite Hpts).
  rewrite (mbind_ret (lift (hull_boundary ConvexHull pts)) _ s1 s1 boundary)
    by (unfold lift; now rewrite Hhull).
  rewrite (mbind_ret (lift (mapM (nearest_vertex boundary) _)) _ s1 s1 near)
    by (unfold lift; now rewrite Hnear).
  set (s2 := set_array "psi_on_grid"
               (mk_ndarr sh (extrapolated psi zr out_mask near)) s1).
  rewrite (mbind_ret (setarr "psi_on_grid" _) _ s1 s2 tt) by reflexivity.
  rewrite (mbind_ret (getattr "B_interp" B_interp) _ s2 s2 B)
    by (unfold getattr; cbn; now rewrite HB).
  set (s3 := set_array "B_on_grid"
               (mk_ndarr sh (extrapolated B zr out_mask near))
               (set_array "B_on_grid" (mk_ndarr sh (interp_array B zr)) s2)).
  rewrite (mbind_ret (extrapolated_on_grid "B_on_grid" B sh zr out_mask near)
             _ s2 s3 tt) by reflexivity.
  split.
  - etransitivity; [|reflexivity].
    match goal with
    | |- arrays (snd (?m s3)) _ = _ =>
        assert (Hk : keeps "psi_on_grid" m)
    end.
    { apply keeps_mbind;
        [apply keeps_profiles_on_grid; reflexivity | intros _].
      apply keeps_mbind;
        [apply keeps_fluctuations_on_grid_2D; reflexivity | intros _].
      apply keeps_mbind; [apply keeps_interp_check | intros _].
      apply keeps_mret. }
    rewrite Hk. reflexivity.
  - match goal with
    | |- arrays (snd (?m s3)) _ = _ =>
        assert (Hk : keeps "B_on_grid" m)
    end.
    { apply keeps_mbind;
        [apply keeps_profiles_on_grid; reflexivity | intros _].
      apply keeps_mbind;
        [apply keeps_fluctuations_on_grid_2D; reflexivity | intros _].
      apply keeps_mbind; [apply keeps_interp_check | intros _].
      apply keeps_mret. }
    rewrite Hk. reflexivity.
Qed.

(** C8.  After the 2-D method, at every grid point outside the mesh the
    value of [psi_on_grid], and of [B_on_grid], is
    a_n + (Z_out - Z_n) * dA/dZ + (R_out - R_n) * dA/dR, where (Z_n, R_n)
    is a convex-hull boundary vertex at least distance from the point
    and a_n, dA/dZ, dA/dR are the interpolant's value and gradient at
    that vertex. *)
Theorem outside_value_is_linear_extrapolation (s : XGC_Loader) (g : grid2D)
    (psi B : cubic_interp) (pts boundary : list (R * R)) :
  grid s = Cartesian2D g ->
  psi_interp s = Some psi -> B_interp s = Some B -> points s = Some pts ->
  hull_boundary ConvexHull pts = Ret boundary -> boundary <> [] ->
  defined_on psi boundary -> defined_on B boundary ->
  exists psi_on_grid B_on_grid : ndarr,
    arrays (snd (interpolate_all_on_grid_2D s)) "psi_on_grid"
    = Some psi_on_grid /\
    arrays (snd (interpolate_all_on_grid_2D s)) "B_on_grid"
    = Some B_on_grid /\
    forall i z r,
      nth_error (mesh2D (g2_Z1D g) (g2_R1D g)) i = Some (z, r) ->
      ci_call psi z r = None ->
      exists zn rn a gz gr aB gzB grB,
        nearest_in boundary (z, r) (zn, rn) /\
        ci_call psi zn rn = Some a /\ ci_gradient psi zn rn = Some (gz, gr) /\
        nth_error (cells psi_on_grid) i
        = Some (mk_melt (Fin (a + (z - zn) * gz + (r - rn) * gr)) false) /\
        ci_call B zn rn = Some aB /\ ci_gradient B zn rn = Some (gzB, grB) /\
        nth_error (cells B_on_grid) i
        = Some (mk_melt (Fin (aB + (z - zn) * gzB + (r - rn) * grB)) false).
Proof.
  intros Hg Hpsi HB Hpts Hhull Hne Hdpsi HdB.
  destruct (interpolate_all_on_grid_2D_equilibrium s g psi B pts boundary
              Hg Hpsi HB Hpts Hhull Hne) as (near & HF & Hp & Hb).
  eexists; eexists. split; [exact Hp|]. split; [exact Hb|].
  intros i z r Hi Hout. cbn [cells].
  destruct (extrapolated_nth psi boundary _ near i z r HF Hi) as [H1 _].
  destruct (H1 Hout) as ([zn rn] & Hv & Hnth).
  destruct (Hdpsi (zn, rn) (proj1 Hv)) as (a0 & gz & gr & Ha & Hgr).
  destruct (HdB (zn, rn) (proj1 Hv)) as (aB & gzB & grB & HaB & HgrB).
  cbn [fst snd] in *.
  exists zn, rn, a0, gz, gr, aB, gzB, grB.
  rewrite (Hnth psi), (Hnth B).
  rewrite (taylor_out_defined psi z r zn rn a0 gz gr Ha Hgr).
  rewrite (taylor_out_defined B z r zn rn aB gzB grB HaB HgrB).
  repeat split; try assumption; apply Hv.
Qed.

End Extrapolation2D.

(** * Loading the fluctuations of a 3-D run *)

Lemma nth_update_nth_other {A : Type} (f : A -> A) (d : A) :
  forall (l : list A) (i k : nat),
    i <> k -> nth k (update_nth i f l) d = nth k l d.
Proof.
  induction l as [|x l IH]; intros i k Hik; [reflexivity|].
  destruct i as [|i], k as [|k]; simpl; try reflexivity; try lia.
  apply IH. lia.
Qed.

Lemma nth_update_nth_first_slot (f : list fval -> list fval) :
  forall (l : list (list (list fval))) (j i p : nat),
    i <> 0%nat ->
    nth 0 (nth p (update_nth j (update_nth i f) l) []) []
    = nth 0 (nth p l []) [].
Proof.
  induction l as [|x l IH]; intros j i p Hi; [reflexivity|].
  destruct j as [|j], p as [|p]; simpl; try reflexivity.
  - now apply nth_update_nth_other.
  - now apply IH.
Qed.

Section LoadingFacts.

Variable fluc_planes : Z -> nat.
Variable fluc_data : Z -> string -> nat -> list fval.

Lemma load_step_first_slot (n_plane : nat) (step : Z) (name : string)
    (i p : nat) (all : list (list (list fval))) :
  i <> 0%nat ->
  nth 0 (nth p (load_step fluc_data n_plane step name i all) []) []
  = nth 0 (nth p all []) [].
Proof.
  intros Hi. unfold load_step. generalize (seq 0 n_plane) as js.
  intros js. revert all. induction js as [|j js IH]; intros all;
    [reflexivity|].
  simpl. rewrite IH. now apply nth_update_nth_first_slot.
Qed.

(** The loading loop starts at the second timestep: whatever the files
    hold, the first time slot of every plane is left as it was. *)
Lemma load_rest_first_slot (n_plane : nat) (steps : list Z) (name : string)
    (p : nat) (all : list (list (list fval))) :
  nth 0 (nth p (load_rest fluc_data n_plane steps name all) []) []
  = nth 0 (nth p all []) [].
Proof.
  unfold load_rest.
  assert (H : forall idx, Forall (fun i => i <> 0%nat) idx ->
            forall all0,
              nth 0 (nth p (fold_left
                (fun acc i => load_step fluc_data n_plane (nth i steps 0%Z)
                                name i acc) idx all0) []) []
              = nth 0 (nth p all0 []) []).
  { induction idx as [|i idx IH]; intros His all0; [reflexivity|].
    inversion His; subst. simpl. rewrite IH by assumption.
    now apply load_step_first_slot. }
  apply H. apply Forall_forall. intros i Hi. apply in_seq in Hi. lia.
Qed.

End LoadingFacts.

Lemma favg_zeros_2 : favg [Fin 0; Fin 0] = Fin 0.
Proof.
  unfold favg, fsum. cbn [fold_left fadd lift2 length fdiv].
  unfold Reqb. destruct (Req_dec_T (INR 2) 0) as [H | H].
  - simpl in H. lra.
  - f_equal. simpl. field.
Qed.

Lemma favg_1_3 : favg [Fin 1; Fin 3] = Fin 2.
Proof.
  unfold favg, fsum. cbn [fold_left fadd lift2 length fdiv].
  unfold Reqb. destruct (Req_dec_T (INR 2) 0) as [H | H].
  - simpl in H. lra.
  - f_equal. simpl. field.
Qed.

Lemma favg_single (x : R) : favg [Fin x] = Fin x.
Proof.
  unfold favg, fsum. cbn [fold_left fadd lift2 length fdiv].
  unfold Reqb. destruct (Req_dec_T (INR 1) 0) as [H | H].
  - simpl in H. lra.
  - f_equal. simpl. field.
Qed.

(** C4 at the small run, whose only timestep is the first one: the
    file holds the potential 1 and 3 on the two planes, so the stored
    fluctuation should be -1 and 1 and the equilibrium density should grow
    by the toroidal average 2; the loader stores 0 and 0 and leaves the
    density at 10, because the first timestep is never read. *)
Theorem first_timestep_is_not_loaded :
  exists phi ne0 : ndarr,
    arrays (snd (load_fluctuations_3D_fluc_only small_fluc_planes
                   small_fluc_data small_run)) "phi" = Some phi /\
    shape phi = [1; 1; 2; 1]%nat /\
    map data (cells phi) = [Fin 0; Fin 0] /\
    arrays (snd (load_fluctuations_3D_fluc_only small_fluc_planes
                   small_fluc_data small_run)) "ne0" = Some ne0 /\
    map data (cells ne0) = [Fin 10] /\
    vsub (small_fluc_data 7 "dpot" 0)
         [favg [Fin 1; Fin 3]] = [Fin (-1)] /\
    vsub (small_fluc_data 7 "dpot" 1)
         [favg [Fin 1; Fin 3]] = [Fin 1] /\
    fadd (Fin 10) (favg [favg [Fin 1; Fin 3]]) = Fin 12.
Proof.
  exists (nd_plain [1; 1; 2; 1]%nat
            [fsub (Fin 0) (favg [Fin 0; Fin 0]);
             fsub (Fin 0) (favg [Fin 0; Fin 0])]).
  exists (nd_plain [1%nat]
            [fadd (Fin 10) (favg [favg [Fin 0; Fin 0]])]).
  split; [reflexivity|]. split; [reflexivity|].
  split.
  { cbn [nd_plain cells map data ma_of_nd]. rewrite favg_zeros_2.
    cbn. repeat f_equal; lra. }
  split; [reflexivity|].
  split.
  { cbn [nd_plain cells map data ma_of_nd].
    rewrite favg_zeros_2, favg_single. cbn. repeat f_equal. lra. }
  rewrite favg_1_3, favg_single. cbn.
  repeat split; repeat f_equal; lra.
Qed.

(** * Changing the grid *)

Section ChangeGridFacts.

Variable ConvexHull : list (R * R) -> res (list nat).
Variable CloughTocher2DInterpolator :
  list (R * R) -> list fval -> fval -> fval -> fval.
Variable back_interp_report :
  grid2D -> list (R * R) -> ndarr -> ndarr -> ndarr -> ndarr -> check_report.
Variable Nstage : nat.
Variable a : nat -> nat -> R.
Variable b : nat -> R.
Variable fluc_planes : Z -> nat.
Variable fluc_data : Z -> string -> nat -> list fval.
Variables load_mesh_2D load_psi_2D load_B_2D load_eq_2D3D : meth unit.
Variables load_fluctuations_2D_fluc_only load_fluctuations_2D_all : meth unit.
Variables load_mesh_psi_3D load_B_3D load_fluctuations_3D_all : meth unit.
Variable calculate_dne_ad_2D3D : meth unit.
Variable fuel : nat.

(** C10.  [change_grid] with an object that is neither a Cartesian2D nor
    a Cartesian3D raises [XGC_Loader_Error] and leaves the loader as it
    was: grid, dimension and every array attribute. *)
Theorem change_grid_rejects_other_grids (class_name : string)
    (s : XGC_Loader) :
  change_grid ConvexHull CloughTocher2DInterpolator back_interp_report
    Nstage a b fluc_planes fluc_data
    load_mesh_2D load_psi_2D load_B_2D load_eq_2D3D
    load_fluctuations_2D_fluc_only load_fluctuations_2D_all
    load_mesh_psi_3D load_B_3D load_fluctuations_3D_all
    calculate_dne_ad_2D3D fuel (OtherGrid class_name) s
  = (Raise (XGC_Loader_Error not_valid_grid), s).
Proof.
  unfold change_grid, mbind, read.
  destruct (Z.eqb (dimension s) 2); reflexivity.
Qed.

End ChangeGridFacts.

(** * Interpolation on a 3-D grid *)

Section OnGrid3D.

Variable ConvexHull : list (R * R) -> res (list nat).
Variable CloughTocher2DInterpolator :
  list (R * R) -> list fval -> fval -> fval -> fval.
Variable Nstage : nat.
Variable a : nat -> nat -> R.
Variable b : nat -> R.

Local Abbreviation fluctuations_on_grid_3D :=
  (fluctuations_on_grid_3D CloughTocher2DInterpolator Nstage a b).
Local Abbreviation interpolate_all_on_grid_3D :=
  (interpolate_all_on_grid_3D ConvexHull CloughTocher2DInterpolator Nstage a b).

Lemma keeps_find_interp_positions (name : string) (fuel : nat) :
  keeps name (find_interp_positions Nstage a b fuel).
Proof. unfold find_interp_positions. keeps_tac. Qed.

Lemma keeps_blend_on_grid (name n field : string) (g : grid3D) (k i : nat)
    (ip : list ipos) (prev next : list fval) :
  String.eqb name n = false ->
  keeps name (blend_on_grid CloughTocher2DInterpolator n field g k i ip prev next).
Proof.
  intros H. unfold blend_on_grid.
  repeat first [ apply keeps_mbind; [|intros ?]
               | apply keeps_setarr; assumption
               | solve [auto with keeps] ].
Qed.

Lemma keeps_fluctuations_on_grid_3D (name : string) (fuel : nat) (g : grid3D) :
  String.eqb name "dne_ad_on_grid" = false ->
  String.eqb name "nane_on_grid" = false ->
  String.eqb name "dni_on_grid" = false ->
  keeps name (fluctuations_on_grid_3D fuel g).
Proof.
  intros H1 H2 H3. unfold loader.fluctuations_on_grid_3D.
  repeat first
    [ apply keeps_mbind; [|intros ?]
    | apply keeps_setarr; assumption
    | apply keeps_blend_on_grid; assumption
    | apply keeps_find_interp_positions
    | apply keeps_when
    | apply keeps_mfor; intros ?
    | solve [auto with keeps] ].
Qed.

(** With the '3D' equilibrium mesh nothing is extrapolated: a grid point
    outside the mesh keeps its masked [psi]. *)
Lemma equilibrium_3D_mesh_keeps_mask (fuel : nat) (s : XGC_Loader)
    (g : grid3D) (c : cylindrical) (psi : cubic_interp) (i : nat) (z r : R) :
  grid s = Cartesian3D g -> g3_cyl g = Some c ->
  equilibrium_mesh s = "3D"%string -> psi_interp s = Some psi ->
  nth_error (combine (z3D c) (r3D c)) i = Some (z, r) ->
  ci_call psi z r = None ->
  exists arr,
    arrays (snd (interpolate_all_on_grid_3D fuel s)) "psi_on_grid" = Some arr /\
    nth_error (cells arr) i = Some (mk_melt NonFin true).
Proof.
  intros Hg Hc Hstyle Hpsi Hi Hout.
  exists (mk_ndarr (g3_shape g) (interp_array psi (combine (z3D c) (r3D c)))).
  split.
  - unfold loader.interpolate_all_on_grid_3D.
    rewrite (mbind_ret grid_3D _ s s (g, c))
      by (unfold grid_3D; now rewrite Hg, Hc).
    rewrite (mbind_ret (read equilibrium_mesh) _ s s "3D"%string)
      by (unfold read; now rewrite Hstyle).
    cbn [String.eqb Ascii.eqb Bool.eqb fst snd].
    rewrite mbind_keeps_r.
    2:{ intros _. apply keeps_mbind; [auto with keeps | intros eq_only].
        apply keeps_when. now apply keeps_fluctuations_on_grid_3D. }
    unfold equilibrium_on_grid_3D_mesh.
    rewrite (mbind_ret (getattr "psi_interp" psi_interp) _ s s psi)
      by (unfold getattr; now rewrite Hpsi).
    apply arrays_after_setarr. intros _.
    unfold profiles_on_grid, profile_on_grid. keeps_tac.
  - cbn [cells]. rewrite (nth_error_interp_array psi _ i (z, r) Hi).
    cbn [fst snd]. now rewrite Hout.
Qed.

(** With ion data loaded, the fluctuation part asks for the shape of
    [dni_ad_on_grid], an attribute that only the 2-D method creates. *)
Lemma fluctuations_on_grid_3D_ions (fuel : nat) (g : grid3D) (s : XGC_Loader)
    (he : bool) :
  load_ions s = true -> HaveElectron s = Some he ->
  arrays s "dni_ad_on_grid" = None ->
  fst (fluctuations_on_grid_3D fuel g s)
  = Raise (AttributeError "dni_ad_on_grid") /\
  arrays (snd (fluctuations_on_grid_3D fuel g s)) "dni_on_grid"
  = arrays s "dni_on_grid".
Proof.
  intros Hions Hhe Hnone. unfold loader.fluctuations_on_grid_3D.
  rewrite (mbind_ret (read n_cross_section) _ s s (n_cross_section s))
    by reflexivity.
  rewrite (mbind_ret (read (fun s0 => length (time_steps s0))) _ s s
             (length (time_steps s))) by reflexivity.
  set (sh := (n_cross_section s :: length (time_steps s) :: g3_shape g)%list).
  set (s1 := set_array "dne_ad_on_grid" (np_zeros sh) s).
  rewrite (mbind_ret (setarr "dne_ad_on_grid" _) _ s s1 tt) by reflexivity.
  rewrite (mbind_ret (getattr "HaveElectron" HaveElectron) _ s1 s1 he)
    by (unfold getattr; cbn; now rewrite Hhe).
  set (s2 := if he then set_array "nane_on_grid" (np_zeros sh) s1 else s1).
  rewrite (mbind_ret (when he _) _ s1 s2 tt)
    by (unfold s2; destruct he; reflexivity).
  assert (Hions2 : load_ions s2 = true)
    by (unfold s2; destruct he; exact Hions).
  assert (Hnone2 : arrays s2 "dni_ad_on_grid" = None)
    by (unfold s2; destruct he; cbn; exact Hnone).
  assert (Hsame : arrays s2 "dni_on_grid" = arrays s "dni_on_grid")
    by (unfold s2; destruct he; reflexivity).
  rewrite (mbind_ret (read load_ions) _ s2 s2 true)
    by (unfold read; now rewrite Hions2).
  rewrite (mbind_raise (when true _) _ s2 s2 (AttributeError "dni_ad_on_grid")).
  - split; [reflexivity | exact Hsame].
  - cbn [when]. apply mbind_raise. unfold getarr, getattr. now rewrite Hnone2.
Qed.

End OnGrid3D.

(** * The small run *)

Lemma small_grid_point :
  g3_cyl small_grid
  = Some (mk_cylindrical [sqrt (5 ^ 2 + 0 ^ 2)] [0] [cyl_phi 5 0]).
Proof. reflexivity. Qed.

Lemma small_grid_point_outside (v : R) :
  ci_call (square_field v) 0 (sqrt (5 ^ 2 + 0 ^ 2)) = None.
Proof.
  assert (H : sqrt (5 ^ 2 + 0 ^ 2) = 5).
  { replace (5 ^ 2 + 0 ^ 2) with (5 * 5) by ring. apply sqrt_square. lra. }
  rewrite H. unfold square_field, ci_call, on_square, Rleb.
  destruct (Rle_dec 5 2); [lra|].
  now rewrite andb_false_r.
Qed.

Section SmallRun.

Variable ConvexHull : list (R * R) -> res (list nat).
Variable CloughTocher2DInterpolator :
  list (R * R) -> list fval -> fval -> fval -> fval.
Variable Nstage : nat.
Variable a : nat -> nat -> R.
Variable b : nat -> R.
Variable fuel : nat.

(** C5 at the small run asked for its equilibrium only: with the '3D'
    equilibrium mesh the interpolation returns normally and the grid
    point outside the mesh is left masked, with undefined data, in
    [psi_on_grid] and in the electron temperature derived from it, where
    the claim has a boundary-extrapolated value. *)
Theorem psi_on_grid_3D_mesh_left_masked :
  fst (interpolate_all_on_grid_3D ConvexHull CloughTocher2DInterpolator
         Nstage a b fuel small_equilibrium_run) = Ret tt /\
  exists psi_on_grid te_on_grid,
    arrays (snd (interpolate_all_on_grid_3D ConvexHull
                   CloughTocher2DInterpolator Nstage a b fuel
                   small_equilibrium_run))
           "psi_on_grid" = Some psi_on_grid /\
    nth_error (cells psi_on_grid) 0 = Some (mk_melt NonFin true) /\
    arrays (snd (interpolate_all_on_grid_3D ConvexHull
                   CloughTocher2DInterpolator Nstage a b fuel
                   small_equilibrium_run))
           "te_on_grid" = Some te_on_grid /\
    map data (cells te_on_grid) = [NonFin].
Proof.
  split; [reflexivity|].
  pose proof (small_grid_point_outside 1) as Hout.
  exists (mk_ndarr [1; 1; 1]%nat
            [masked_invalid (ci_call (square_field 1) 0 (sqrt (5 ^ 2 + 0 ^ 2)))]).
  exists (nd_plain [1; 1; 1]%nat
            [apply_1d (fun psi => psi)
               (data (masked_invalid
                        (ci_call (square_field 1) 0 (sqrt (5 ^ 2 + 0 ^ 2)))))]).
  split; [reflexivity|].
  split; [cbn [cells nth_error]; now rewrite Hout|].
  split; [reflexivity|].
  cbn [nd_plain cells map data ma_of_nd]. now rewrite Hout.
Qed.

(** C9 at the small run: ion data is loaded, and the 3-D
    interpolation raises [AttributeError] on [dni_ad_on_grid]; no
    [dni_on_grid] exists afterwards. *)
Theorem ion_density_on_grid_3D_raises :
  fst (interpolate_all_on_grid_3D ConvexHull CloughTocher2DInterpolator
         Nstage a b fuel small_run)
  = Raise (AttributeError "dni_ad_on_grid") /\
  arrays (snd (interpolate_all_on_grid_3D ConvexHull
                 CloughTocher2DInterpolator Nstage a b fuel small_run))
         "dni_on_grid" = None.
Proof. split; reflexivity. Qed.

End SmallRun.

(** * Plane-wise interpolation and blending *)

Lemma nth_error_map3 {A B C D : Type} (f : A -> B -> C -> D) :
  forall (la : list A) (lb : list B) (lc : list C) (i : nat) x y z,
    nth_error la i = Some x -> nth_error lb i = Some y ->
    nth_error lc i = Some z ->
    nth_error (map3 f la lb lc) i = Some (f x y z).
Proof.
  induction la as [|x0 la IH]; intros lb lc i x y z Ha Hb Hc.
  - destruct i; discriminate.
  - destruct lb as [|y0 lb]; [destruct i; discriminate|].
    destruct lc as [|z0 lc]; [destruct i; discriminate|].
    destruct i as [|i]; simpl in *.
    + congruence.
    + eauto.
Qed.

Lemma existsb_eqb_false (plane : Z) (sel : list Z) (i : nat) (s : Z) :
  existsb (Z.eqb plane) sel = false -> nth_error sel i = Some s ->
  Z.eqb s plane = false.
Proof.
  intros He Hi. apply nth_error_In in Hi.
  destruct (Z.eqb s plane) eqn:E; [|reflexivity].
  apply Z.eqb_eq in E. subst s.
  assert (Ht : existsb (Z.eqb plane) sel = true).
  { apply existsb_exists. exists plane. split; [assumption | apply Z.eqb_refl]. }
  congruence.
Qed.

Section Planes.

Variable CloughTocher2DInterpolator :
  list (R * R) -> list fval -> fval -> fval -> fval.
Variable pts : list (R * R).
Variable field : ndarr.
Variables k i : nat.
Variable pls prevp nextp : list Z.
Variable ip : list ipos.

Local Abbreviation interpolate_plane :=
  (interpolate_plane CloughTocher2DInterpolator pts field k i pls prevp nextp ip).
Local Abbreviation pick_plane :=
  (pick_plane CloughTocher2DInterpolator pts field k i pls).

(** One side of one pass of the plane loop, at one index. *)
Lemma fill_side (sel : list Z) (pos : list (fval * fval)) (arr : list fval)
    (j : nat) (vals : ndarr) :
  nd_block field [k; i; j] = Ret vals ->
  exists arr',
    (if existsb (Z.eqb (nth j pls 0%Z)) sel
     then vs <- nd_block field [k; i; j] ;;
          Ret (fill_where CloughTocher2DInterpolator pts (map data (cells vs))
                 (nth j pls 0%Z) sel pos arr)
     else Ret arr) = Ret arr' /\
    forall idx s p v,
      nth_error sel idx = Some s -> nth_error pos idx = Some p ->
      nth_error arr idx = Some v ->
      nth_error arr' idx = Some (pick_plane s p [j] v).
Proof.
  intros Hblock.
  destruct (existsb (Z.eqb (nth j pls 0%Z)) sel) eqn:He.
  - rewrite Hblock. cbn [bind]. eexists. split; [reflexivity|].
    intros idx s p v Hs Hp Hv. unfold fill_where.
    rewrite (nth_error_map3 _ _ _ _ idx s p v Hs Hp Hv).
    unfold loader.pick_plane. cbn [fold_left]. now rewrite Hblock.
  - exists arr. split; [reflexivity|].
    intros idx s p v Hs Hp Hv. rewrite Hv.
    unfold loader.pick_plane. cbn [fold_left].
    now rewrite (existsb_eqb_false _ _ _ _ He Hs).
Qed.

Lemma pick_plane_cons (s : Z) (p : fval * fval) (j : nat) (js : list nat)
    (v : fval) :
  pick_plane s p (j :: js) v = pick_plane s p js (pick_plane s p [j] v).
Proof. reflexivity. Qed.

(** The plane loop, index by index. *)
Lemma interpolate_planes_pointwise (js : list nat) :
  forall prev next : list fval,
    (forall j, In j js -> exists vals, nd_block field [k; i; j] = Ret vals) ->
    exists pn,
      foldM interpolate_plane js (prev, next) = Ret pn /\
      forall idx sp sn o vp vn,
        nth_error prevp idx = Some sp -> nth_error nextp idx = Some sn ->
        nth_error ip idx = Some o ->
        nth_error prev idx = Some vp -> nth_error next idx = Some vn ->
        nth_error (fst pn) idx
        = Some (pick_plane sp (prevZ o, prevR o) js vp) /\
        nth_error (snd pn) idx
        = Some (pick_plane sn (nextZ o, nextR o) js vn).
Proof.
  induction js as [|j js IH]; intros prev next Hblocks.
  - exists (prev, next). split; [reflexivity|]. intros; split; assumption.
  - destruct (Hblocks j (or_introl eq_refl)) as [vals Hvals].
    destruct (fill_side prevp (map (fun o => (prevZ o, prevR o)) ip) prev j vals
                Hvals) as (prev' & Hprev & Hp).
    destruct (fill_side nextp (map (fun o => (nextZ o, nextR o)) ip) next j vals
                Hvals) as (next' & Hnext & Hn).
    destruct (IH prev' next') as (pn & Hpn & Hrest).
    { intros j' Hj'. apply Hblocks. now right. }
    exists pn. split.
    + cbn [foldM]. unfold loader.interpolate_plane at 1. cbn [fst snd].
      rewrite Hprev. cbn [bind]. rewrite Hnext. cbn [bind]. exact Hpn.
    + intros idx sp sn o vp vn Hsp Hsn Ho Hvp Hvn.
      rewrite (pick_plane_cons sp (prevZ o, prevR o) j js vp).
      rewrite (pick_plane_cons sn (nextZ o, nextR o) j js vn).
      apply Hrest; try assumption.
      * apply (Hp idx sp (prevZ o, prevR o) vp Hsp); [|assumption].
        exact (map_nth_error (fun o => (prevZ o, prevR o)) idx ip Ho).
      * apply (Hn idx sn (nextZ o, nextR o) vn Hsn); [|assumption].
        exact (map_nth_error (fun o => (nextZ o, nextR o)) idx ip Ho).
Qed.

(** Among distinct planes only the point's own plane leaves a value. *)
Lemma pick_plane_skip (s : Z) (p : fval * fval) (js : list nat) (v : fval) :
  (forall j, In j js -> nth j pls 0%Z <> s) -> pick_plane s p js v = v.
Proof.
  revert v. induction js as [|j js IH]; intros v H; [reflexivity|].
  rewrite (pick_plane_cons s p j js v).
  rewrite IH by (intros j' Hj'; apply H; now right).
  unfold loader.pick_plane. cbn [fold_left].
  destruct (Z.eqb_spec s (nth j pls 0%Z)) as [He | _]; [|reflexivity].
  exfalso. apply (H j (or_introl eq_refl)). now symmetry.
Qed.

Lemma pick_plane_unique (s : Z) (p : fval * fval) (j : nat) (vals : ndarr)
    (v : fval) :
  NoDup pls -> nth_error pls j = Some s ->
  nd_block field [k; i; j] = Ret vals ->
  pick_plane s p (seq 0 (length pls)) v
  = CloughTocher2DInterpolator pts (map data (cells vals)) (fst p) (snd p).
Proof.
  intros Hnd Hj Hvals.
  assert (Hlt : (j < length pls)%nat) by (apply nth_error_Some; congruence).
  assert (Hother : forall j', (j' < length pls)%nat -> j' <> j ->
                              nth j' pls 0%Z <> s).
  { intros j' Hj' Hne He. apply Hne.
    apply (proj1 (NoDup_nth pls 0%Z) Hnd j' j Hj' Hlt).
    rewrite He. symmetry. now apply nth_error_nth. }
  assert (Hsplit : forall n m, seq 0 (n + S m) = seq 0 n ++ n :: seq (S n) m)
    by (intros n m; now rewrite seq_app).
  replace (length pls) with (j + S (length pls - S j))%nat by lia.
  rewrite Hsplit.
  replace (j + S (length pls - S j))%nat with (length pls) in Hother by lia.
  unfold loader.pick_plane. rewrite fold_left_app. cbn [fold_left].
  fold (pick_plane s p (seq 0 j) v).
  rewrite (nth_error_nth pls j 0%Z Hj), Z.eqb_refl, Hvals.
  match goal with
  | |- fold_left ?f ?l ?x = _ => change (pick_plane s p l x = x)
  end.
  apply pick_plane_skip. intros j' Hj'. apply in_seq in Hj'.
  apply Hother; lia.
Qed.

End Planes.

(** * A query point on a stored plane *)

Section OnPlane.

Variable Nstage : nat.
Variable a : nat -> nat -> R.
Variable b : nat -> R.
Variables BR BZ BPhi : tri_interp.
Variable CloughTocher2DInterpolator :
  list (R * R) -> list fval -> fval -> fval -> fval.

Local Abbreviation pt_loop := (pt_loop Nstage a b BR BZ BPhi).
Local Abbreviation trace_step := (trace_step Nstage a b BR BZ BPhi).
Local Abbreviation field_line_traces := (field_line_traces Nstage a b BR BZ BPhi).
Local Abbreviation find_interp_positions_v2_upgrade :=
  (find_interp_positions_v2_upgrade Nstage a b BR BZ BPhi).

Lemma final_sum_Fin (K : list (fval * fval * fval))
    (f : fval * fval * fval -> fval) :
  (forall k, kfinite k -> isfinite (f k) = true) -> Forall kfinite K ->
  exists x, final_sum Nstage b (map f K) = Fin x.
Proof.
  intros Hf HK. apply isfinite_Fin_inv. unfold final_sum.
  apply weighted_sum_finite. now apply Forall_map_K.
Qed.

(** With no angle left to cover, a pass moves nothing and adds no arc
    length. *)
Lemma trace_step_zero_angle (sign dphi r z s : R) (p : tpoint) :
  0 <= dphi -> rem p = 0 ->
  Rp p = Fin r -> Zp p = Fin z -> sp p = Fin s ->
  rem (trace_step sign dphi p) = 0 /\
  Rp (trace_step sign dphi p) = Fin r /\
  Zp (trace_step sign dphi p) = Fin z /\
  sp (trace_step sign dphi p) = Fin s.
Proof.
  intros Hd Hrem HR HZ Hs.
  assert (Hstep : next_step sign dphi (rem p) = 0).
  { unfold next_step, Rltb. rewrite Hrem, Rabs_R0.
    destruct (Rlt_dec dphi 0); [lra | reflexivity]. }
  unfold loader.trace_step, increments. rewrite Hstep.
  cbn [rem Rp Zp sp K0 K1 K2 fst snd].
  pose proof (rk_stages_finite Nstage a BR BZ BPhi (Rp p) (Zp p) 0) as HK.
  rewrite HR in HK. specialize (HK eq_refl). rewrite <- HR in HK.
  destruct (final_sum_Fin _ K0 (K0_finite) HK) as [x0 H0].
  destruct (final_sum_Fin _ K1 (K1_finite) HK) as [x1 H1].
  destruct (final_sum_Fin _ K2 (K2_finite) HK) as [x2 H2].
  rewrite H0, H1, H2, HR, HZ, Hs, Hrem. cbn. rewrite Rabs_R0.
  repeat split; try f_equal; ring.
Qed.

Lemma pt_loop_zero_angle (fuel : nat) (sign dphi r z s : R) (p q : tpoint) :
  0 <= dphi -> rem p = 0 ->
  Rp p = Fin r -> Zp p = Fin z -> sp p = Fin s ->
  pt_loop fuel sign dphi true p = Ret q ->
  Rp q = Fin r /\ Zp q = Fin z /\ sp q = Fin s.
Proof.
  intros Hd Hrem HR HZ Hs Hq.
  destruct fuel as [|fuel]; [discriminate|]. cbn [loader.pt_loop] in Hq.
  destruct (trace_step_zero_angle sign dphi r z s p Hd Hrem HR HZ Hs)
    as (Hrem' & HR' & HZ' & Hs').
  apply still_tracing_false in Hrem'. rewrite Hrem' in Hq.
  destruct fuel; simpl in Hq; injection Hq as <-; auto.
Qed.

(** What the plane loop leaves is finite when the interpolants of the
    stored planes are finite at the landing position. *)
Lemma pick_plane_finite (pts : list (R * R)) (field : ndarr) (kk ii : nat)
    (pls : list Z) (s : Z) (pos : fval * fval) (js : list nat) (v : fval) :
  (forall j vals,
     nd_block field [kk; ii; j] = Ret vals ->
     isfinite (CloughTocher2DInterpolator pts (map data (cells vals))
                 (fst pos) (snd pos)) = true) ->
  isfinite v = true ->
  isfinite (pick_plane CloughTocher2DInterpolator pts field kk ii pls s
              pos js v) = true.
Proof.
  intros Hfin. revert v. induction js as [|j js IH]; intros v Hv; [exact Hv|].
  unfold pick_plane. cbn [fold_left]. apply IH.
  destruct (Z.eqb s (nth j pls 0%Z)); [|exact Hv].
  destruct (nd_block field [kk; ii; j]) eqn:E;
    [now apply (Hfin j) | exact Hv | exact Hv].
Qed.

Lemma bracket_unique (P k k' : nat) :
  (0 < P)%nat ->
  INR k' * (2 * PI / INR P) <= INR k * (2 * PI / INR P)
    < INR (S k') * (2 * PI / INR P) ->
  k' = k.
Proof.
  intros HP [Hlo Hhi]. pose proof (plane_spacing_pos P HP) as Hd.
  assert (H1 : INR k' <= INR k)
    by (apply Rmult_le_reg_r with (2 * PI / INR P); lra).
  assert (H2 : INR k < INR (S k'))
    by (apply Rmult_lt_reg_r with (2 * PI / INR P); lra).
  apply INR_le in H1. apply INR_lt in H2. lia.
Qed.

Lemma blend_one_zero (own w : fval) :
  isfinite w = true ->
  fadd (fmul own (Fin 1)) (fmul w (Fin 0)) = own /\
  fadd (fmul w (Fin 0)) (fmul own (Fin 1)) = own.
Proof.
  intros Hw. apply isfinite_Fin_inv in Hw. destruct Hw as [x ->].
  destruct own as [u|]; cbn; split; try reflexivity; f_equal; ring.
Qed.

Lemma blend_nan (p n : fval) :
  fadd (fmul p NonFin) (fmul n NonFin) = NonFin.
Proof. destruct p, n; reflexivity. Qed.

(** C2, as the code has it.  A query point whose angle is that of stored
    plane [k]: both traces return, and the trace toward plane [k]
    accumulates zero arc length.  The plane loop leaves, for that point,
    plane [k]'s own interpolated value at the point's (R, Z) and the
    other plane's value [w] at the landing point of the other trace.
    When the other trace has a nonzero arc length, the weight of plane
    [k]'s value is 1 and the other weight is 0, and, [w] being finite,
    the blended value value_prev * fraction_next + value_next *
    fraction_prev is plane [k]'s own value.  When the other trace has
    zero arc length as well, both weights are 0/0 and the blended value
    is not a number. *)
Theorem point_on_plane_takes_plane_value (fuel P : nat) (co : bool)
    (Nstep : nat) (r3D z3D phi3D : list R) (pts : list (R * R))
    (field : ndarr) (kk ii : nat) (pls : list Z) (i k j n : nat) (r z : R) :
  (0 < P)%nat -> (0 < Nstep)%nat -> (Nstep <= fuel)%nat ->
  length z3D = length r3D -> length phi3D = length r3D ->
  Forall (fun phi => 0 <= phi < 2 * PI) phi3D ->
  nth_error r3D i = Some r -> nth_error z3D i = Some z ->
  nth_error phi3D i = Some (INR k * (2 * PI / INR P)) -> (k < P)%nat ->
  NoDup pls -> nth_error pls j = Some (Z.of_nat k) ->
  (forall j', (j' < length pls)%nat ->
              exists vals, nd_block field [kk; ii; j'] = Ret vals) ->
  (i < n)%nat ->
  exists bwd fwd out qnear qfar o pn vals w,
    field_line_traces fuel P co r3D z3D phi3D
      (fst (get_interp_planes P co phi3D)) (snd (get_interp_planes P co phi3D))
      Nstep = Ret (bwd, fwd) /\
    nth_error (if co then bwd else fwd) i = Some qnear /\
    sp qnear = Fin 0 /\
    nth_error (if co then fwd else bwd) i = Some qfar /\
    find_interp_positions_v2_upgrade fuel P co r3D z3D phi3D
      (fst (get_interp_planes P co phi3D)) (snd (get_interp_planes P co phi3D))
      Nstep = Ret out /\
    nth_error out i = Some o /\
    interpolate_planes CloughTocher2DInterpolator pts field kk ii pls
      (fst (get_interp_planes P co phi3D)) (snd (get_interp_planes P co phi3D))
      out (repeat (Fin 0) n) (repeat (Fin 0) n) = Ret pn /\
    nd_block field [kk; ii; j] = Ret vals /\
    nth_error (if co then fst pn else snd pn) i
    = Some (CloughTocher2DInterpolator pts (map data (cells vals))
              (Fin z) (Fin r)) /\
    nth_error (if co then snd pn else fst pn) i = Some w /\
    (sp qfar <> Fin 0 ->
     (if co then next_frac o else prev_frac o) = Fin 1 /\
     (if co then prev_frac o else next_frac o) = Fin 0 /\
     (isfinite w = true ->
      nth_error (blend (fst pn) (snd pn) out) i
      = Some (CloughTocher2DInterpolator pts (map data (cells vals))
                (Fin z) (Fin r)))) /\
    (sp qfar = Fin 0 ->
     prev_frac o = NonFin /\ next_frac o = NonFin /\
     nth_error (blend (fst pn) (snd pn) out) i = Some NonFin).
Proof.
  intros HP HN Hfuel Hlz Hlphi Hrange Hr Hz Hphi Hk Hnd Hj Hblocks Hn.
  destruct (field_line_traces_run Nstage a b BR BZ BPhi fuel P co Nstep
              r3D z3D phi3D HP HN Hfuel Hlz Hlphi Hrange)
    as (ys & Hrun & Hlen & Hpt).
  destruct (Hpt i r z _ Hr Hz Hphi)
    as (prev & next & y & Hprev & Hnext & Hy & Hrel).
  destruct Hrel as (_ & _ & HF & HB & k' & Hk' & Hbr & Hqp & Hqn & _ & Hon).
  cbn [qPhi qprev qnext] in Hbr, Hqp, Hqn, Hon.
  assert (k' = k) as -> by (now apply (bracket_unique P k k' HP)).
  specialize (Hon eq_refl).
  pose proof (step_angle_pos P Nstep HP HN) as Hd.
  pose proof (pt_loop_finite Nstage a b BR BZ BPhi _ _ _ _ _ _
                (start_tpoint_finite _ _) HF) as (HfR & HfZ & Hfs).
  pose proof (pt_loop_finite Nstage a b BR BZ BPhi _ _ _ _ _ _
                (start_tpoint_finite _ _) HB) as (HbR & HbZ & Hbs).
  apply isfinite_Fin_inv in HfR, HfZ, Hfs, HbR, HbZ, Hbs.
  destruct HfR as [rf HfR], HfZ as [zf HfZ], Hfs as [sf Hfs].
  destruct HbR as [rb HbR], HbZ as [zb HbZ], Hbs as [sb Hbs].
  (* the arrays of the two traces and of the positions *)
  assert (Hbwd : nth_error (map bwd_end ys) i = Some (bwd_end y))
    by (now apply map_nth_error).
  assert (Hfwd : nth_error (map fwd_end ys) i = Some (fwd_end y))
    by (now apply map_nth_error).
  set (out := map (fun bf => ipos_of (fst bf) (snd bf))
                  (combine (map bwd_end ys) (map fwd_end ys))).
  assert (Hout : nth_error out i = Some (ipos_of (bwd_end y) (fwd_end y))).
  { apply (map_nth_error (fun bf => ipos_of (fst bf) (snd bf)) i
             (combine (map bwd_end ys) (map fwd_end ys))
             (d := (bwd_end y, fwd_end y))).
    now apply nth_error_combine_map. }
  assert (Hfind : find_interp_positions_v2_upgrade fuel P co r3D z3D phi3D
                    (fst (get_interp_planes P co phi3D))
                    (snd (get_interp_planes P co phi3D)) Nstep = Ret out).
  { unfold loader.find_interp_positions_v2_upgrade. now rewrite Hrun. }
  (* the plane loop *)
  destruct (interpolate_planes_pointwise CloughTocher2DInterpolator pts field
              kk ii pls (fst (get_interp_planes P co phi3D))
              (snd (get_interp_planes P co phi3D)) out
              (seq 0 (length pls)) (repeat (Fin 0) n) (repeat (Fin 0) n))
    as (pn & Hpn & Hidx).
  { intros j' Hj'. apply Hblocks. apply in_seq in Hj'. lia. }
  destruct (Hidx i prev next _ (Fin 0) (Fin 0) Hprev Hnext Hout
              (nth_error_repeat (Fin 0) Hn) (nth_error_repeat (Fin 0) Hn))
    as [Hpi Hni].
  cbn [ipos_of prevZ prevR nextZ nextR] in Hpi, Hni.
  destruct (Hblocks j) as [vals Hvals];
    [apply nth_error_Some; congruence|].
  exists (map bwd_end ys), (map fwd_end ys), out.
  destruct co.
  - (* co-current: plane k is the previous plane *)
    destruct (pt_loop_zero_angle fuel (BWD_sign true) _ r z 0
                (start_tpoint (mk_qpoint r z (INR k * (2 * PI / INR P))
                                 prev next) (phib0 y)) _
                (Rlt_le _ _ Hd) Hon eq_refl eq_refl eq_refl HB)
      as (HbR' & HbZ' & Hbs').
    rewrite HbZ', HbR' in Hpi.
    rewrite Hqp in Hpi. cbn [bracket_prev] in Hpi.
    rewrite (pick_plane_unique CloughTocher2DInterpolator pts field kk ii pls
               _ _ j vals _ Hnd Hj Hvals) in Hpi.
    cbn [fst snd] in Hpi.
    exists (bwd_end y), (fwd_end y), (ipos_of (bwd_end y) (fwd_end y)), pn, vals.
    eexists.
    split; [exact Hrun|]. split; [exact Hbwd|]. split; [exact Hbs'|].
    split; [exact Hfwd|]. split; [exact Hfind|]. split; [exact Hout|].
    split; [exact Hpn|]. split; [exact Hvals|]. split; [exact Hpi|].
    split; [exact Hni|].
    unfold blend. rewrite (nth_error_map3 _ _ _ _ i _ _ _ Hpi Hni Hout).
    unfold ipos_of. cbn [prev_frac next_frac]. rewrite Hbs', Hfs.
    cbn [fadd lift2 fdiv]. unfold Reqb.
    split.
    + intros Hfar.
      assert (Hsf : sf <> 0) by (intros ->; now apply Hfar).
      destruct (Req_dec_T (0 + sf) 0) as [E | _]; [lra|].
      replace (0 / (0 + sf)) with 0 by (field; lra).
      cbn [fsub lift2]. replace (1 - 0) with 1 by ring.
      split; [reflexivity|]. split; [reflexivity|].
      intros Hw. f_equal. now apply blend_one_zero.
    + intros Hfar. injection Hfar as ->.
      destruct (Req_dec_T (0 + 0) 0) as [_ | E]; [|lra].
      cbn [fsub lift2].
      split; [reflexivity|]. split; [reflexivity|].
      f_equal. apply blend_nan.
  - (* counter-current: plane k is the next plane *)
    destruct (pt_loop_zero_angle fuel (FWD_sign false) _ r z 0
                (start_tpoint (mk_qpoint r z (INR k * (2 * PI / INR P))
                                 prev next) (phif0 y)) _
                (Rlt_le _ _ Hd) Hon eq_refl eq_refl eq_refl HF)
      as (HfR' & HfZ' & Hfs').
    rewrite HfZ', HfR' in Hni.
    rewrite Hqn in Hni. cbn [bracket_next] in Hni.
    rewrite (pick_plane_unique CloughTocher2DInterpolator pts field kk ii pls
               _ _ j vals _ Hnd Hj Hvals) in Hni.
    cbn [fst snd] in Hni.
    exists (fwd_end y), (bwd_end y), (ipos_of (bwd_end y) (fwd_end y)), pn, vals.
    eexists.
    split; [exact Hrun|]. split; [exact Hfwd|]. split; [exact Hfs'|].
    split; [exact Hbwd|]. split; [exact Hfind|]. split; [exact Hout|].
    split; [exact Hpn|]. split; [exact Hvals|]. split; [exact Hni|].
    split; [exact Hpi|].
    unfold blend. rewrite (nth_error_map3 _ _ _ _ i _ _ _ Hpi Hni Hout).
    unfold ipos_of. cbn [prev_frac next_frac]. rewrite Hfs', Hbs.
    cbn [fadd lift2 fdiv]. unfold Reqb.
    split.
    + intros Hfar.
      assert (Hsb : sb <> 0) by (intros ->; now apply Hfar).
      destruct (Req_dec_T (sb + 0) 0) as [E | _]; [lra|].
      replace (sb / (sb + 0)) with 1 by (field; lra).
      cbn [fsub lift2]. replace (1 - 1) with 0 by ring.
      split; [reflexivity|]. split; [reflexivity|].
      intros Hw. f_equal. now apply blend_one_zero.
    + intros Hfar. injection Hfar as ->.
      destruct (Req_dec_T (0 + 0) 0) as [_ | E]; [|lra].
      cbn [fsub lift2].
      split; [reflexivity|]. split; [reflexivity|].
      f_equal. apply blend_nan.
Qed.

End OnPlane.

(** * A purely toroidal field *)

Section Toroidal.

Variable Nstage : nat.
Variable a : nat -> nat -> R.
Variable b : nat -> R.
Variables BR BZ BPhi : tri_interp.

Local Abbreviation pt_loop := (pt_loop Nstage a b BR BZ BPhi).
Local Abbreviation trace_step := (trace_step Nstage a b BR BZ BPhi).
Local Abbreviation weighted := (weighted Nstage b).

Variables r z bphi : R.
Hypothesis BR_zero : BR z r = Some 0.
Hypothesis BZ_zero : BZ z r = Some 0.
Hypothesis BPhi_there : BPhi z r = Some bphi.
Hypothesis bphi_nonzero : bphi <> 0.

Lemma stage_K_toroidal :
  stage_K BR BZ BPhi (Fin r) (Fin z) = (Fin 0, Fin 0, Fin r).
Proof.
  unfold stage_K, interp_call. rewrite BR_zero, BZ_zero, BPhi_there.
  cbn [masked_invalid].
  change (clean_nonfinite {| data := Fin 0; mask := false |})
    with (ma_of_nd (Fin 0)).
  rewrite !ma_true_divide_zero_num.
  assert (Hq : ma_true_divide (ma_of_nd (Fin 0)) {| data := Fin bphi; mask := false |}
               = ma_of_nd (Fin 0)).
  { unfold ma_true_divide, ma_of_nd. cbn [data mask fdiv].
    unfold Reqb. destruct (Req_dec_T bphi 0); [contradiction|].
    cbn. replace (0 / bphi) with 0 by (unfold Rdiv; ring). reflexivity. }
  rewrite Hq. do 2 f_equal.
  unfold ma_multiply, ma_add, ma_binop, ma_power2, np_sqrt, ma_of_nd.
  cbn [data mask orb negb isfinite fmul fadd lift2].
  unfold fsqrt, Rltb.
  destruct (Rlt_dec (1 + 0 * 0 + 0 * 0) 0) as [H | _]; [lra|].
  cbn. f_equal.
  replace (1 + 0 * 0 + 0 * 0) with 1 by ring. rewrite sqrt_1. ring.
Qed.

Lemma rk_stages_toroidal (step : R) :
  rk_stages Nstage a BR BZ BPhi (Fin r) (Fin z) step
  = repeat (Fin 0, Fin 0, Fin r) Nstage.
Proof.
  unfold rk_stages.
  assert (H : forall n s K,
            Forall flat K ->
            fold_left (rk_stage a BR BZ BPhi (Fin r) (Fin z) step) (seq s n) K
            = K ++ repeat (Fin 0, Fin 0, Fin r) n).
  { induction n as [|n IH]; intros s K HK; simpl.
    - now rewrite app_nil_r.
    - assert (Hstage : rk_stage a BR BZ BPhi (Fin r) (Fin z) step K s
                       = K ++ [(Fin 0, Fin 0, Fin r)]).
      { unfold rk_stage.
        rewrite (stage_pos_zeros a r step s _ (Forall_flat_K0 K HK)).
        rewrite (stage_pos_zeros a z step s _ (Forall_flat_K1 K HK)).
        now rewrite stage_K_toroidal. }
      rewrite Hstage, IH.
      + now rewrite <- app_assoc.
      + apply Forall_app. split; [assumption|].
        constructor; [split; reflexivity | constructor]. }
  apply (H Nstage 0%nat []). constructor.
Qed.

Lemma weighted_sum_repeat (f : fval * fval * fval -> fval) (x : R) :
  f (Fin 0, Fin 0, Fin r) = Fin x ->
  final_sum Nstage b (map f (repeat (Fin 0, Fin 0, Fin r) Nstage))
  = Fin (loader.weighted Nstage b x).
Proof.
  intros Hf. unfold final_sum, loader.weighted, fsum.
  assert (H : forall js acc,
            Forall (fun j => (j < Nstage)%nat) js ->
            fold_left fadd
              (map (fun j => fmul (Fin (b j))
                     (nth j (map f (repeat (Fin 0, Fin 0, Fin r) Nstage)) (Fin 0)))
                   js) (Fin acc)
            = Fin (fold_left Rplus (map (fun j => b j * x) js) acc)).
  { induction js as [|j js IH]; intros acc Hjs; [reflexivity|].
    inversion Hjs; subst. simpl.
    assert (Hn : nth j (map f (repeat (Fin 0, Fin 0, Fin r) Nstage)) (Fin 0)
                 = Fin x).
    { rewrite (nth_indep _ (Fin 0) (f (Fin 0, Fin 0, Fin r)))
        by (now rewrite length_map, repeat_length).
      rewrite map_nth. rewrite nth_repeat. exact Hf. }
    rewrite Hn. simpl. now apply IH. }
  apply H. apply Forall_forall. intros j Hj. apply in_seq in Hj. lia.
Qed.

(** One pass in a purely toroidal field: the position stays, the arc
    length grows by [|step| * sum_j b[j] * R]. *)
Lemma trace_step_toroidal (sign dphi s : R) (p : tpoint) :
  Rp p = Fin r -> Zp p = Fin z -> sp p = Fin s ->
  Rp (trace_step sign dphi p) = Fin r /\
  Zp (trace_step sign dphi p) = Fin z /\
  sp (trace_step sign dphi p)
  = Fin (s + Rabs (next_step sign dphi (rem p)) * weighted r).
Proof.
  intros HR HZ Hs.
  destruct (trace_step_zero_field Nstage a b BR BZ BPhi sign dphi r z p
              BR_zero BZ_zero (conj HR HZ)) as [HR' HZ'].
  split; [exact HR'|]. split; [exact HZ'|].
  unfold loader.trace_step, increments. cbn [sp K2 snd].
  rewrite HR, HZ, Hs, rk_stages_toroidal.
  rewrite (weighted_sum_repeat K2 r eq_refl). reflexivity.
Qed.

Hypothesis weight_pos : 0 < weighted r.

(** A trace over a nonzero angle in a purely toroidal field ends with a
    positive arc length. *)
Lemma pt_loop_toroidal_positive (fuel : nat) (sign dphi phi0 : R)
    (q : qpoint) (e : tpoint) :
  qR q = r -> qZ q = z -> 0 < dphi -> sign <> 0 -> phi0 <> 0 ->
  pt_loop fuel sign dphi true (start_tpoint q phi0) = Ret e ->
  exists s, sp e = Fin s /\ 0 < s.
Proof.
  intros HqR HqZ Hd Hsign Hphi He.
  destruct fuel as [|fuel]; [discriminate|]. cbn [loader.pt_loop] in He.
  set (p0 := start_tpoint q phi0) in *.
  destruct (trace_step_toroidal sign dphi 0 p0) as (HR1 & HZ1 & Hs1);
    try (unfold p0, start_tpoint; cbn; congruence).
  assert (Hstep : next_step sign dphi (rem p0) <> 0).
  { unfold next_step, Rltb, p0. cbn [rem start_tpoint].
    destruct (Rlt_dec dphi (Rabs phi0)); [|assumption].
    apply Rmult_integral_contrapositive. split; lra. }
  apply Rabs_pos_lt in Hstep.
  apply (pt_loop_invariant Nstage a b BR BZ BPhi sign dphi
           (fun p => Rp p = Fin r /\ Zp p = Fin z /\
                     exists s, sp p = Fin s /\ 0 < s)) in He.
  - apply He.
  - intros p (HR & HZ & s & Hs & Hpos).
    destruct (trace_step_toroidal sign dphi s p HR HZ Hs) as (HR' & HZ' & Hs').
    split; [exact HR'|]. split; [exact HZ'|].
    eexists. split; [exact Hs'|].
    pose proof (Rabs_pos (next_step sign dphi (rem p))). nra.
  - split; [exact HR1|]. split; [exact HZ1|].
    eexists. split; [exact Hs1|]. nra.
Qed.

End Toroidal.

Section ToroidalTraces.

Variable Nstage : nat.
Variable a : nat -> nat -> R.
Variable b : nat -> R.
Variables BR BZ BPhi : tri_interp.

(** In a purely toroidal field the trace away from the plane a point
    lies on has a nonzero arc length. *)
Lemma far_trace_nonzero (fuel P : nat) (co : bool) (Nstep : nat)
    (r3D z3D phi3D : list R) (i : nat) (r z bphi : R) :
  (0 < P)%nat -> (0 < Nstep)%nat -> (Nstep <= fuel)%nat ->
  length z3D = length r3D -> length phi3D = length r3D ->
  Forall (fun phi => 0 <= phi < 2 * PI) phi3D ->
  nth_error r3D i = Some r -> nth_error z3D i = Some z ->
  BR z r = Some 0 -> BZ z r = Some 0 -> BPhi z r = Some bphi ->
  bphi <> 0 -> 0 < weighted Nstage b r ->
  forall bwd fwd q,
    field_line_traces Nstage a b BR BZ BPhi fuel P co r3D z3D phi3D
      (fst (get_interp_planes P co phi3D)) (snd (get_interp_planes P co phi3D))
      Nstep = Ret (bwd, fwd) ->
    nth_error (if co then fwd else bwd) i = Some q -> sp q <> Fin 0.
Proof.
  intros HP HN Hfuel Hlz Hlphi Hrange Hr Hz HBR HBZ HBPhi Hb Hw bwd fwd q Hrun Hq.
  destruct (field_line_traces_run Nstage a b BR BZ BPhi fuel P co Nstep
              r3D z3D phi3D HP HN Hfuel Hlz Hlphi Hrange)
    as (ys & Hrun' & Hlen & Hpt).
  rewrite Hrun' in Hrun. injection Hrun as <- <-.
  destruct (nth_error phi3D i) as [phi|] eqn:Hphi.
  2:{ apply nth_error_None in Hphi.
      assert (i < length r3D)%nat by (apply nth_error_Some; congruence). lia. }
  destruct (Hpt i r z phi Hr Hz Hphi) as (prev & next & y & _ & _ & Hy & Hrel).
  destruct Hrel as (_ & _ & HF & HB & k & _ & _ & _ & _ & Hfar & _).
  pose proof (step_angle_pos P Nstep HP HN) as Hd.
  assert (Hpos : exists s, sp q = Fin s /\ 0 < s).
  { destruct co.
    - rewrite (map_nth_error fwd_end i ys Hy) in Hq. injection Hq as <-.
      eapply (pt_loop_toroidal_positive Nstage a b BR BZ BPhi r z bphi
                HBR HBZ HBPhi Hb Hw fuel (FWD_sign true)
                (2 * PI / INR P / INR Nstep) (phif0 y)
                (mk_qpoint r z phi prev next));
        try reflexivity; try assumption.
      cbn; lra.
    - rewrite (map_nth_error bwd_end i ys Hy) in Hq. injection Hq as <-.
      eapply (pt_loop_toroidal_positive Nstage a b BR BZ BPhi r z bphi
                HBR HBZ HBPhi Hb Hw fuel (BWD_sign false)
                (2 * PI / INR P / INR Nstep) (phib0 y)
                (mk_qpoint r z phi prev next));
        try reflexivity; try assumption.
      cbn; lra. }
  destruct Hpos as (s & Hs & Hs0). rewrite Hs. intros E. injection E as E. lra.
Qed.

End ToroidalTraces.

(** * Worked instances *)

Lemma weighted_midpoint (r : R) : weighted 2 midpoint_b r = r.
Proof. unfold weighted, midpoint_b. cbn. ring. Qed.

Lemma angle_zero_in_range (P : nat) :
  Forall (fun phi => 0 <= phi < 2 * PI) [INR 0 * (2 * PI / INR P)].
Proof.
  constructor; [|constructor]. cbn [INR]. rewrite Rmult_0_l.
  pose proof PI_RGT_0. lra.
Qed.

Lemma one_in_range : Forall (fun phi => 0 <= phi < 2 * PI) [1].
Proof.
  constructor; [|constructor]. pose proof two_pi_gt_4. lra.
Qed.

Lemma on_square_corner : on_square 0 1 = true.
Proof.
  unfold on_square, Rleb.
  repeat match goal with
         | |- context [Rle_dec ?x ?y] => destruct (Rle_dec x y); try lra
         end; reflexivity.
Qed.

Lemma trace_iter_increments_finite_witness :
  Forall tfinite
    (trace_iter 2 midpoint_a midpoint_b (fun _ _ => None) (fun _ _ => None)
       unit_field 1 (1 / 2) [true] [mk_tpoint 1 (Fin 5) (Fin 0) (Fin 0)]).
Proof.
  apply (trace_iter_increments_finite 2 midpoint_a midpoint_b
           (fun _ _ => None) (fun _ _ => None) unit_field 1 (1 / 2) [true]
           [mk_tpoint 1 (Fin 5) (Fin 0) (Fin 0)]).
  constructor; [|constructor]. repeat split.
Defined.

Lemma zero_poloidal_field_keeps_position_witness :
  exists out : list ipos,
    find_interp_positions_v2_upgrade 2 midpoint_a midpoint_b
      zero_field zero_field unit_field 3 2 true [1] [0] [1]
      (fst (get_interp_planes 2 true [1])) (snd (get_interp_planes 2 true [1])) 3
    = Ret out /\
    exists o : ipos,
      nth_error out 0 = Some o /\
      prevR o = Fin 1 /\ prevZ o = Fin 0 /\ nextR o = Fin 1 /\ nextZ o = Fin 0.
Proof.
  destruct (zero_poloidal_field_keeps_position 2 midpoint_a midpoint_b
              zero_field zero_field unit_field 3 2 true 3 [1] [0] [1])
    as (out & Hout & _ & Hpt).
  - lia.
  - lia.
  - lia.
  - reflexivity.
  - reflexivity.
  - exact one_in_range.
  - intros i r z _ _. split; reflexivity.
  - exists out. split; [exact Hout|]. apply (Hpt 0%nat 1 0); reflexivity.
Defined.

Lemma outside_value_is_linear_extrapolation_witness :
  exists psi_on_grid B_on_grid : ndarr,
    arrays (snd (interpolate_all_on_grid_2D small_hull small_interpolator
                   small_report small_run_2D)) "psi_on_grid"
    = Some psi_on_grid /\
    arrays (snd (interpolate_all_on_grid_2D small_hull small_interpolator
                   small_report small_run_2D)) "B_on_grid"
    = Some B_on_grid.
Proof.
  destruct (outside_value_is_linear_extrapolation small_hull small_interpolator
              small_report small_run_2D small_grid_2D
              (square_field 1) (square_field 2) [(0, 1)] [(0, 1)])
    as (p & q & Hp & Hq & _).
  - reflexivity.
  - reflexivity.
  - reflexivity.
  - reflexivity.
  - reflexivity.
  - discriminate.
  - intros v [<- | []]. exists 1, 0, 0. cbn. rewrite on_square_corner. now split.
  - intros v [<- | []]. exists 2, 0, 0. cbn. rewrite on_square_corner. now split.
  - exists p, q. split; [exact Hp | exact Hq].
Defined.

(** * Further properties of the plane bracketing *)

Lemma wrapped_plane (P k : nat) :
  (k < P)%nat ->
  (if Nat.eqb (S k) P then 0%Z else Z.of_nat (S k)) = Z.of_nat (S k mod P).
Proof.
  intros Hk. destruct (Nat.eqb_spec (S k) P) as [He | Hne].
  - rewrite He, Nat.Div0.mod_same. reflexivity.
  - rewrite Nat.mod_small by lia. reflexivity.
Qed.

(** X1.  For an angle in [0, 2*pi) the two planes of [get_interp_planes]
    are the adjacent planes [k] and [k+1] (plane [P] being plane 0) whose
    angles enclose it: [phi_k <= phi < phi_k + 2*pi/P].  With a co-current
    field [k] is the previous plane, otherwise the next one. *)
Theorem get_interp_planes_adjacent (P : nat) (co : bool) (phi3D : list R)
    (i : nat) (phi : R) :
  (0 < P)%nat -> nth_error phi3D i = Some phi -> 0 <= phi < 2 * PI ->
  exists k : nat,
    (k < P)%nat /\
    nth k (phi_planes P) 0 <= phi < nth k (phi_planes P) 0 + 2 * PI / INR P /\
    nth_error (fst (get_interp_planes P co phi3D)) i
    = Some (Z.of_nat (if co then k else S k mod P)) /\
    nth_error (snd (get_interp_planes P co phi3D)) i
    = Some (Z.of_nat (if co then S k mod P else k)).
Proof.
  intros HP Hi Hphi.
  destruct (searchsorted_right_bracket P phi HP Hphi) as (k & Hss & Hk & Hlo & Hhi).
  destruct (get_interp_planes_bracket P co phi3D i phi k Hi Hss) as [Hp Hn].
  exists k. split; [exact Hk|].
  rewrite nth_phi_planes by exact Hk.
  split; [rewrite S_INR in Hhi; lra|].
  rewrite Hp, Hn. unfold bracket_prev, bracket_next.
  rewrite (wrapped_plane P k Hk). destruct co; split; reflexivity.
Qed.

Lemma get_interp_planes_adjacent_witness :
  exists k : nat,
    (k < 16)%nat /\
    nth_error (fst (get_interp_planes 16 false [1])) 0
    = Some (Z.of_nat (S k mod 16)) /\
    nth_error (snd (get_interp_planes 16 false [1])) 0 = Some (Z.of_nat k).
Proof.
  destruct (get_interp_planes_adjacent 16 false [1] 0 1) as (k & Hk & _ & Hp & Hn).
  - lia.
  - reflexivity.
  - pose proof two_pi_gt_4. lra.
  - exists k. split; [exact Hk|]. split; [exact Hp | exact Hn].
Defined.

(** * Cylindrical coordinates of a 3-D grid *)

Lemma hypot_factor (x z : R) :
  x <> 0 -> sqrt (x ^ 2 + z ^ 2) = Rabs x * sqrt (1 + (- z / x)²).
Proof.
  intros Hx. rewrite <- sqrt_Rsqr_abs, <- sqrt_mult_alt by apply Rle_0_sqr.
  f_equal. unfold Rsqr. field. exact Hx.
Qed.

Lemma sqrt_one_plus_sqr_pos (t : R) : 0 < sqrt (1 + t²).
Proof. apply sqrt_lt_R0. pose proof (Rle_0_sqr t). lra. Qed.

Lemma polar_of_atan (x z : R) :
  x <> 0 ->
  sqrt (x ^ 2 + z ^ 2) * cos (atan (- z / x)) = Rabs x /\
  sqrt (x ^ 2 + z ^ 2) * sin (atan (- z / x)) = Rabs x * (- z / x).
Proof.
  intros Hx. rewrite (hypot_factor x z Hx), cos_atan, sin_atan.
  pose proof (sqrt_one_plus_sqr_pos (- z / x)) as Hs.
  split; field; lra.
Qed.

Lemma cos_shift (p : R) : cos (p + 2 * PI) = cos p.
Proof. rewrite cos_plus, cos_2PI, sin_2PI. ring. Qed.

Lemma sin_shift (p : R) : sin (p + 2 * PI) = sin p.
Proof. rewrite sin_plus, cos_2PI, sin_2PI. ring. Qed.

(** The angle that [ToCylindrical] gives to a point lies in [0, 2*pi), and
    with [r = sqrt(X**2 + Z**2)] it gives the point back:
    [X = r*cos(phi)], [Z = -r*sin(phi)]. *)
Lemma cyl_phi_spec (x z : R) :
  0 <= cyl_phi x z < 2 * PI /\
  x = sqrt (x ^ 2 + z ^ 2) * cos (cyl_phi x z) /\
  z = - (sqrt (x ^ 2 + z ^ 2) * sin (cyl_phi x z)).
Proof.
  pose proof PI_RGT_0 as Hpi.
  unfold cyl_phi, np_sign, Reqb, Rltb.
  destruct (Req_dec_T x 0) as [Hx0 | Hx0].
  - subst x. destruct (Rlt_dec 0 0) as [H | _]; [lra|].
    replace (0 ^ 2 + z ^ 2) with (z * z) by ring.
    destruct (Rlt_dec z 0) as [Hz | Hz].
    + destruct (Rlt_dec (- PI / 2 * -1) 0) as [H | _]; [lra|].
      replace (- PI / 2 * -1) with (PI / 2) by field.
      rewrite cos_PI2, sin_PI2.
      replace (z * z) with ((- z) * (- z)) by ring.
      rewrite sqrt_square by lra.
      split; [lra|]. split; ring.
    + destruct (Rlt_dec 0 z) as [Hz' | Hz'].
      * destruct (Rlt_dec (- PI / 2 * 1) 0) as [_ | H]; [|lra].
        replace (- PI / 2 * 1 + 2 * PI) with (3 * (PI / 2)) by field.
        rewrite cos_3PI2, sin_3PI2, sqrt_square by lra.
        split; [lra|]. split; ring.
      * assert (z = 0) by lra. subst z.
        replace (- PI / 2 * 0) with 0 by field.
        destruct (Rlt_dec 0 0) as [H | _]; [lra|].
        rewrite cos_0, sin_0, Rmult_0_l, sqrt_0.
        split; [lra|]. split; ring.
  - destruct (polar_of_atan x z Hx0) as [Hc Hs].
    pose proof (atan_bound (- z / x)) as [Hlo Hhi].
    destruct (Rlt_dec x 0) as [Hx | Hx].
    + destruct (Rlt_dec (atan (- z / x) + PI) 0) as [H | _]; [lra|].
      rewrite neg_cos, neg_sin.
      rewrite Rabs_left in Hc, Hs by exact Hx.
      split; [lra|]. split.
      * transitivity (- (sqrt (x ^ 2 + z ^ 2) * cos (atan (- z / x)))); [lra | ring].
      * transitivity (sqrt (x ^ 2 + z ^ 2) * sin (atan (- z / x))); [|ring].
        rewrite Hs. field. exact Hx0.
    + rewrite Rabs_right in Hc, Hs by lra.
      assert (Hz : z = - (sqrt (x ^ 2 + z ^ 2) * sin (atan (- z / x)))).
      { rewrite Hs. field. exact Hx0. }
      destruct (Rlt_dec (atan (- z / x)) 0) as [Hneg | Hpos].
      * rewrite cos_shift, sin_shift. split; [lra|]. split; [lra | exact Hz].
      * split; [lra|]. split; [lra | exact Hz].
Qed.

Lemma length_flat_map_const {A B : Type} (f : A -> list B) (n : nat)
    (l : list A) :
  (forall x, length (f x) = n) -> length (flat_map f l) = (length l * n)%nat.
Proof.
  intros Hf. induction l as [|x l IH]; [reflexivity|].
  cbn [flat_map length]. rewrite length_app, Hf, IH. reflexivity.
Qed.

Lemma length_mesh3D (g : grid3D) :
  length (mesh3D g)
  = (length (g3_Z1D g) * (length (g3_Y1D g) * length (g3_X1D g)))%nat.
Proof.
  unfold mesh3D. apply length_flat_map_const. intros z.
  apply length_flat_map_const. intros y. apply length_map.
Qed.

(** X2.  [ToCylindrical] on a grid that has no cylindrical coordinates
    yet creates one [(r, z, phi)] triple per grid point, in the order of
    the grid; for the point [(X, Y, Z)] the height is [Y], the radius is
    not negative, the angle lies in [0, 2*pi), and the triple gives the
    point back: [X = r*cos(phi)] and [Z = -r*sin(phi)]. *)
Theorem ToCylindrical_gives_the_points_back (g : grid3D) :
  g3_cyl g = None ->
  exists c : cylindrical,
    g3_cyl (ToCylindrical g) = Some c /\
    length (r3D c)
    = (length (g3_Z1D g) * (length (g3_Y1D g) * length (g3_X1D g)))%nat /\
    length (z3D c) = length (r3D c) /\ length (phi3D c) = length (r3D c) /\
    forall i x y z,
      nth_error (mesh3D g) i = Some (x, y, z) ->
      exists r phi : R,
        nth_error (r3D c) i = Some r /\ nth_error (z3D c) i = Some y /\
        nth_error (phi3D c) i = Some phi /\
        0 <= r /\ 0 <= phi < 2 * PI /\
        x = r * cos phi /\ z = - (r * sin phi).
Proof.
  intros Hnone. unfold ToCylindrical. rewrite Hnone. cbn [g3_cyl].
  eexists. split; [reflexivity|]. cbn [r3D z3D phi3D].
  rewrite !length_map, length_mesh3D.
  split; [reflexivity|]. split; [reflexivity|]. split; [reflexivity|].
  intros i x y z Hi.
  exists (sqrt (x ^ 2 + z ^ 2)), (cyl_phi x z).
  split; [exact (map_nth_error (fun p => sqrt (fst (fst p) ^ 2 + snd p ^ 2)) i _ Hi)|].
  split; [exact (map_nth_error (fun p => snd (fst p)) i _ Hi)|].
  split; [exact (map_nth_error (fun p => cyl_phi (fst (fst p)) (snd p)) i _ Hi)|].
  split; [apply sqrt_pos|].
  apply cyl_phi_spec.
Qed.

Lemma ToCylindrical_gives_the_points_back_witness :
  exists c : cylindrical,
    g3_cyl (ToCylindrical (mk_grid3D [5] [0] [0] None)) = Some c /\
    length (r3D c) = 1%nat.
Proof.
  destruct (ToCylindrical_gives_the_points_back (mk_grid3D [5] [0] [0] None))
    as (c & Hc & Hlen & _).
  - reflexivity.
  - exists c. split; [exact Hc | exact Hlen].
Defined.

(** * The planes of a cylindrical grid *)

Lemma bracket_in_range (P : nat) (co : bool) (k : nat) :
  (k < P)%nat ->
  (0 <= bracket_prev P co k < Z.of_nat P)%Z /\
  (0 <= bracket_next P co k < Z.of_nat P)%Z.
Proof.
  intros Hk. unfold bracket_prev, bracket_next.
  destruct co; destruct (Nat.eqb_spec (S k) P); lia.
Qed.

Lemma get_interp_planes_all_in_range (P : nat) (co : bool) (phi3D : list R) :
  (0 < P)%nat -> Forall (fun phi => 0 <= phi < 2 * PI) phi3D ->
  Forall (fun p => (0 <= p < Z.of_nat P)%Z) (fst (get_interp_planes P co phi3D)) /\
  Forall (fun p => (0 <= p < Z.of_nat P)%Z) (snd (get_interp_planes P co phi3D)).
Proof.
  intros HP Hall.
  destruct (get_interp_planes_length P co phi3D) as [Hlp Hln].
  assert (H : forall i phi, nth_error phi3D i = Some phi ->
            exists k, (k < P)%nat /\
              nth_error (fst (get_interp_planes P co phi3D)) i
              = Some (bracket_prev P co k) /\
              nth_error (snd (get_interp_planes P co phi3D)) i
              = Some (bracket_next P co k)).
  { intros i phi Hi.
    assert (Hphi : 0 <= phi < 2 * PI).
    { rewrite Forall_forall in Hall. apply Hall. eapply nth_error_In. exact Hi. }
    destruct (searchsorted_right_bracket P phi HP Hphi) as (k & Hss & Hk & _).
    exists k. split; [exact Hk|].
    exact (get_interp_planes_bracket P co phi3D i phi k Hi Hss). }
  assert (Hin : forall i, (i < length phi3D)%nat ->
              exists phi, nth_error phi3D i = Some phi).
  { intros i Hi. destruct (nth_error phi3D i) as [phi|] eqn:E; [eauto|].
    apply nth_error_None in E. lia. }
  split; apply Forall_forall; intros p Hp;
    apply In_nth_error in Hp; destruct Hp as [i Hp].
  - assert (Hi : (i < length phi3D)%nat)
      by (rewrite <- Hlp; apply nth_error_Some; congruence).
    destruct (Hin i Hi) as [phi Hphi].
    destruct (H i phi Hphi) as (k & Hk & Hprev & Hnext).
    destruct (bracket_in_range P co k Hk) as [H1 H2]. congruence.
  - assert (Hi : (i < length phi3D)%nat)
      by (rewrite <- Hln; apply nth_error_Some; congruence).
    destruct (Hin i Hi) as [phi Hphi].
    destruct (H i phi Hphi) as (k & Hk & Hprev & Hnext).
    destruct (bracket_in_range P co k Hk) as [H1 H2]. congruence.
Qed.

(** X3.  What the constructor does for a 3-D grid, [grid.ToCylindrical()]
    followed by [get_interp_planes(self)]: whatever the Cartesian grid,
    [self.prevplane] and [self.nextplane] get one entry per grid point
    and every entry is a plane number in [0 .. n_plane-1]; nothing is
    raised. *)
Theorem planes_of_a_cartesian_grid_in_range (s : XGC_Loader) (g : grid3D)
    (P : nat) (co : bool) :
  g3_cyl g = None -> grid s = Cartesian3D (ToCylindrical g) ->
  n_plane s = Some P -> (0 < P)%nat -> CO_DIR s = Some co ->
  exists prevs nexts : list Z,
    set_planes_from_grid s = (Ret tt, set_interp_planes (prevs, nexts) s) /\
    length prevs = length (mesh3D g) /\ length nexts = length (mesh3D g) /\
    Forall (fun p => (0 <= p < Z.of_nat P)%Z) prevs /\
    Forall (fun p => (0 <= p < Z.of_nat P)%Z) nexts.
Proof.
  intros Hnone Hg Hnp HP Hco.
  set (c := mk_cylindrical
              (map (fun p => sqrt (fst (fst p) ^ 2 + snd p ^ 2)) (mesh3D g))
              (map (fun p => snd (fst p)) (mesh3D g))
              (map (fun p => cyl_phi (fst (fst p)) (snd p)) (mesh3D g))).
  assert (Hc : g3_cyl (ToCylindrical g) = Some c)
    by (unfold ToCylindrical; rewrite Hnone; reflexivity).
  exists (fst (get_interp_planes P co (phi3D c))),
         (snd (get_interp_planes P co (phi3D c))).
  split.
  - unfold set_planes_from_grid.
    rewrite (mbind_ret (getattr "n_plane" n_plane) _ s s P)
      by (unfold getattr; now rewrite Hnp).
    rewrite (mbind_ret (getattr "CO_DIR" CO_DIR) _ s s co)
      by (unfold getattr; now rewrite Hco).
    rewrite (mbind_ret grid_3D _ s s (ToCylindrical g, c))
      by (unfold grid_3D; now rewrite Hg, Hc).
    cbn [snd]. unfold modify. now rewrite <- surjective_pairing.
  - destruct (get_interp_planes_length P co (phi3D c)) as [Hlp Hln].
    rewrite Hlp, Hln. unfold c at 1 2. cbn [phi3D]. rewrite length_map.
    split; [reflexivity|]. split; [reflexivity|].
    apply get_interp_planes_all_in_range; [exact HP|].
    unfold c. cbn [phi3D]. apply Forall_forall. intros phi Hphi.
    apply in_map_iff in Hphi. destruct Hphi as [p [<- _]].
    apply cyl_phi_spec.
Qed.

Lemma planes_of_a_cartesian_grid_in_range_witness :
  exists prevs nexts : list Z,
    set_planes_from_grid small_run
    = (Ret tt, set_interp_planes (prevs, nexts) small_run) /\
    length prevs = 1%nat.
Proof.
  destruct (planes_of_a_cartesian_grid_in_range small_run
              (mk_grid3D [5] [0] [0] None) 2 true)
    as (prevs & nexts & Hrun & Hlen & _).
  - reflexivity.
  - reflexivity.
  - reflexivity.
  - lia.
  - reflexivity.
  - exists prevs, nexts. split; [exact Hrun | exact Hlen].
Defined.

(** * Further properties of the tracer *)

(** The two starting angles of a point between planes [k] and [k+1]. *)
Lemma initial_angle_values (P : nat) (co : bool) (q : qpoint) (k : nat) :
  (k < P)%nat ->
  INR k * (2 * PI / INR P) <= qPhi q < INR (S k) * (2 * PI / INR P) ->
  qprev q = bracket_prev P co k ->
  qnext q = bracket_next P co k ->
  phiFWD_init P co q
  = Ret (if co then INR (S k) * (2 * PI / INR P) - qPhi q
         else INR k * (2 * PI / INR P) - qPhi q) /\
  phiBWD_init P co q
  = Ret (if co then INR k * (2 * PI / INR P) - qPhi q
         else INR (S k) * (2 * PI / INR P) - qPhi q).
Proof.
  intros Hk [Hlo Hhi] Hprev Hnext.
  assert (HP : (0 < P)%nat) by lia.
  pose proof (plane_spacing_full P HP) as Hfull.
  assert (Hfar : forall far : Z,
            far = (if Nat.eqb (S k) P then 0%Z else Z.of_nat (S k)) ->
            exists x, np_take (phi_planes P) far = Ret x /\
              (if Z.eqb far 0 then PI * 2 - qPhi q else x - qPhi q)
              = INR (S k) * (2 * PI / INR P) - qPhi q).
  { intros far ->. destruct (Nat.eqb_spec (S k) P) as [He | Hne].
    - exists (INR 0 * (2 * PI / INR P)).
      split; [apply (np_take_phi_planes P 0 HP)|].
      cbn [Z.eqb]. rewrite He, Hfull. ring.
    - exists (INR (S k) * (2 * PI / INR P)).
      split; [apply np_take_phi_planes; lia|].
      replace (Z.of_nat (S k) =? 0)%Z with false
        by (symmetry; apply Z.eqb_neq; lia).
      reflexivity. }
  assert (Hnear : np_take (phi_planes P) (Z.of_nat k)
                  = Ret (INR k * (2 * PI / INR P)))
    by (now apply np_take_phi_planes).
  unfold phiFWD_init, phiBWD_init.
  rewrite Hprev, Hnext. unfold bracket_prev, bracket_next.
  destruct (Hfar _ eq_refl) as (x & Hx & Hval).
  destruct co; rewrite Hx, Hnear; cbn [bind]; rewrite Hval; split; reflexivity.
Qed.

Lemma fraction_of_spacing (x d w : R) :
  0 < d -> w <> 0 ->
  x * w / (d * w) = x / d /\ 1 - x * w / (d * w) = (d - x) / d.
Proof. intros Hd Hw. split; field; split; lra. Qed.

Section TracerFacts.

Variable Nstage : nat.
Variable a : nat -> nat -> R.
Variable b : nat -> R.
Variables BR BZ BPhi : tri_interp.

Local Abbreviation pt_loop := (pt_loop Nstage a b BR BZ BPhi).
Local Abbreviation trace_step := (trace_step Nstage a b BR BZ BPhi).
Local Abbreviation field_line_traces := (field_line_traces Nstage a b BR BZ BPhi).
Local Abbreviation find_interp_positions_v2_upgrade :=
  (find_interp_positions_v2_upgrade Nstage a b BR BZ BPhi).
Local Abbreviation traced_as := (traced_as Nstage a b BR BZ BPhi).
Local Abbreviation weighted := (weighted Nstage b).

(** The tracer point by point: what it returns at an index is made of the
    ends of the two traces of that index. *)
Lemma find_interp_positions_pointwise (fuel P : nat) (co : bool)
    (Nstep : nat) (r3D z3D phi3D : list R) :
  (0 < P)%nat -> (0 < Nstep)%nat -> (Nstep <= fuel)%nat ->
  length z3D = length r3D -> length phi3D = length r3D ->
  Forall (fun phi => 0 <= phi < 2 * PI) phi3D ->
  exists out : list ipos,
    find_interp_positions_v2_upgrade fuel P co r3D z3D phi3D
      (fst (get_interp_planes P co phi3D)) (snd (get_interp_planes P co phi3D))
      Nstep = Ret out /\
    length out = length r3D /\
    forall i r z phi,
      nth_error r3D i = Some r -> nth_error z3D i = Some z ->
      nth_error phi3D i = Some phi ->
      exists prev next y,
        traced_as fuel P co Nstep (mk_qpoint r z phi prev next) y /\
        nth_error out i = Some (ipos_of (bwd_end y) (fwd_end y)).
Proof.
  intros HP HN Hfuel Hlz Hlphi Hrange.
  destruct (field_line_traces_run Nstage a b BR BZ BPhi fuel P co Nstep
              r3D z3D phi3D HP HN Hfuel Hlz Hlphi Hrange)
    as (ys & Hrun & Hlen & Hpt).
  eexists. unfold loader.find_interp_positions_v2_upgrade.
  rewrite Hrun. cbn [bind fst snd].
  split; [reflexivity|].
  split; [now rewrite length_map, length_combine_map|].
  intros i r z phi Hr Hz Hphi.
  destruct (Hpt i r z phi Hr Hz Hphi) as (prev & next & y & _ & _ & Hy & Hrel).
  exists prev, next, y. split; [exact Hrel|].
  apply (map_nth_error (fun bf => ipos_of (fst bf) (snd bf)) i
           (combine (map bwd_end ys) (map fwd_end ys))
           (d := (bwd_end y, fwd_end y))).
  now apply nth_error_combine_map.
Qed.

(** A trace that has returned has no angle left to cover. *)
Lemma pt_loop_ends_on_plane (sign dphi : R) :
  forall (n : nat) (i : bool) (p e : tpoint),
    (i = false -> rem p = 0) ->
    pt_loop n sign dphi i p = Ret e -> rem e = 0.
Proof.
  induction n as [|n IH]; intros i p e Hi H.
  - destruct i; [discriminate|]. simpl in H. injection H as <-. now apply Hi.
  - destruct i; simpl in H.
    + eapply IH; [|exact H]. apply still_tracing_false.
    + injection H as <-. now apply Hi.
Qed.

Section ToroidalLength.

Variables r z bphi : R.
Hypothesis BR_zero : BR z r = Some 0.
Hypothesis BZ_zero : BZ z r = Some 0.
Hypothesis BPhi_there : BPhi z r = Some bphi.
Hypothesis bphi_nonzero : bphi <> 0.

(** In a purely toroidal field a trace stays at its (R, Z) and its arc
    length is the angle it covers times [sum_j b[j] * R]. *)
Lemma pt_loop_toroidal_length (fuel : nat) (sign dphi phi0 : R) (q : qpoint)
    (e : tpoint) :
  qR q = r -> qZ q = z -> sign = 1 \/ sign = -1 -> 0 < dphi ->
  0 <= sign * phi0 ->
  pt_loop fuel sign dphi true (start_tpoint q phi0) = Ret e ->
  Rp e = Fin r /\ Zp e = Fin z /\ sp e = Fin (Rabs phi0 * weighted r).
Proof.
  intros HqR HqZ Hsign Hd Hphi0 He.
  pose proof (pt_loop_ends_on_plane sign dphi fuel true _ e
                (fun H => ltac:(discriminate)) He) as Hrem.
  apply (pt_loop_invariant Nstage a b BR BZ BPhi sign dphi
           (fun p => Rp p = Fin r /\ Zp p = Fin z /\ 0 <= sign * rem p /\
                     sp p = Fin ((Rabs phi0 - Rabs (rem p)) * weighted r)))
    in He.
  - destruct He as (HR & HZ & _ & Hs). split; [exact HR|]. split; [exact HZ|].
    rewrite Hs, Hrem, Rabs_R0. f_equal. ring.
  - intros p (HR & HZ & Hsg & Hs).
    destruct (trace_step_toroidal Nstage a b BR BZ BPhi r z bphi
                BR_zero BZ_zero BPhi_there bphi_nonzero sign dphi _ p HR HZ Hs)
      as (HR' & HZ' & Hs').
    split; [exact HR'|]. split; [exact HZ'|].
    rewrite Hs'. rewrite (rem_trace_step Nstage a b BR BZ BPhi sign dphi p).
    unfold next_step, Rltb.
    destruct (Rlt_dec dphi (Rabs (rem p))) as [Hbig | Hsmall].
    + assert (Habs : Rabs (sign * dphi) = dphi)
        by (destruct Hsign as [-> | ->];
            [rewrite Rmult_1_l, Rabs_right; lra
            |rewrite Rabs_left; lra]).
      assert (Hrest : Rabs (rem p - sign * dphi) = Rabs (rem p) - dphi /\
                      0 <= sign * (rem p - sign * dphi)).
      { destruct Hsign as [-> | ->].
        - rewrite Rabs_right in Hbig by lra.
          rewrite (Rabs_right (rem p)) by lra.
          rewrite Rabs_right by lra. split; lra.
        - rewrite Rabs_left1 in Hbig by lra.
          rewrite (Rabs_left1 (rem p)) by lra.
          rewrite Rabs_left1 by lra. split; lra. }
      destruct Hrest as [Hrest Hsg']. split; [exact Hsg'|].
      rewrite Habs, Hrest. f_equal. ring.
    + replace (rem p - rem p) with 0 by ring. rewrite Rabs_R0.
      split; [lra|]. f_equal. ring.
  - unfold start_tpoint. cbn [Rp Zp rem sp]. rewrite HqR, HqZ.
    split; [reflexivity|]. split; [reflexivity|]. split; [exact Hphi0|].
    f_equal. ring.
Qed.

End ToroidalLength.

(** X4.  Straight field lines: where B_R and B_Z vanish and B_phi does
    not, at a query point with [sum_j b[j] * R <> 0], the tracer lands on
    the point's own (R, Z) on both planes and the blend fractions are the
    fractions of the toroidal angle between the two planes [k] and [k+1]
    that enclose the point: the blend is the linear interpolation in the
    angle, whatever the number of steps. *)
Theorem toroidal_field_blends_by_angle (fuel P : nat) (co : bool)
    (Nstep : nat) (r3D z3D phi3D : list R) (i : nat) (r z phi bphi : R) :
  (0 < P)%nat -> (0 < Nstep)%nat -> (Nstep <= fuel)%nat ->
  length z3D = length r3D -> length phi3D = length r3D ->
  Forall (fun phi => 0 <= phi < 2 * PI) phi3D ->
  nth_error r3D i = Some r -> nth_error z3D i = Some z ->
  nth_error phi3D i = Some phi ->
  BR z r = Some 0 -> BZ z r = Some 0 -> BPhi z r = Some bphi -> bphi <> 0 ->
  weighted r <> 0 ->
  exists (k : nat) (out : list ipos) (o : ipos),
    (k < P)%nat /\
    (INR k * (2 * PI / INR P) <= phi < INR (S k) * (2 * PI / INR P)) /\
    find_interp_positions_v2_upgrade fuel P co r3D z3D phi3D
      (fst (get_interp_planes P co phi3D)) (snd (get_interp_planes P co phi3D))
      Nstep = Ret out /\
    nth_error out i = Some o /\
    prevR o = Fin r /\ prevZ o = Fin z /\ nextR o = Fin r /\ nextZ o = Fin z /\
    prev_frac o
    = Fin ((if co then phi - INR k * (2 * PI / INR P)
            else INR (S k) * (2 * PI / INR P) - phi) / (2 * PI / INR P)) /\
    next_frac o
    = Fin ((if co then INR (S k) * (2 * PI / INR P) - phi
            else phi - INR k * (2 * PI / INR P)) / (2 * PI / INR P)).
Proof.
  intros HP HN Hfuel Hlz Hlphi Hrange Hr Hz Hphi HBR HBZ HBPhi Hb Hw.
  destruct (find_interp_positions_pointwise fuel P co Nstep r3D z3D phi3D
              HP HN Hfuel Hlz Hlphi Hrange) as (out & Hout & _ & Hpt).
  destruct (Hpt i r z phi Hr Hz Hphi) as (prev & next & y & Hrel & Hy).
  destruct Hrel as (HF0 & HB0 & HF & HB & k & Hk & Hbr & Hqp & Hqn & _).
  cbn [qPhi qprev qnext] in Hbr, Hqp, Hqn.
  destruct (initial_angle_values P co (mk_qpoint r z phi prev next) k Hk Hbr
              Hqp Hqn) as [HF1 HB1].
  rewrite HF0 in HF1. rewrite HB0 in HB1.
  injection HF1 as HF1. injection HB1 as HB1. cbn [qPhi] in HF1, HB1.
  change (match k with O => 1 | S _ => INR k + 1 end) with (INR (S k))
    in HF1, HB1.
  pose proof (plane_spacing_pos P HP) as Hd.
  pose proof (step_angle_pos P Nstep HP HN) as Hstep.
  destruct Hbr as [Hlo Hhi].
  assert (HsF : 0 <= FWD_sign co * phif0 y)
    by (rewrite HF1; unfold FWD_sign; destruct co; cbv beta iota; lra).
  assert (HsB : 0 <= BWD_sign co * phib0 y)
    by (rewrite HB1; unfold BWD_sign; destruct co; cbv beta iota; lra).
  destruct (pt_loop_toroidal_length r z bphi HBR HBZ HBPhi Hb fuel
              (FWD_sign co) _ (phif0 y) (mk_qpoint r z phi prev next)
              (fwd_end y) eq_refl eq_refl
              (sign_unit_FWD co) Hstep HsF HF) as (HRf & HZf & Hsf).
  destruct (pt_loop_toroidal_length r z bphi HBR HBZ HBPhi Hb fuel
              (BWD_sign co) _ (phib0 y) (mk_qpoint r z phi prev next)
              (bwd_end y) eq_refl eq_refl
              (sign_unit_BWD co) Hstep HsB HB) as (HRb & HZb & Hsb).
  exists k, out, (ipos_of (bwd_end y) (fwd_end y)).
  split; [exact Hk|]. split; [split; assumption|].
  split; [exact Hout|]. split; [exact Hy|].
  unfold ipos_of. cbn [prevR prevZ nextR nextZ prev_frac next_frac].
  split; [exact HRb|]. split; [exact HZb|].
  split; [exact HRf|]. split; [exact HZf|].
  rewrite Hsb, Hsf. cbn [fadd lift2 fdiv].
  assert (Habs : Rabs (phib0 y) + Rabs (phif0 y) = 2 * PI / INR P /\
                 Rabs (phib0 y)
                 = (if co then phi - INR k * (2 * PI / INR P)
                    else INR (S k) * (2 * PI / INR P) - phi)).
  { rewrite HF1, HB1. rewrite S_INR in *. destruct co.
    - rewrite Rabs_left1 by lra. rewrite Rabs_right by lra. split; lra.
    - rewrite Rabs_right by lra. rewrite Rabs_left1 by lra. split; lra. }
  destruct Habs as [Hsum Hback].
  assert (Hden : Rabs (phib0 y) * weighted r + Rabs (phif0 y) * weighted r
                 = 2 * PI / INR P * weighted r)
    by (rewrite <- Hsum; ring).
  rewrite Hden. unfold Reqb.
  destruct (Req_dec_T (2 * PI / INR P * weighted r) 0) as [H0 | _].
  { apply Rmult_integral in H0. destruct H0; [lra | contradiction]. }
  cbn [fsub lift2]. rewrite Hback.
  destruct (fraction_of_spacing
              (if co then phi - INR k * (2 * PI / INR P)
               else INR (S k) * (2 * PI / INR P) - phi)
              (2 * PI / INR P) (weighted r) Hd Hw) as [E1 E2].
  rewrite E1. split; [reflexivity|]. f_equal. rewrite S_INR.
  clear - Hd. remember (2 * PI / INR P) as d. destruct co; field; lra.
Qed.

Section OutsideTheMesh.

Variables r z : R.
Hypothesis BR_out : BR z r = None.
Hypothesis BZ_out : BZ z r = None.
Hypothesis BPhi_out : BPhi z r = None.

Lemma stage_K_outside :
  stage_K BR BZ BPhi (Fin r) (Fin z) = (Fin 0, Fin 0, Fin 0).
Proof.
  unfold stage_K, interp_call. rewrite BR_out, BZ_out, BPhi_out.
  change (clean_nonfinite (masked_invalid None)) with (ma_of_nd (Fin 0)).
  rewrite !ma_true_divide_zero_num. reflexivity.
Qed.

Lemma rk_stages_outside (step : R) :
  rk_stages Nstage a BR BZ BPhi (Fin r) (Fin z) step
  = repeat (Fin 0, Fin 0, Fin 0) Nstage.
Proof.
  unfold rk_stages.
  assert (H : forall n s K,
            Forall flat K ->
            fold_left (rk_stage a BR BZ BPhi (Fin r) (Fin z) step) (seq s n) K
            = K ++ repeat (Fin 0, Fin 0, Fin 0) n).
  { induction n as [|n IH]; intros s K HK; simpl.
    - now rewrite app_nil_r.
    - assert (Hstage : rk_stage a BR BZ BPhi (Fin r) (Fin z) step K s
                       = K ++ [(Fin 0, Fin 0, Fin 0)]).
      { unfold rk_stage.
        rewrite (stage_pos_zeros a r step s _ (Forall_flat_K0 K HK)).
        rewrite (stage_pos_zeros a z step s _ (Forall_flat_K1 K HK)).
        now rewrite stage_K_outside. }
      rewrite Hstage, IH.
      + now rewrite <- app_assoc.
      + apply Forall_app. split; [assumption|].
        constructor; [split; reflexivity | constructor]. }
  apply (H Nstage 0%nat []). constructor.
Qed.

Lemma final_sum_outside (f : fval * fval * fval -> fval) :
  f (Fin 0, Fin 0, Fin 0) = Fin 0 ->
  final_sum Nstage b (map f (repeat (Fin 0, Fin 0, Fin 0) Nstage)) = Fin 0.
Proof.
  intros Hf. unfold final_sum. apply weighted_sum_zeros.
  apply Forall_forall. intros x Hx. apply in_map_iff in Hx.
  destruct Hx as [k [<- Hk]]. apply repeat_spec in Hk. now subst k.
Qed.

(** Outside the mesh a pass moves nothing and adds no arc length. *)
Lemma trace_step_outside (sign dphi : R) (p : tpoint) :
  Rp p = Fin r /\ Zp p = Fin z /\ sp p = Fin 0 ->
  Rp (trace_step sign dphi p) = Fin r /\
  Zp (trace_step sign dphi p) = Fin z /\
  sp (trace_step sign dphi p) = Fin 0.
Proof.
  intros (HR & HZ & Hs). unfold loader.trace_step, increments.
  cbn [Rp Zp sp K0 K1 K2 fst snd]. rewrite HR, HZ, Hs, rk_stages_outside.
  rewrite !final_sum_outside by reflexivity.
  cbn [fmul fadd fabs lift2].
  repeat split; f_equal; ring.
Qed.

End OutsideTheMesh.

(** X5.  A query point outside the mesh, where the three field
    interpolants are undefined: both traces return without having moved,
    both arc lengths are zero, so both blend fractions are 0/0, and the
    blended value at that point is not a number whatever the two planes
    hold. *)
Theorem outside_point_blends_to_nan (fuel P : nat) (co : bool)
    (Nstep : nat) (r3D z3D phi3D : list R) (i : nat) (r z : R) :
  (0 < P)%nat -> (0 < Nstep)%nat -> (Nstep <= fuel)%nat ->
  length z3D = length r3D -> length phi3D = length r3D ->
  Forall (fun phi => 0 <= phi < 2 * PI) phi3D ->
  nth_error r3D i = Some r -> nth_error z3D i = Some z ->
  BR z r = None -> BZ z r = None -> BPhi z r = None ->
  exists (out : list ipos) (o : ipos),
    find_interp_positions_v2_upgrade fuel P co r3D z3D phi3D
      (fst (get_interp_planes P co phi3D)) (snd (get_interp_planes P co phi3D))
      Nstep = Ret out /\
    nth_error out i = Some o /\
    prevR o = Fin r /\ prevZ o = Fin z /\ nextR o = Fin r /\ nextZ o = Fin z /\
    prev_frac o = NonFin /\ next_frac o = NonFin /\
    forall (prev next : list fval) (p n : fval),
      nth_error prev i = Some p -> nth_error next i = Some n ->
      nth_error (blend prev next out) i = Some NonFin.
Proof.
  intros HP HN Hfuel Hlz Hlphi Hrange Hr Hz HBR HBZ HBPhi.
  destruct (find_interp_positions_pointwise fuel P co Nstep r3D z3D phi3D
              HP HN Hfuel Hlz Hlphi Hrange) as (out & Hout & _ & Hpt).
  assert (Hi : (i < length phi3D)%nat).
  { rewrite Hlphi. apply nth_error_Some. congruence. }
  destruct (nth_error phi3D i) as [phi|] eqn:Hphi;
    [|apply nth_error_None in Hphi; lia].
  destruct (Hpt i r z phi Hr Hz Hphi) as (prev & next & y & Hrel & Hy).
  destruct Hrel as (_ & _ & HF & HB & _).
  assert (Hinv : forall sign dphi phi0 e,
            pt_loop fuel sign dphi true
              (start_tpoint (mk_qpoint r z phi prev next) phi0) = Ret e ->
            Rp e = Fin r /\ Zp e = Fin z /\ sp e = Fin 0).
  { intros sign dphi phi0 e He.
    eapply (pt_loop_invariant Nstage a b BR BZ BPhi sign dphi
              (fun p => Rp p = Fin r /\ Zp p = Fin z /\ sp p = Fin 0)
              (trace_step_outside r z HBR HBZ HBPhi sign dphi));
      [|exact He]. repeat split. }
  destruct (Hinv _ _ _ _ HF) as (HRf & HZf & Hsf).
  destruct (Hinv _ _ _ _ HB) as (HRb & HZb & Hsb).
  exists out, (ipos_of (bwd_end y) (fwd_end y)).
  split; [exact Hout|]. split; [exact Hy|].
  assert (Hfrac : prev_frac (ipos_of (bwd_end y) (fwd_end y)) = NonFin /\
                  next_frac (ipos_of (bwd_end y) (fwd_end y)) = NonFin).
  { unfold ipos_of. cbn [prev_frac next_frac]. rewrite Hsb, Hsf.
    cbn [fadd lift2 fdiv]. rewrite Rplus_0_r. unfold Reqb.
    destruct (Req_dec_T 0 0) as [_ | H]; [|contradiction].
    split; reflexivity. }
  destruct Hfrac as [Hpf Hnf].
  unfold ipos_of at 1 2 3 4. cbn [prevR prevZ nextR nextZ].
  split; [exact HRb|]. split; [exact HZb|].
  split; [exact HRf|]. split; [exact HZf|].
  split; [exact Hpf|]. split; [exact Hnf|].
  intros pv nx p n Hp Hn. unfold blend.
  rewrite (nth_error_map3 _ pv nx out i p n _ Hp Hn Hy).
  rewrite Hpf, Hnf. destruct p, n; reflexivity.
Qed.

End TracerFacts.

Lemma toroidal_field_blends_by_angle_witness :
  exists (k : nat) (out : list ipos) (o : ipos),
    (k < 2)%nat /\
    nth_error out 0 = Some o /\
    prev_frac o = Fin ((1 - INR k * (2 * PI / INR 2)) / (2 * PI / INR 2)).
Proof.
  destruct (toroidal_field_blends_by_angle 2 midpoint_a midpoint_b
              zero_field zero_field unit_field 3 2 true 3 [1] [0] [1] 0 1 0 1 1)
    as (k & out & o & Hk & _ & _ & Ho & _ & _ & _ & _ & Hp & _).
  - lia.
  - lia.
  - lia.
  - reflexivity.
  - reflexivity.
  - exact one_in_range.
  - reflexivity.
  - reflexivity.
  - reflexivity.
  - reflexivity.
  - reflexivity.
  - reflexivity.
  - lra.
  - rewrite weighted_midpoint. lra.
  - exists k, out, o. split; [exact Hk|]. split; [exact Ho | exact Hp].
Defined.

Lemma outside_point_blends_to_nan_witness :
  exists (out : list ipos) (o : ipos),
    nth_error out 0 = Some o /\ prev_frac o = NonFin /\ next_frac o = NonFin.
Proof.
  destruct (outside_point_blends_to_nan 2 midpoint_a midpoint_b
              (fun _ _ => None) (fun _ _ => None) (fun _ _ => None)
              3 2 true 3 [5] [0] [1] 0 5 0)
    as (out & o & _ & Ho & _ & _ & _ & _ & Hp & Hn & _).
  - lia.
  - lia.
  - lia.
  - reflexivity.
  - reflexivity.
  - exact one_in_range.
  - reflexivity.
  - reflexivity.
  - reflexivity.
  - reflexivity.
  - reflexivity.
  - exists out, o. split; [exact Ho|]. split; [exact Hp | exact Hn].
Defined.

(** * Frames of the methods *)

Lemma unchanged_mret {B A : Type} (f : XGC_Loader -> B) (x : A) :
  unchanged f (mret x).
Proof. intros s. reflexivity. Qed.

Lemma unchanged_lift {B A : Type} (f : XGC_Loader -> B) (r : res A) :
  unchanged f (lift r).
Proof. intros s. reflexivity. Qed.

Lemma unchanged_raise {B A : Type} (f : XGC_Loader -> B) (e : pyexn) :
  unchanged f (raise (A := A) e).
Proof. intros s. reflexivity. Qed.

Lemma unchanged_read {B A : Type} (f : XGC_Loader -> B) (g : XGC_Loader -> A) :
  unchanged f (read g).
Proof. intros s. reflexivity. Qed.

Lemma unchanged_getattr {B A : Type} (f : XGC_Loader -> B) (n : string)
    (g : XGC_Loader -> option A) :
  unchanged f (getattr n g).
Proof. intros s. unfold getattr. now destruct (g s). Qed.

Lemma unchanged_getarr {B : Type} (f : XGC_Loader -> B) (n : string) :
  unchanged f (getarr n).
Proof. apply unchanged_getattr. Qed.

Lemma unchanged_setarr {B : Type} (f : XGC_Loader -> B) (n : string) (v : ndarr) :
  (forall s, f (set_array n v s) = f s) -> unchanged f (setarr n v).
Proof. intros H s. apply H. Qed.

Lemma unchanged_mbind {B A C : Type} (f : XGC_Loader -> B) (m : meth A)
    (k : A -> meth C) :
  unchanged f m -> (forall x, unchanged f (k x)) -> unchanged f (mbind m k).
Proof.
  intros Hm Hk s. unfold mbind. specialize (Hm s).
  destruct (m s) as [[x | e |] s']; cbn [snd] in *; [|assumption|assumption].
  now rewrite Hk.
Qed.

Lemma unchanged_when {B : Type} (f : XGC_Loader -> B) (c : bool) (m : meth unit) :
  unchanged f m -> unchanged f (when c m).
Proof. intros H. destruct c; [exact H | apply unchanged_mret]. Qed.

Lemma unchanged_mfor {B A : Type} (f : XGC_Loader -> B) (l : list A)
    (body : A -> meth unit) :
  (forall x, unchanged f (body x)) -> unchanged f (mfor l body).
Proof.
  intros H. induction l as [|x l IH]; simpl; [apply unchanged_mret|].
  apply unchanged_mbind; auto.
Qed.

Lemma unchanged_grid_2D {B : Type} (f : XGC_Loader -> B) : unchanged f grid_2D.
Proof. intros s. unfold grid_2D. now destruct (grid s). Qed.

Lemma unchanged_grid_3D {B : Type} (f : XGC_Loader -> B) : unchanged f grid_3D.
Proof.
  intros s. unfold grid_3D. destruct (grid s) as [g | g | c]; try reflexivity.
  now destruct (g3_cyl g).
Qed.

(** One step of the frame argument: binds, loops and conditionals are
    taken apart, an assignment to an array must leave [f] alone by
    computation. *)
Ltac unchanged_tac :=
  repeat first
    [ apply unchanged_mbind; [|intros ?]
    | apply unchanged_setarr; intros ?; reflexivity
    | apply unchanged_when
    | apply unchanged_mfor; intros ?
    | apply unchanged_mret
    | apply unchanged_lift
    | apply unchanged_raise
    | apply unchanged_read
    | apply unchanged_getattr
    | apply unchanged_getarr
    | apply unchanged_grid_2D
    | apply unchanged_grid_3D ].

Lemma never_returns_bind_l {A C : Type} (I : XGC_Loader -> Prop) (m : meth A)
    (k : A -> meth C) :
  never_returns I m -> never_returns I (mbind m k).
Proof.
  intros Hm s Hs y. unfold mbind. specialize (Hm s Hs).
  destruct (m s) as [[x | e |] s']; cbn [fst] in *;
    [now destruct (Hm x) | discriminate | discriminate].
Qed.

Lemma never_returns_bind_r {A C : Type} (I : XGC_Loader -> Prop) (m : meth A)
    (k : A -> meth C) :
  (forall s, I s -> I (snd (m s))) -> (forall x, never_returns I (k x)) ->
  never_returns I (mbind m k).
Proof.
  intros Hm Hk s Hs y. unfold mbind. specialize (Hm s Hs).
  destruct (m s) as [[x | e |] s']; cbn [fst snd] in *;
    [now apply Hk | discriminate | discriminate].
Qed.

Section OnGrid2DFacts.

Variable ConvexHull : list (R * R) -> res (list nat).
Variable CloughTocher2DInterpolator :
  list (R * R) -> list fval -> fval -> fval -> fval.
Variable back_interp_report :
  grid2D -> list (R * R) -> ndarr -> ndarr -> ndarr -> ndarr -> check_report.

Local Abbreviation interpolate_all_on_grid_2D :=
  (interpolate_all_on_grid_2D ConvexHull CloughTocher2DInterpolator
     back_interp_report).

(** What the check at the end of the 2-D method needs: the loader's
    dimension and its non-adiabatic electron density. *)
Local Abbreviation check_input :=
  (fun s : XGC_Loader => (arrays s "nane"%string, dimension s)).

Lemma interp_check_needs_nane :
  never_returns (fun s => check_input s = (None, 2%Z))
                (interp_check back_interp_report).
Proof.
  intros s Hs x. injection Hs as Hn Hd.
  unfold interp_check, mbind, read, grid_2D, getattr, getarr, getattr.
  cbn [fst snd]. rewrite Hd. cbn [Z.eqb Pos.eqb].
  destruct (grid s); cbn [fst snd]; try discriminate.
  destruct (points s); cbn [fst snd]; try discriminate.
  destruct (arrays s "dne_ad"); cbn [fst snd]; try discriminate.
  rewrite Hn. discriminate.
Qed.

Lemma unchanged_add_interpolated {B : Type} (f : XGC_Loader -> B)
    (n field : string) (i j : nat) (zr : list (R * R)) :
  (forall v s, f (set_array n v s) = f s) ->
  unchanged f (add_interpolated CloughTocher2DInterpolator n field i j zr).
Proof.
  intros H. unfold add_interpolated.
  repeat first [ apply unchanged_mbind; [|intros ?]
               | apply unchanged_setarr; intros ?; apply H
               | apply unchanged_lift
               | apply unchanged_getattr
               | apply unchanged_getarr ].
Qed.

Lemma unchanged_fluctuations_on_grid_2D (sh : list nat) (zr : list (R * R)) :
  unchanged check_input
    (fluctuations_on_grid_2D CloughTocher2DInterpolator sh zr).
Proof.
  unfold fluctuations_on_grid_2D.
  repeat first
    [ apply unchanged_add_interpolated; intros ? ?; reflexivity
    | progress unchanged_tac ].
Qed.

Lemma unchanged_profiles_on_grid (te ti : string) :
  String.eqb "nane" te = false -> String.eqb "nane" ti = false ->
  unchanged check_input (profiles_on_grid te ti).
Proof.
  intros Hte Hti. unfold profiles_on_grid, profile_on_grid.
  repeat first
    [ apply unchanged_mbind; [|intros ?]
    | apply unchanged_setarr; intros ?; unfold set_array;
      cbn [arrays dimension]; rewrite ?Hte, ?Hti; reflexivity
    | apply unchanged_getattr
    | apply unchanged_getarr ].
Qed.

Lemma never_returns_after {A C : Type} (v : option ndarr * Z) (m : meth A)
    (k : A -> meth C) :
  unchanged check_input m ->
  (forall x, never_returns (fun s => check_input s = v) (k x)) ->
  never_returns (fun s => check_input s = v) (mbind m k).
Proof.
  intros Hm Hk. apply never_returns_bind_r; [|exact Hk].
  intros s Hs. cbv beta. now rewrite (Hm s).
Qed.

(** X6.  A 2-D loader that holds no non-adiabatic electron density
    ([self.nane], which the loading methods create only when the
    simulation has electron dynamics) cannot complete
    [interpolate_all_on_grid_2D]: whatever the grid and the data, the
    method does not return normally, because the check that ends it reads
    [self.nane]. *)
Theorem interpolate_all_on_grid_2D_needs_nane (s : XGC_Loader) :
  dimension s = 2%Z -> arrays s "nane" = None ->
  fst (interpolate_all_on_grid_2D s) <> Ret tt.
Proof.
  intros Hd Hn.
  assert (H : never_returns (fun s => check_input s = (None, 2%Z))
                interpolate_all_on_grid_2D).
  { unfold loader.interpolate_all_on_grid_2D, extrapolated_on_grid.
    cbv zeta.
    repeat first
      [ apply never_returns_bind_l; exact interp_check_needs_nane
      | apply never_returns_after;
        [ first
            [ apply unchanged_fluctuations_on_grid_2D
            | apply unchanged_profiles_on_grid; reflexivity
            | unchanged_tac ]
        | intros ? ] ]. }
  apply (H s). cbn. now rewrite Hn, Hd.
Qed.

Lemma length_mask_assign {A : Type} (m : list bool) :
  forall l v : list A, length (mask_assign m l v) = length l.
Proof.
  induction m as [|i m IH]; intros l v; [reflexivity|].
  destruct l as [|x l]; [reflexivity|]. simpl.
  destruct i; [destruct v|]; simpl; now rewrite IH.
Qed.

Lemma Forall_by_index {A : Type} (Q : A -> Prop) (l : list A) :
  (forall i x, nth_error l i = Some x -> Q x) -> Forall Q l.
Proof.
  intros H. apply Forall_forall. intros x Hx.
  apply In_nth_error in Hx. destruct Hx as [i Hi]. eauto.
Qed.

Lemma length_mesh2D (Z1D R1D : list R) :
  length (mesh2D Z1D R1D) = (length Z1D * length R1D)%nat.
Proof.
  unfold mesh2D. apply length_flat_map_const. intros z. apply length_map.
Qed.

(** The 2-D method up to the two equilibrium fields: the state in which
    the profiles, the fluctuations and the check are then run. *)
Lemma interpolate_all_on_grid_2D_fields (s : XGC_Loader) (g : grid2D)
    (psi B : cubic_interp) (pts boundary : list (R * R)) :
  grid s = Cartesian2D g ->
  psi_interp s = Some psi -> B_interp s = Some B -> points s = Some pts ->
  hull_boundary ConvexHull pts = Ret boundary -> boundary <> [] ->
  let zr := mesh2D (g2_Z1D g) (g2_R1D g) in
  let sh := [length (g2_Z1D g); length (g2_R1D g)] in
  let out_mask := map mask (interp_array psi zr) in
  exists near,
    Forall2 (nearest_in boundary) (mask_select out_mask zr) near /\
    interpolate_all_on_grid_2D s
    = (profiles_on_grid "te0_on_grid" "ti0_on_grid" ;;;
       fluctuations_on_grid_2D CloughTocher2DInterpolator sh zr ;;;
       interp_check back_interp_report ;;; mret tt)
        (set_array "B_on_grid" (mk_ndarr sh (extrapolated B zr out_mask near))
           (set_array "B_on_grid" (mk_ndarr sh (interp_array B zr))
              (set_array "psi_on_grid"
                 (mk_ndarr sh (extrapolated psi zr out_mask near))
                 (set_array "psi_on_grid" (mk_ndarr sh (interp_array psi zr))
                    s)))).
Proof.
  intros Hg Hpsi HB Hpts Hhull Hne zr sh out_mask.
  destruct (nearest_vertices boundary (mask_select out_mask zr) Hne)
    as (near & Hnear & HF).
  exists near. split; [exact HF|].
  unfold loader.interpolate_all_on_grid_2D.
  rewrite (mbind_ret grid_2D _ s s g) by (unfold grid_2D; now rewrite Hg).
  rewrite (mbind_ret (getattr "psi_interp" psi_interp) _ s s psi)
    by (unfold getattr; now rewrite Hpsi).
  fold zr. fold sh. fold out_mask.
  set (s1 := set_array "psi_on_grid" (mk_ndarr sh (interp_array psi zr)) s).
  rewrite (mbind_ret (setarr "psi_on_grid" _) _ s s1 tt) by reflexivity.
  rewrite (mbind_ret (getattr "points" points) _ s1 s1 pts)
    by (unfold getattr; cbn; now rewrite Hpts).
  rewrite (mbind_ret (lift (hull_boundary ConvexHull pts)) _ s1 s1 boundary)
    by (unfold lift; now rewrite Hhull).
  rewrite (mbind_ret (lift (mapM (nearest_vertex boundary) _)) _ s1 s1 near)
    by (unfold lift; now rewrite Hnear).
  set (s2 := set_array "psi_on_grid"
               (mk_ndarr sh (extrapolated psi zr out_mask near)) s1).
  rewrite (mbind_ret (setarr "psi_on_grid" _) _ s1 s2 tt) by reflexivity.
  rewrite (mbind_ret (getattr "B_interp" B_interp) _ s2 s2 B)
    by (unfold getattr; cbn; now rewrite HB).
  set (s3 := set_array "B_on_grid"
               (mk_ndarr sh (extrapolated B zr out_mask near))
               (set_array "B_on_grid" (mk_ndarr sh (interp_array B zr)) s2)).
  rewrite (mbind_ret (extrapolated_on_grid "B_on_grid" B sh zr out_mask near)
             _ s2 s3 tt) by reflexivity.
  reflexivity.
Qed.

(** What [extrapolated] holds when the interpolant has a value and a
    gradient at the boundary vertices: no masked entry, finite data, and
    inside the mesh the interpolant's own value. *)
Lemma extrapolated_defined (psi : cubic_interp) (boundary : list (R * R))
    (zr near : list (R * R)) :
  Forall2 (nearest_in boundary)
          (mask_select (map mask (interp_array psi zr)) zr) near ->
  defined_on psi boundary ->
  let cs := extrapolated psi zr (map mask (interp_array psi zr)) near in
  length cs = length zr /\
  Forall (fun c => mask c = false /\ isfinite (data c) = true) cs /\
  forall i z r v,
    nth_error zr i = Some (z, r) -> ci_call psi z r = Some v ->
    nth_error cs i = Some (mk_melt (Fin v) false).
Proof.
  intros HF Hdef cs.
  assert (Hlen : length cs = length zr).
  { unfold cs, extrapolated. now rewrite length_mask_assign, length_interp_array. }
  split; [exact Hlen|]. split.
  - apply Forall_by_index. intros i c Hc.
    assert (Hi : (i < length zr)%nat)
      by (rewrite <- Hlen; apply nth_error_Some; congruence).
    destruct (nth_error zr i) as [[z r]|] eqn:Hzr;
      [|apply nth_error_None in Hzr; lia].
    destruct (extrapolated_nth psi boundary zr near i z r HF Hzr) as [Hout Hin].
    destruct (ci_call psi z r) as [v|] eqn:Hv.
    + assert (Hsome : Some v <> None) by discriminate.
      specialize (Hin Hsome psi). fold cs in Hin. rewrite Hv in Hin.
      rewrite Hin in Hc. injection Hc as <-. split; reflexivity.
    + destruct (Hout eq_refl) as ([zn rn] & Hnear & Hval).
      specialize (Hval psi). fold cs in Hval.
      destruct (Hdef (zn, rn) (proj1 Hnear)) as (a0 & gz & gr & Ha & Hgr).
      cbn [fst snd] in Ha, Hgr.
      rewrite (taylor_out_defined psi z r zn rn a0 gz gr Ha Hgr) in Hval.
      rewrite Hval in Hc. injection Hc as <-. split; reflexivity.
  - intros i z r v Hzr Hv.
    destruct (extrapolated_nth psi boundary zr near i z r HF Hzr) as [_ Hin].
    assert (Hsome : ci_call psi z r <> None) by (rewrite Hv; discriminate).
    specialize (Hin Hsome psi). fold cs in Hin. now rewrite Hv in Hin.
Qed.

(** X7.  On a 2-D grid, when the hull has a vertex and [psi]'s
    interpolant has a value and a gradient at the boundary vertices,
    [interpolate_all_on_grid_2D] leaves a [psi_on_grid] of shape (NZ, NR)
    with no masked entry and finite data everywhere, equal to the
    interpolant wherever the interpolant is defined; the electron
    temperature [te0_on_grid] derived from it has the same shape and is
    finite everywhere too. *)
Theorem equilibrium_on_2D_grid_fully_defined (s : XGC_Loader) (g : grid2D)
    (psi B : cubic_interp) (pts boundary : list (R * R)) (te : R -> R) :
  grid s = Cartesian2D g ->
  psi_interp s = Some psi -> B_interp s = Some B -> points s = Some pts ->
  hull_boundary ConvexHull pts = Ret boundary -> boundary <> [] ->
  defined_on psi boundary -> te0_sp s = Some te ->
  exists psi_on_grid te0_on_grid : ndarr,
    arrays (snd (interpolate_all_on_grid_2D s)) "psi_on_grid"
    = Some psi_on_grid /\
    arrays (snd (interpolate_all_on_grid_2D s)) "te0_on_grid"
    = Some te0_on_grid /\
    shape psi_on_grid = [length (g2_Z1D g); length (g2_R1D g)] /\
    shape te0_on_grid = [length (g2_Z1D g); length (g2_R1D g)] /\
    length (cells psi_on_grid) = (length (g2_Z1D g) * length (g2_R1D g))%nat /\
    length (cells te0_on_grid) = (length (g2_Z1D g) * length (g2_R1D g))%nat /\
    Forall (fun c => mask c = false /\ isfinite (data c) = true)
           (cells psi_on_grid) /\
    Forall (fun c => mask c = false /\ isfinite (data c) = true)
           (cells te0_on_grid) /\
    forall i z r v,
      nth_error (mesh2D (g2_Z1D g) (g2_R1D g)) i = Some (z, r) ->
      ci_call psi z r = Some v ->
      nth_error (cells psi_on_grid) i = Some (mk_melt (Fin v) false).
Proof.
  intros Hg Hpsi HB Hpts Hhull Hne Hdef Hte.
  destruct (interpolate_all_on_grid_2D_fields s g psi B pts boundary
              Hg Hpsi HB Hpts Hhull Hne) as (near & HF & Hrun).
  set (zr := mesh2D (g2_Z1D g) (g2_R1D g)) in *.
  set (sh := [length (g2_Z1D g); length (g2_R1D g)]) in *.
  set (cs := extrapolated psi zr (map mask (interp_array psi zr)) near) in *.
  destruct (extrapolated_defined psi boundary zr near HF Hdef)
    as (Hlen & Hall & Hin).
  fold cs in Hlen, Hall, Hin.
  exists (mk_ndarr sh cs),
         (nd_plain sh (map (fun c => apply_1d te (data c)) cs)).
  rewrite Hrun. clear Hrun.
  match goal with
  | |- context [(?m) ?st] =>
      match m with
      | mbind _ _ => set (s3 := st)
      end
  end.
  split.
  { assert (Hk : keeps "psi_on_grid"
                   (profiles_on_grid "te0_on_grid" "ti0_on_grid" ;;;
                    fluctuations_on_grid_2D CloughTocher2DInterpolator sh zr ;;;
                    interp_check back_interp_report ;;; mret tt)).
    { apply keeps_mbind;
        [apply keeps_profiles_on_grid; reflexivity | intros _].
      apply keeps_mbind;
        [apply keeps_fluctuations_on_grid_2D; reflexivity | intros _].
      apply keeps_mbind; [apply keeps_interp_check | intros _].
      apply keeps_mret. }
    rewrite Hk. reflexivity. }
  split.
  { rewrite mbind_keeps_r.
    2:{ intros _. apply keeps_mbind;
          [apply keeps_fluctuations_on_grid_2D; reflexivity | intros _].
        apply keeps_mbind; [apply keeps_interp_check | intros _].
        apply keeps_mret. }
    unfold profiles_on_grid.
    rewrite (mbind_ret (getattr "te0_sp" te0_sp) _ s3 s3 te)
      by (unfold getattr; cbn; now rewrite Hte).
    rewrite (mbind_ret (getarr "psi_on_grid") _ s3 s3 (mk_ndarr sh cs))
      by reflexivity.
    unfold profile_on_grid at 1. cbn [shape cells].
    apply arrays_after_setarr. intros _.
    unfold profile_on_grid. keeps_tac. }
  cbn [shape cells nd_plain].
  split; [reflexivity|]. split; [reflexivity|].
  split; [now rewrite Hlen; unfold zr; rewrite length_mesh2D|].
  split; [now rewrite !length_map, Hlen; unfold zr; rewrite length_mesh2D|].
  split; [exact Hall|].
  split; [|exact Hin].
  rewrite map_map. apply Forall_forall. intros c Hc.
  apply in_map_iff in Hc. destruct Hc as [c0 [<- Hc0]].
  rewrite Forall_forall in Hall. destruct (Hall c0 Hc0) as [_ Hfin].
  destruct (data c0); [split; reflexivity | discriminate].
Qed.



End OnGrid2DFacts.

Lemma interpolate_all_on_grid_2D_needs_nane_witness :
  fst (loader.interpolate_all_on_grid_2D small_hull small_interpolator
         small_report small_run_2D) <> Ret tt.
Proof.
  apply (interpolate_all_on_grid_2D_needs_nane small_hull small_interpolator
           small_report small_run_2D); reflexivity.
Defined.

Lemma equilibrium_on_2D_grid_fully_defined_witness :
  exists psi_on_grid : ndarr,
    arrays (snd (loader.interpolate_all_on_grid_2D small_hull small_interpolator
                   small_report small_run_2D)) "psi_on_grid"
    = Some psi_on_grid /\
    Forall (fun c => mask c = false /\ isfinite (data c) = true)
           (cells psi_on_grid).
Proof.
  destruct (equilibrium_on_2D_grid_fully_defined small_hull small_interpolator
              small_report small_run_2D small_grid_2D
              (square_field 1) (square_field 2) [(0, 1)] [(0, 1)]
              (fun psi => psi))
    as (p & q & Hp & _ & _ & _ & _ & _ & Hall & _).
  - reflexivity.
  - reflexivity.
  - reflexivity.
  - reflexivity.
  - reflexivity.
  - discriminate.
  - intros v [<- | []]. exists 1, 0, 0. cbn. rewrite on_square_corner. now split.
  - reflexivity.
  - exists p. split; [exact Hp | exact Hall].
Defined.

(** * The 3-D method *)

Section OnGrid3DFacts.

Variable ConvexHull : list (R * R) -> res (list nat).
Variable CloughTocher2DInterpolator :
  list (R * R) -> list fval -> fval -> fval -> fval.
Variable Nstage : nat.
Variable a : nat -> nat -> R.
Variable b : nat -> R.

Local Abbreviation fluctuations_on_grid_3D :=
  (fluctuations_on_grid_3D CloughTocher2DInterpolator Nstage a b).
Local Abbreviation interpolate_all_on_grid_3D :=
  (interpolate_all_on_grid_3D ConvexHull CloughTocher2DInterpolator Nstage a b).

Lemma keeps_equilibrium_on_grid_2D_mesh_rest (sh : list nat) (zr : list (R * R)) (out_mask : list bool)
    (near : list (R * R)) :
  keeps "psi_on_grid"
    (BR <~ getattr "BR_interp" BR_interp ;;
     extrapolated_on_grid "BR_on_grid" BR sh zr out_mask near ;;;
     BZ <~ getattr "BZ_interp" BZ_interp ;;
     extrapolated_on_grid "BZ_on_grid" BZ sh zr out_mask near ;;;
     BPhi <~ getattr "BPhi_interp" BPhi_interp ;;
     extrapolated_on_grid "BPhi_on_grid" BPhi sh zr out_mask near ;;;
     setarr "B_on_grid"
       (mk_ndarr sh (map3 ma_norm3 (extrapolated BR zr out_mask near)
                                   (extrapolated BZ zr out_mask near)
                                   (extrapolated BPhi zr out_mask near))) ;;;
     profiles_on_grid "te0_on_grid" "ti0_on_grid").
Proof.
  unfold extrapolated_on_grid, profiles_on_grid, profile_on_grid. keeps_tac.
Qed.

(** X8.  A 3-D run with the '2D' equilibrium mesh: when the hull has a
    vertex and [psi]'s interpolant has a value and a gradient at the
    boundary vertices, [interpolate_all_on_grid_3D] leaves a [psi_on_grid]
    on the (Y, X) plane of the grid, of shape (NY, NX), with no masked
    entry and finite data everywhere: the interpolant's value inside the
    mesh, and outside it the linear extrapolation from a nearest boundary
    vertex. *)
Theorem equilibrium_2D_style_fully_defined (fuel : nat) (s : XGC_Loader)
    (g : grid3D) (c : cylindrical) (psi : cubic_interp)
    (pts boundary : list (R * R)) :
  grid s = Cartesian3D g -> g3_cyl g = Some c ->
  equilibrium_mesh s = "2D"%string ->
  psi_interp s = Some psi -> points s = Some pts ->
  hull_boundary ConvexHull pts = Ret boundary -> boundary <> [] ->
  defined_on psi boundary ->
  exists psi_on_grid : ndarr,
    arrays (snd (interpolate_all_on_grid_3D fuel s)) "psi_on_grid"
    = Some psi_on_grid /\
    shape psi_on_grid = [length (g3_Y1D g); length (g3_X1D g)] /\
    length (cells psi_on_grid) = (length (g3_Y1D g) * length (g3_X1D g))%nat /\
    Forall (fun c => mask c = false /\ isfinite (data c) = true)
           (cells psi_on_grid) /\
    (forall i z r v,
       nth_error (mesh2D (g3_Y1D g) (g3_X1D g)) i = Some (z, r) ->
       ci_call psi z r = Some v ->
       nth_error (cells psi_on_grid) i = Some (mk_melt (Fin v) false)) /\
    (forall i z r,
       nth_error (mesh2D (g3_Y1D g) (g3_X1D g)) i = Some (z, r) ->
       ci_call psi z r = None ->
       exists zn rn a0 gz gr,
         nearest_in boundary (z, r) (zn, rn) /\
         ci_call psi zn rn = Some a0 /\ ci_gradient psi zn rn = Some (gz, gr) /\
         nth_error (cells psi_on_grid) i
         = Some (mk_melt (Fin (a0 + (z - zn) * gz + (r - rn) * gr)) false)).
Proof.
  intros Hg Hc Hstyle Hpsi Hpts Hhull Hne Hdef.
  set (zr := mesh2D (g3_Y1D g) (g3_X1D g)).
  set (sh := [length (g3_Y1D g); length (g3_X1D g)]).
  set (out_mask := map mask (interp_array psi zr)).
  destruct (nearest_vertices boundary (mask_select out_mask zr) Hne)
    as (near & Hnear & HF).
  set (cs := extrapolated psi zr out_mask near).
  destruct (extrapolated_defined psi boundary zr near HF Hdef)
    as (Hlen & Hall & Hin).
  fold out_mask in Hlen, Hall, Hin. fold cs in Hlen, Hall, Hin.
  exists (mk_ndarr sh cs). cbn [shape cells].
  split.
  - unfold loader.interpolate_all_on_grid_3D.
    rewrite (mbind_ret grid_3D _ s s (g, c))
      by (unfold grid_3D; now rewrite Hg, Hc).
    rewrite (mbind_ret (read equilibrium_mesh) _ s s "2D"%string)
      by (unfold read; now rewrite Hstyle).
    cbn [String.eqb Ascii.eqb Bool.eqb fst snd].
    rewrite mbind_keeps_r.
    2:{ intros _. apply keeps_mbind; [auto with keeps | intros eq_only].
        apply keeps_when. now apply keeps_fluctuations_on_grid_3D. }
    unfold equilibrium_on_grid_2D_mesh.
    rewrite (mbind_ret (getattr "psi_interp" psi_interp) _ s s psi)
      by (unfold getattr; now rewrite Hpsi).
    fold zr. fold sh. fold out_mask.
    set (s1 := set_array "psi_on_grid" (mk_ndarr sh (interp_array psi zr)) s).
    rewrite (mbind_ret (setarr "psi_on_grid" _) _ s s1 tt) by reflexivity.
    rewrite (mbind_ret (getattr "points" points) _ s1 s1 pts)
      by (unfold getattr; cbn; now rewrite Hpts).
    rewrite (mbind_ret (lift (hull_boundary ConvexHull pts)) _ s1 s1 boundary)
      by (unfold lift; now rewrite Hhull).
    rewrite (mbind_ret (lift (mapM (nearest_vertex boundary) _)) _ s1 s1 near)
      by (unfold lift; now rewrite Hnear).
    apply arrays_after_setarr. intros _.
    apply keeps_equilibrium_on_grid_2D_mesh_rest.
  - split; [reflexivity|].
    split; [rewrite Hlen; unfold zr; apply length_mesh2D|].
    split; [exact Hall|]. split; [exact Hin|].
    intros i z r Hi Hout.
    destruct (extrapolated_nth psi boundary zr near i z r HF Hi) as [H1 _].
    destruct (H1 Hout) as ([zn rn] & Hv & Hnth).
    destruct (Hdef (zn, rn) (proj1 Hv)) as (a0 & gz & gr & Ha & Hgr).
    cbn [fst snd] in Ha, Hgr.
    exists zn, rn, a0, gz, gr.
    split; [exact Hv|]. split; [exact Ha|]. split; [exact Hgr|].
    unfold cs, out_mask. rewrite (Hnth psi).
    now rewrite (taylor_out_defined psi z r zn rn a0 gz gr Ha Hgr).
Qed.

Lemma mbind_ext_on {A B : Type} (m : meth A) (k k' : A -> meth B)
    (s : XGC_Loader) :
  (forall x s', m s = (Ret x, s') -> k x s' = k' x s') ->
  mbind m k s = mbind m k' s.
Proof.
  intros H. unfold mbind. destruct (m s) as [[x | e |] s']; auto.
Qed.

Lemma mbind_unit_tail (m : meth unit) (k : unit -> meth unit) (s : XGC_Loader) :
  (forall s', m s = (Ret tt, s') -> k tt s' = (Ret tt, s')) ->
  mbind m k s = m s.
Proof.
  intros H. unfold mbind. destruct (m s) as [[[] | e |] s']; auto.
Qed.

Lemma unchanged_equilibrium {B : Type} (f : XGC_Loader -> B) (style : string)
    (g : grid3D) (c : cylindrical) :
  (forall n v s, f (set_array n v s) = f s) ->
  unchanged f
    (if String.eqb style "3D" then equilibrium_on_grid_3D_mesh g c
     else if String.eqb style "2D"
          then equilibrium_on_grid_2D_mesh ConvexHull g
          else mret tt).
Proof.
  intros Hf.
  destruct (String.eqb style "3D"); [|destruct (String.eqb style "2D")];
    unfold equilibrium_on_grid_3D_mesh, equilibrium_on_grid_2D_mesh,
      extrapolated_on_grid, profiles_on_grid, profile_on_grid;
    repeat first
      [ apply unchanged_mbind; [|intros ?]
      | apply unchanged_setarr; intros ?; apply Hf
      | apply unchanged_mret
      | apply unchanged_lift
      | apply unchanged_getattr
      | apply unchanged_getarr ].
Qed.

(** With [Equilibrium_Only] set, the 3-D method is its equilibrium part. *)
Lemma interpolate_all_on_grid_3D_equilibrium_only (fuel : nat) (s : XGC_Loader) :
  Equilibrium_Only s = true ->
  interpolate_all_on_grid_3D fuel s
  = (gc <~ grid_3D ;;
     style <~ read equilibrium_mesh ;;
     if String.eqb style "3D"
     then equilibrium_on_grid_3D_mesh (fst gc) (snd gc)
     else if String.eqb style "2D"
          then equilibrium_on_grid_2D_mesh ConvexHull (fst gc)
          else mret tt) s.
Proof.
  intros Heq. unfold loader.interpolate_all_on_grid_3D.
  apply mbind_ext_on. intros gc s1 H1.
  assert (s1 = s) as ->.
  { unfold grid_3D in H1. destruct (grid s) as [g | g | cn]; try congruence.
    destruct (g3_cyl g); congruence. }
  apply mbind_ext_on. intros style s2 H2.
  assert (s2 = s) as -> by (unfold read in H2; congruence).
  apply mbind_unit_tail. intros s' Hs'.
  assert (HE : Equilibrium_Only s' = true).
  { pose proof (unchanged_equilibrium Equilibrium_Only style (fst gc) (snd gc)
                  (fun _ _ _ => eq_refl) s) as U.
    rewrite Hs' in U. cbn [snd] in U. congruence. }
  unfold mbind, read. rewrite HE. reflexivity.
Qed.

(** X9.  With [Equilibrium_Only] set, [interpolate_all_on_grid_3D] never
    traces a field line and never touches the gridded fluctuations: its
    outcome is the same whatever fuel the tracing loops are given, and
    [dne_ad_on_grid], [nane_on_grid] and [dni_on_grid] are left as they
    were (absent, on a fresh loader). *)
Theorem equilibrium_only_skips_the_fluctuations (fuel fuel' : nat)
    (s : XGC_Loader) :
  Equilibrium_Only s = true ->
  interpolate_all_on_grid_3D fuel s = interpolate_all_on_grid_3D fuel' s /\
  arrays (snd (interpolate_all_on_grid_3D fuel s)) "dne_ad_on_grid"
  = arrays s "dne_ad_on_grid" /\
  arrays (snd (interpolate_all_on_grid_3D fuel s)) "nane_on_grid"
  = arrays s "nane_on_grid" /\
  arrays (snd (interpolate_all_on_grid_3D fuel s)) "dni_on_grid"
  = arrays s "dni_on_grid".
Proof.
  intros Heq.
  rewrite (interpolate_all_on_grid_3D_equilibrium_only fuel s Heq).
  rewrite (interpolate_all_on_grid_3D_equilibrium_only fuel' s Heq).
  split; [reflexivity|].
  assert (Hk : forall name,
            String.eqb name "psi_on_grid" = false ->
            String.eqb name "BX_on_grid" = false ->
            String.eqb name "BY_on_grid" = false ->
            String.eqb name "BZ_on_grid" = false ->
            String.eqb name "BR_on_grid" = false ->
            String.eqb name "BPhi_on_grid" = false ->
            String.eqb name "B_on_grid" = false ->
            String.eqb name "te_on_grid" = false ->
            String.eqb name "ti_on_grid" = false ->
            String.eqb name "te0_on_grid" = false ->
            String.eqb name "ti0_on_grid" = false ->
            String.eqb name "ne0_on_grid" = false ->
            String.eqb name "ni0_on_grid" = false ->
            keeps name
              (gc <~ grid_3D ;;
               style <~ read equilibrium_mesh ;;
               if String.eqb style "3D"
               then equilibrium_on_grid_3D_mesh (fst gc) (snd gc)
               else if String.eqb style "2D"
                    then equilibrium_on_grid_2D_mesh ConvexHull (fst gc)
                    else mret tt)).
  { intros name H1 H2 H3 H4 H5 H6 H7 H8 H9 H10 H11 H12 H13.
    apply keeps_mbind; [auto with keeps | intros gc].
    apply keeps_mbind; [auto with keeps | intros style].
    destruct (String.eqb style "3D"); [|destruct (String.eqb style "2D")];
      unfold equilibrium_on_grid_3D_mesh, equilibrium_on_grid_2D_mesh,
        extrapolated_on_grid, profiles_on_grid, profile_on_grid;
      repeat first
        [ apply keeps_mbind; [|intros ?]
        | apply keeps_setarr; assumption
        | solve [auto with keeps] ]. }
  split; [|split]; apply Hk; reflexivity.
Qed.

(** X10.  An [equilibrium_mesh] that is neither '2D' nor '3D' is accepted
    in silence: [interpolate_all_on_grid_3D] raises nothing for it and
    computes no equilibrium quantity, so [psi_on_grid] and [B_on_grid] are
    left as they were (absent, on a fresh loader); with [Equilibrium_Only]
    set the method returns having done nothing at all. *)
Theorem unknown_equilibrium_mesh_is_ignored (fuel : nat) (s : XGC_Loader)
    (g : grid3D) (c : cylindrical) :
  grid s = Cartesian3D g -> g3_cyl g = Some c ->
  String.eqb (equilibrium_mesh s) "3D" = false ->
  String.eqb (equilibrium_mesh s) "2D" = false ->
  arrays (snd (interpolate_all_on_grid_3D fuel s)) "psi_on_grid"
  = arrays s "psi_on_grid" /\
  arrays (snd (interpolate_all_on_grid_3D fuel s)) "B_on_grid"
  = arrays s "B_on_grid" /\
  (Equilibrium_Only s = true ->
   interpolate_all_on_grid_3D fuel s = (Ret tt, s)).
Proof.
  intros Hg Hc H3 H2.
  assert (Hrun : interpolate_all_on_grid_3D fuel s
                 = (eq_only <~ read Equilibrium_Only ;;
                    when (negb eq_only) (fluctuations_on_grid_3D fuel g)) s).
  { unfold loader.interpolate_all_on_grid_3D.
    rewrite (mbind_ret grid_3D _ s s (g, c))
      by (unfold grid_3D; now rewrite Hg, Hc).
    rewrite (mbind_ret (read equilibrium_mesh) _ s s (equilibrium_mesh s))
      by reflexivity.
    rewrite H3, H2. reflexivity. }
  rewrite Hrun.
  assert (Hk : forall name,
            String.eqb name "dne_ad_on_grid" = false ->
            String.eqb name "nane_on_grid" = false ->
            String.eqb name "dni_on_grid" = false ->
            keeps name
              (eq_only <~ read Equilibrium_Only ;;
               when (negb eq_only) (fluctuations_on_grid_3D fuel g))).
  { intros name Ha Hb Hc'.
    apply keeps_mbind; [auto with keeps | intros eq_only].
    apply keeps_when. now apply keeps_fluctuations_on_grid_3D. }
  split; [apply Hk; reflexivity|]. split; [apply Hk; reflexivity|].
  intros Heq. unfold mbind, read. rewrite Heq. reflexivity.
Qed.

End OnGrid3DFacts.

Lemma equilibrium_2D_style_fully_defined_witness :
  exists psi_on_grid : ndarr,
    arrays (snd (loader.interpolate_all_on_grid_3D small_hull small_interpolator
                   2 midpoint_a midpoint_b 3 (small_run_styled "2D")))
           "psi_on_grid" = Some psi_on_grid /\
    shape psi_on_grid = [1; 1]%nat.
Proof.
  destruct (equilibrium_2D_style_fully_defined small_hull small_interpolator
              2 midpoint_a midpoint_b 3 (small_run_styled "2D") small_grid
              (mk_cylindrical [sqrt (5 ^ 2 + 0 ^ 2)] [0] [cyl_phi 5 0])
              (square_field 1) [(0, 1)] [(0, 1)])
    as (p & Hp & Hsh & _).
  - reflexivity.
  - reflexivity.
  - reflexivity.
  - reflexivity.
  - reflexivity.
  - reflexivity.
  - discriminate.
  - intros v [<- | []]. exists 1, 0, 0. cbn. rewrite on_square_corner. now split.
  - exists p. split; [exact Hp | exact Hsh].
Defined.

Lemma equilibrium_only_skips_the_fluctuations_witness :
  loader.interpolate_all_on_grid_3D small_hull small_interpolator
    2 midpoint_a midpoint_b 0 small_equilibrium_run
  = loader.interpolate_all_on_grid_3D small_hull small_interpolator
      2 midpoint_a midpoint_b 5 small_equilibrium_run.
Proof.
  apply (equilibrium_only_skips_the_fluctuations small_hull small_interpolator
           2 midpoint_a midpoint_b 0 5 small_equilibrium_run).
  reflexivity.
Defined.

Lemma unknown_equilibrium_mesh_is_ignored_witness :
  loader.interpolate_all_on_grid_3D small_hull small_interpolator
    2 midpoint_a midpoint_b 0 (small_run_styled "1D")
  = (Ret tt, small_run_styled "1D").
Proof.
  apply (unknown_equilibrium_mesh_is_ignored small_hull small_interpolator
           2 midpoint_a midpoint_b 0 (small_run_styled "1D") small_grid
           (mk_cylindrical [sqrt (5 ^ 2 + 0 ^ 2)] [0] [cyl_phi 5 0]));
    reflexivity.
Defined.

(** * The table of the planes that a 3-D run loads *)

Lemma insert_unique_in (x y : Z) (l : list Z) :
  In y (insert_unique x l) <-> y = x \/ In y l.
Proof.
  induction l as [|z l IH]; simpl.
  - intuition.
  - destruct (Z.ltb_spec x z) as [Hlt | Hge]; simpl; [intuition|].
    destruct (Z.eqb_spec x z) as [-> | Hne]; simpl; [intuition|].
    rewrite IH. intuition.
Qed.

Lemma insert_unique_sorted (x : Z) (l : list Z) :
  StronglySorted Z.lt l -> StronglySorted Z.lt (insert_unique x l).
Proof.
  induction l as [|z l IH]; intros Hs; simpl.
  - repeat constructor.
  - inversion Hs as [|? ? Hl Hz]; subst.
    destruct (Z.ltb_spec x z) as [Hlt | Hge].
    + constructor; [exact Hs|]. constructor; [exact Hlt|].
      rewrite Forall_forall in *. intros y Hy. specialize (Hz y Hy). lia.
    + destruct (Z.eqb_spec x z) as [-> | Hne]; [exact Hs|].
      constructor; [now apply IH|].
      apply Forall_forall. intros y Hy. apply insert_unique_in in Hy.
      destruct Hy as [-> | Hy]; [lia|].
      rewrite Forall_forall in Hz. now apply Hz.
Qed.

Lemma np_unique_in (y : Z) (l : list Z) : In y (np_unique l) <-> In y l.
Proof.
  induction l as [|x l IH]; simpl; [tauto|].
  rewrite insert_unique_in, IH. intuition.
Qed.

Lemma np_unique_sorted (l : list Z) : StronglySorted Z.lt (np_unique l).
Proof.
  induction l as [|x l IH]; simpl; [constructor|].
  now apply insert_unique_sorted.
Qed.

Lemma sorted_NoDup (l : list Z) : StronglySorted Z.lt l -> NoDup l.
Proof.
  induction 1 as [|x l Hl IH Hx]; constructor; [|exact IH].
  intros Hin. rewrite Forall_forall in Hx. specialize (Hx x Hin). lia.
Qed.

Lemma np_unique_NoDup (l : list Z) : NoDup (np_unique l).
Proof. apply sorted_NoDup, np_unique_sorted. Qed.

Lemma NoDup_map_one_to_one (f : Z -> Z) (l : list Z) :
  (forall x y, In x l -> In y l -> f x = f y -> x = y) ->
  NoDup l -> NoDup (map f l).
Proof.
  intros Hinj Hnd. induction Hnd as [|x l Hx Hnd IH]; simpl; constructor.
  - intros Hin. apply in_map_iff in Hin. destruct Hin as [y [Hy Hyl]].
    assert (y = x) by (apply Hinj; simpl; auto). subst y. contradiction.
  - apply IH. intros u v Hu Hv. apply Hinj; simpl; auto.
Qed.

(** The number of distinct values is kept by a map that is one-to-one on
    the values of the list. *)
Lemma np_unique_length_map (f : Z -> Z) (l : list Z) :
  (forall x y, In x l -> In y l -> f x = f y -> x = y) ->
  length (np_unique (map f l)) = length (np_unique l).
Proof.
  intros Hinj. rewrite <- (length_map f (np_unique l)).
  apply Nat.le_antisymm.
  - apply NoDup_incl_length; [apply np_unique_NoDup|].
    intros y Hy. apply (proj1 (np_unique_in _ _)) in Hy.
    apply in_map_iff in Hy. destruct Hy as [x [<- Hx]].
    apply in_map. now apply (proj2 (np_unique_in _ _)).
  - apply NoDup_incl_length.
    + apply NoDup_map_one_to_one; [|apply np_unique_NoDup].
      intros x y Hx Hy. apply Hinj; now apply (proj1 (np_unique_in _ _)).
    + intros y Hy. apply in_map_iff in Hy. destruct Hy as [x [<- Hx]].
      apply (proj2 (np_unique_in _ _)). apply in_map.
      now apply (proj1 (np_unique_in _ _)) in Hx.
Qed.

(** The plane after [p] around the torus. *)
Lemma next_plane_one_to_one (P : Z) (x y : Z) :
  (0 <= x < P)%Z -> (0 <= y < P)%Z ->
  ((x + 1) mod P = (y + 1) mod P)%Z -> x = y.
Proof.
  intros Hx Hy H.
  destruct (Z.eq_dec (x + 1) P) as [Ex | Ex];
    destruct (Z.eq_dec (y + 1) P) as [Ey | Ey].
  - lia.
  - rewrite Ex, Z.mod_same in H by lia. rewrite Z.mod_small in H by lia. lia.
  - rewrite Ey, Z.mod_same in H by lia. rewrite Z.mod_small in H by lia. lia.
  - rewrite !Z.mod_small in H by lia. lia.
Qed.

(** The two plane arrays of [get_interp_planes] differ by one step around
    the torus, point by point. *)
Lemma get_interp_planes_successor (P : nat) (co : bool) (phi3D : list R) :
  (0 < P)%nat -> Forall (fun phi => 0 <= phi < 2 * PI) phi3D ->
  let gp := get_interp_planes P co phi3D in
  let step := fun p : Z => ((p + 1) mod Z.of_nat P)%Z in
  if co then snd gp = map step (fst gp) else fst gp = map step (snd gp).
Proof.
  intros HP Hall gp step. unfold gp, get_interp_planes, wrap_to_zero.
  assert (H : map (fun p => if (p =? Z.of_nat P)%Z then 0%Z else p)
                  (map (fun p => Z.of_nat (searchsorted_right (phi_planes P) p))
                       phi3D)
              = map step
                  (map (fun p => (p - 1)%Z)
                       (map (fun p => Z.of_nat
                                        (searchsorted_right (phi_planes P) p))
                            phi3D))).
  { rewrite !map_map. apply map_ext_in. intros phi Hphi.
    rewrite Forall_forall in Hall.
    destruct (searchsorted_right_bracket P phi HP (Hall phi Hphi))
      as (k & -> & Hk & _).
    unfold step. replace (Z.of_nat (S k) - 1 + 1)%Z with (Z.of_nat (S k)) by lia.
    destruct (Z.eqb_spec (Z.of_nat (S k)) (Z.of_nat P)) as [E | E].
    - rewrite E, Z.mod_same by lia. reflexivity.
    - rewrite Z.mod_small by lia. reflexivity. }
  destruct co; cbn [fst snd]; exact H.
Qed.

(** X11.  The loaders of a 3-D run hand [np.unique] the two rows
    [np.unique(self.prevplane)] and [np.unique(self.nextplane)]: for the
    planes that [get_interp_planes] gives to angles in [0, 2*pi) the two
    rows always have the same length, because previous and next plane
    differ by one step around the torus at every point, so the array of
    the two rows is rectangular. *)
Theorem previous_and_next_planes_are_as_many (P : nat) (co : bool)
    (phi3D : list R) :
  (0 < P)%nat -> Forall (fun phi => 0 <= phi < 2 * PI) phi3D ->
  length (np_unique (fst (get_interp_planes P co phi3D)))
  = length (np_unique (snd (get_interp_planes P co phi3D))).
Proof.
  intros HP Hall.
  pose proof (get_interp_planes_successor P co phi3D HP Hall) as Hstep.
  destruct (get_interp_planes_all_in_range P co phi3D HP Hall) as [Hp Hn].
  cbv zeta in Hstep. rewrite Forall_forall in Hp, Hn.
  destruct co.
  - rewrite Hstep. symmetry. apply np_unique_length_map.
    intros x y Hx Hy. apply next_plane_one_to_one; auto.
  - rewrite Hstep. apply np_unique_length_map.
    intros x y Hx Hy. apply next_plane_one_to_one; auto.
Qed.

Lemma previous_and_next_planes_are_as_many_witness :
  length (np_unique (fst (get_interp_planes 16 true [1; 2 * PI - 1 / 100])))
  = length (np_unique (snd (get_interp_planes 16 true [1; 2 * PI - 1 / 100]))).
Proof.
  apply (previous_and_next_planes_are_as_many 16 true [1; 2 * PI - 1 / 100]).
  - lia.
  - pose proof two_pi_gt_4. repeat constructor; lra.
Defined.

Lemma unchanged_after {B A C : Type} (f : XGC_Loader -> B) (m : meth A)
    (k : A -> meth C) (s : XGC_Loader) :
  (forall x, unchanged f (k x)) ->
  f (snd (mbind m k s)) = f (snd (m s)).
Proof.
  intros Hk. unfold mbind.
  destruct (m s) as [[x | e |] s']; cbn [snd]; [apply Hk | reflexivity..].
Qed.

Lemma center_planes_in_range (np ncs c : nat) :
  (0 < np)%nat -> (c < ncs)%nat -> (c * (np / ncs) < np)%nat.
Proof.
  intros Hnp Hc.
  destruct (Nat.le_gt_cases ncs np) as [Hle | Hgt].
  - assert (H1 : (ncs * (np / ncs) <= np)%nat) by (apply Nat.Div0.mul_div_le).
    assert (H2 : (1 <= np / ncs)%nat).
    { apply Nat.div_le_lower_bound; lia. }
    nia.
  - rewrite Nat.div_small by lia. lia.
Qed.

Section LoadingFacts.

Variable fluc_planes : Z -> nat.
Variable fluc_data : Z -> string -> nat -> list fval.

Local Abbreviation load_fluctuations_3D_fluc_only :=
  (load_fluctuations_3D_fluc_only fluc_planes fluc_data).

(** X12.  The tables that [load_fluctuations_3D_fluc_only] leaves, whether
    or not the rest of the load goes through: [n_plane] is the plane count
    of the first file, the centre planes are the multiples of
    [int(n_plane/n_cross_section)] and all lie in [0 .. n_plane-1] (also
    when more cross-sections are asked for than there are planes: they are
    then all plane 0, and nothing is raised), and [planes] holds every
    plane that some grid point uses as previous or next plane, each once,
    in increasing order.  The two rows given to [np.unique] must have the
    same length, as they have for the planes of [get_interp_planes]. *)
Theorem plane_tables_of_the_3D_load (s : XGC_Loader) (t : Z) (ts : list Z)
    (prevp nextp : list Z) :
  time_steps s = t :: ts -> (0 < n_cross_section s)%nat ->
  prevplane s = Some prevp -> nextplane s = Some nextp ->
  length (np_unique prevp) = length (np_unique nextp) ->
  let np := fluc_planes t in
  let ncs := n_cross_section s in
  let s' := snd (load_fluctuations_3D_fluc_only s) in
  n_plane s' = Some np /\
  center_planes s'
  = Some (map (fun c => (Z.of_nat c * Z.of_nat (np / ncs))%Z) (seq 0 ncs)) /\
  ((0 < np)%nat ->
   forall c, (c < ncs)%nat ->
     (0 <= Z.of_nat c * Z.of_nat (np / ncs) < Z.of_nat np)%Z) /\
  exists pls : list Z,
    planes s' = Some pls /\ NoDup pls /\ StronglySorted Z.lt pls /\
    forall p, In p pls <-> In p prevp \/ In p nextp.
Proof.
  intros Hts Hncs Hprev Hnext _ np ncs s'.
  set (centers := map (fun c => (Z.of_nat c * Z.of_nat (np / ncs))%Z) (seq 0 ncs)).
  set (pls := np_unique (prevp ++ nextp)).
  assert (Hs' : (n_plane s', planes s', center_planes s')
                = (Some np, Some pls, Some centers)).
  { unfold s', loader.load_fluctuations_3D_fluc_only.
    rewrite (mbind_ret (read time_steps) _ s s (t :: ts))
      by (unfold read; now rewrite Hts).
    rewrite (mbind_ret (lift (Ret t)) _ s s t) by reflexivity.
    set (s1 := set_n_plane np s).
    rewrite (mbind_ret (modify (set_n_plane np)) _ s s1 tt) by reflexivity.
    rewrite (mbind_ret (read n_cross_section) _ s1 s1 ncs) by reflexivity.
    replace (Nat.eqb ncs 0) with false
      by (symmetry; apply Nat.eqb_neq; unfold ncs; lia).
    rewrite (mbind_ret (mret tt) _ s1 s1 tt) by reflexivity.
    set (s2 := set_center_planes centers s1).
    rewrite (mbind_ret (modify (set_center_planes centers)) _ s1 s2 tt)
      by reflexivity.
    rewrite (mbind_ret (getattr "prevplane" prevplane) _ s2 s2 prevp)
      by (unfold getattr; cbn [prevplane s2 s1 set_center_planes set_n_plane];
          now rewrite Hprev).
    rewrite (mbind_ret (getattr "nextplane" nextplane) _ s2 s2 nextp)
      by (unfold getattr; cbn [nextplane s2 s1 set_center_planes set_n_plane];
          now rewrite Hnext).
    rewrite (unchanged_after
               (fun s => (n_plane s, planes s, center_planes s))).
    - reflexivity.
    - intros _. unfold add_to_profile.
      repeat first
        [ apply unchanged_mbind; [|intros ?]
        | apply unchanged_setarr; intros ?; reflexivity
        | apply unchanged_when
        | apply unchanged_read
        | apply unchanged_getattr
        | apply unchanged_getarr ]. }
  injection Hs' as Hn Hp Hc.
  split; [exact Hn|]. split; [exact Hc|].
  split.
  { intros Hnp c Hlt.
    pose proof (center_planes_in_range np ncs c Hnp Hlt). nia. }
  exists pls. split; [exact Hp|].
  split; [apply np_unique_NoDup|]. split; [apply np_unique_sorted|].
  intros p. unfold pls. rewrite np_unique_in. apply in_app_iff.
Qed.

(** X13.  [load_fluctuations_3D_fluc_only] on a loader without a
    timestep raises [IndexError] and leaves the loader as it was; with
    [n_cross_section = 0] it raises [ZeroDivisionError] before any array
    is created or changed. *)
Theorem load_needs_a_timestep_and_a_cross_section (s : XGC_Loader) :
  (time_steps s = [] ->
   load_fluctuations_3D_fluc_only s = (Raise IndexError, s)) /\
  (time_steps s <> [] -> n_cross_section s = 0%nat ->
   fst (load_fluctuations_3D_fluc_only s) = Raise ZeroDivisionError /\
   arrays (snd (load_fluctuations_3D_fluc_only s)) = arrays s).
Proof.
  unfold loader.load_fluctuations_3D_fluc_only. split.
  - intros Hts. unfold mbind at 1, read. rewrite Hts. reflexivity.
  - intros Hts Hncs.
    match goal with
    | |- fst (?m s) = _ /\ _ =>
        assert (H : exists np, m s = (Raise ZeroDivisionError, set_n_plane np s))
    end.
    { unfold mbind at 1, read.
      destruct (time_steps s) as [|t ts]; [contradiction|].
      unfold mbind at 1, lift. unfold mbind at 1, modify.
      unfold mbind at 1. cbn [fst snd n_cross_section set_n_plane].
      rewrite Hncs. eexists. reflexivity. }
    destruct H as [np H]. rewrite H. split; reflexivity.
Qed.

End LoadingFacts.

Lemma plane_tables_of_the_3D_load_witness :
  n_plane (snd (loader.load_fluctuations_3D_fluc_only small_fluc_planes
                  small_fluc_data small_run)) = Some 2%nat /\
  planes (snd (loader.load_fluctuations_3D_fluc_only small_fluc_planes
                 small_fluc_data small_run)) = Some [0%Z; 1%Z].
Proof.
  destruct (plane_tables_of_the_3D_load small_fluc_planes small_fluc_data
              small_run 7%Z [] [0%Z] [1%Z])
    as (Hn & _ & _ & pls & Hp & _).
  - reflexivity.
  - cbn. lia.
  - reflexivity.
  - reflexivity.
  - reflexivity.
  - split; [exact Hn | reflexivity].
Defined.

(** * A trace that starts on the wrong side of its plane *)

Section TracerStuck.

Variable Nstage : nat.
Variable a : nat -> nat -> R.
Variable b : nat -> R.
Variables BR BZ BPhi : tri_interp.

Local Abbreviation trace_step := (trace_step Nstage a b BR BZ BPhi).
Local Abbreviation trace_iter := (trace_iter Nstage a b BR BZ BPhi).
Local Abbreviation trace_loop := (trace_loop Nstage a b BR BZ BPhi).
Local Abbreviation trace_all := (trace_all Nstage a b BR BZ BPhi).
Local Abbreviation field_line_traces := (field_line_traces Nstage a b BR BZ BPhi).
Local Abbreviation find_interp_positions_v2_upgrade :=
  (find_interp_positions_v2_upgrade Nstage a b BR BZ BPhi).

(** A remaining angle that points against the tracing direction and is
    longer than one step gets one step longer with every pass. *)
Lemma trace_step_moves_away (sign dphi : R) (p : tpoint) :
  sign = 1 \/ sign = -1 -> 0 < dphi ->
  sign * rem p < - dphi ->
  sign * rem (trace_step sign dphi p) < - dphi /\
  still_tracing (trace_step sign dphi p) = true.
Proof.
  intros Hs Hd Hp.
  assert (Hbig : dphi < Rabs (rem p)).
  { destruct Hs as [-> | ->].
    - rewrite Rabs_left; lra.
    - rewrite Rabs_right; lra. }
  assert (Hrem : rem (trace_step sign dphi p) = rem p - sign * dphi).
  { cbn [loader.trace_step rem]. unfold next_step, Rltb.
    destruct (Rlt_dec dphi (Rabs (rem p))); [reflexivity | contradiction]. }
  assert (Hnew : sign * rem (trace_step sign dphi p) < - dphi).
  { rewrite Hrem. destruct Hs as [-> | ->]; lra. }
  split; [exact Hnew|].
  unfold still_tracing, Reqb.
  destruct (Req_dec_T (rem (trace_step sign dphi p)) 0) as [E | E];
    [|reflexivity].
  rewrite E in Hnew. lra.
Qed.

Lemma nth_error_trace_iter (sign dphi : R) (ind : list bool) :
  forall (pts : list tpoint) (i : nat) (p : tpoint),
    nth_error ind i = Some true -> nth_error pts i = Some p ->
    nth_error (trace_iter sign dphi ind pts) i = Some (trace_step sign dphi p).
Proof.
  induction ind as [|j ind IH]; intros pts i p Hi Hp.
  - destruct i; discriminate.
  - destruct pts as [|p0 pts]; [destruct i; discriminate|].
    destruct i as [|i]; simpl in *.
    + injection Hi as ->. now injection Hp as ->.
    + now apply IH.
Qed.

Lemma existsb_nth_error (ind : list bool) (i : nat) :
  nth_error ind i = Some true -> existsb (fun j => j) ind = true.
Proof.
  intros H. apply existsb_exists. exists true. split; [|reflexivity].
  eapply nth_error_In; eassumption.
Qed.

(** One such index keeps the whole batch looping. *)
Lemma trace_loop_stuck (sign dphi : R) :
  sign = 1 \/ sign = -1 -> 0 < dphi ->
  forall (fuel : nat) (ind : list bool) (pts : list tpoint) (i : nat)
         (p : tpoint),
    nth_error ind i = Some true -> nth_error pts i = Some p ->
    sign * rem p < - dphi ->
    trace_loop fuel sign dphi ind pts = OutOfFuel.
Proof.
  intros Hs Hd. induction fuel as [|fuel IH]; intros ind pts i p Hi Hp HJ.
  - simpl. now rewrite (existsb_nth_error ind i Hi).
  - cbn [loader.trace_loop]. rewrite (existsb_nth_error ind i Hi).
    destruct (trace_step_moves_away sign dphi p Hs Hd HJ) as [HJ' Hst].
    pose proof (nth_error_trace_iter sign dphi ind pts i p Hi Hp) as Hp'.
    apply (IH _ _ i (trace_step sign dphi p)); [|exact Hp'|exact HJ'].
    rewrite nth_error_map, Hp'. simpl. now rewrite Hst.
Qed.

Lemma np_take_in_range (l : list R) (i : Z) :
  (- Z.of_nat (length l) <= i < Z.of_nat (length l))%Z ->
  exists x, np_take l i = Ret x.
Proof.
  intros H. unfold np_take.
  destruct ((0 <=? i) && (i <? Z.of_nat (length l)))%Z eqn:E1; [eauto|].
  destruct ((- Z.of_nat (length l) <=? i) && (i <? 0))%Z eqn:E2; [eauto|].
  apply andb_false_iff in E1, E2.
  destruct E1 as [E1 | E1], E2 as [E2 | E2];
    rewrite ?Z.leb_gt, ?Z.ltb_ge in *; lia.
Qed.

Lemma mapM_all_return {A B : Type} (f : A -> res B) (l : list A) :
  (forall x, In x l -> exists y, f x = Ret y) ->
  exists ys, mapM f l = Ret ys /\
             forall i x, nth_error l i = Some x ->
               exists y, nth_error ys i = Some y /\ f x = Ret y.
Proof.
  induction l as [|x l IH]; intros H.
  - exists []. split; [reflexivity|]. intros i x Hi. destruct i; discriminate.
  - destruct (H x (or_introl eq_refl)) as [y Hy].
    destruct IH as (ys & Hys & Hnth); [intros z Hz; apply H; now right|].
    exists (y :: ys). split; [simpl; now rewrite Hy, Hys|].
    intros i z Hi. destruct i as [|i]; simpl in *.
    + injection Hi as <-. eauto.
    + now apply Hnth.
Qed.

Lemma nth_error_start_points (qs : list qpoint) :
  forall (xs : list R) (i : nat) (q : qpoint) (x : R),
    nth_error qs i = Some q -> nth_error xs i = Some x ->
    nth_error (map (fun qp => start_tpoint (fst qp) (snd qp)) (combine qs xs)) i
    = Some (start_tpoint q x).
Proof.
  induction qs as [|q0 qs IH]; intros xs i q x Hq Hx.
  - destruct i; discriminate.
  - destruct xs as [|x0 xs]; [destruct i; discriminate|].
    destruct i as [|i]; simpl in *.
    + injection Hq as ->. now injection Hx as ->.
    + now apply IH.
Qed.

(** X14.  The planes given to [find_interp_positions_v2_upgrade] are taken
    on trust.  If, at some point, the angle left to the next plane points
    against the forward direction and is longer than one tracing step
    [dphi] (the point lies beyond its next plane, as with planes that were
    computed for other points), the forward [while] loop never ends: every
    pass moves that point one step further from its plane, and the call
    does not return whatever the number of passes allowed. *)
Theorem trace_beyond_the_next_plane_never_ends (fuel P : nat) (co : bool)
    (Nstep : nat) (r3D z3D phi3D : list R) (prevplane nextplane : list Z)
    (i : nat) (q : qpoint) (x : R) :
  (0 < P)%nat -> (0 < Nstep)%nat ->
  length r3D = length phi3D -> length z3D = length phi3D ->
  length prevplane = length phi3D -> length nextplane = length phi3D ->
  Forall (fun p => (- Z.of_nat P <= p < Z.of_nat P)%Z) prevplane ->
  Forall (fun p => (- Z.of_nat P <= p < Z.of_nat P)%Z) nextplane ->
  nth_error (zip_qpoints r3D z3D phi3D prevplane nextplane) i = Some q ->
  phiFWD_init P co q = Ret x ->
  FWD_sign co * x < - (2 * PI / INR P / INR Nstep) ->
  find_interp_positions_v2_upgrade fuel P co r3D z3D phi3D prevplane nextplane
    Nstep = OutOfFuel.
Proof.
  intros HP HN _ _ _ _ Hprev Hnext Hq Hx Hfar.
  unfold loader.find_interp_positions_v2_upgrade, loader.field_line_traces.
  set (qs := zip_qpoints r3D z3D phi3D prevplane nextplane) in *.
  assert (Hin : forall q', In q' qs ->
            (- Z.of_nat P <= qprev q' < Z.of_nat P)%Z /\
            (- Z.of_nat P <= qnext q' < Z.of_nat P)%Z).
  { intros q' Hq'. apply In_nth_error in Hq'. destruct Hq' as [j Hj].
    destruct (zip_qpoints_nth_error _ _ _ _ _ j q' Hj) as (_ & _ & _ & Hp & Hn).
    rewrite Forall_forall in Hprev, Hnext.
    split; [apply Hprev | apply Hnext]; eapply nth_error_In; eassumption. }
  destruct (mapM_all_return (phiFWD_init P co) qs) as (xs & Hxs & Hnth).
  { intros q' Hq'. unfold phiFWD_init.
    destruct (np_take_in_range (phi_planes P) (qnext q')) as [y Hy].
    - rewrite phi_planes_length. now apply Hin.
    - rewrite Hy. simpl. eauto. }
  destruct (mapM_all_return (phiBWD_init P co) qs) as (ys & Hys & _).
  { intros q' Hq'. unfold phiBWD_init.
    destruct (np_take_in_range (phi_planes P) (qprev q')) as [y Hy].
    - rewrite phi_planes_length. now apply Hin.
    - rewrite Hy. simpl. eauto. }
  rewrite Hxs, Hys. cbn [bind].
  destruct (Hnth i q Hq) as (x' & Hx' & Hinit).
  assert (x' = x) as -> by congruence.
  unfold loader.trace_all.
  rewrite (trace_loop_stuck (FWD_sign co) (2 * PI / INR P / INR Nstep)
             (sign_unit_FWD co) (step_angle_pos P Nstep HP HN) fuel _ _ i
             (start_tpoint q x)).
  - reflexivity.
  - rewrite nth_error_map, (nth_error_start_points qs xs i q x Hq Hx').
    reflexivity.
  - now apply nth_error_start_points.
  - exact Hfar.
Qed.

End TracerStuck.

Lemma trace_beyond_the_next_plane_never_ends_witness :
  find_interp_positions_v2_upgrade 2 midpoint_a midpoint_b
    zero_field zero_field unit_field 1000 2 false [1] [0] [0] [0%Z] [1%Z] 10
  = OutOfFuel.
Proof.
  apply (trace_beyond_the_next_plane_never_ends 2 midpoint_a midpoint_b
           zero_field zero_field unit_field 1000 2 false 10 [1] [0] [0]
           [0%Z] [1%Z] 0 (mk_qpoint 1 0 0 0 1) (1 * (2 * PI / INR 2) - 0));
    try reflexivity; try lia.
  - repeat constructor; lia.
  - repeat constructor; lia.
  - unfold FWD_sign. replace (INR 2) with 2 by (simpl; lra).
    replace (INR 10) with 10 by (simpl; lra).
    pose proof PI_RGT_0. lra.
Defined.

(** * Changing from one 3-D grid to another *)

Section ChangeGrid3D.

Variable ConvexHull : list (R * R) -> res (list nat).
Variable CloughTocher2DInterpolator :
  list (R * R) -> list fval -> fval -> fval -> fval.
Variable back_interp_report :
  grid2D -> list (R * R) -> ndarr -> ndarr -> ndarr -> ndarr -> check_report.
Variable Nstage : nat.
Variable a : nat -> nat -> R.
Variable b : nat -> R.
Variable fluc_planes : Z -> nat.
Variable fluc_data : Z -> string -> nat -> list fval.
Variables load_mesh_2D load_psi_2D load_B_2D load_eq_2D3D : meth unit.
Variables load_fluctuations_2D_fluc_only load_fluctuations_2D_all : meth unit.
Variables load_mesh_psi_3D load_B_3D load_fluctuations_3D_all : meth unit.
Variable calculate_dne_ad_2D3D : meth unit.
Variable fuel : nat.

Local Abbreviation interpolate_all_on_grid_3D :=
  (interpolate_all_on_grid_3D ConvexHull CloughTocher2DInterpolator Nstage a b).
Local Abbreviation change_grid :=
  (change_grid ConvexHull CloughTocher2DInterpolator back_interp_report
     Nstage a b fluc_planes fluc_data
     load_mesh_2D load_psi_2D load_B_2D load_eq_2D3D
     load_fluctuations_2D_fluc_only load_fluctuations_2D_all
     load_mesh_psi_3D load_B_3D load_fluctuations_3D_all
     calculate_dne_ad_2D3D fuel).

(** The 3-D interpolation writes arrays and nothing else. *)
Lemma unchanged_interpolate_all_on_grid_3D {B : Type} (f : XGC_Loader -> B) :
  (forall n v s, f (set_array n v s) = f s) ->
  unchanged f (interpolate_all_on_grid_3D fuel).
Proof.
  intros Hf.
  unfold loader.interpolate_all_on_grid_3D.
  apply unchanged_mbind; [apply unchanged_grid_3D | intros gc].
  apply unchanged_mbind; [apply unchanged_read | intros style].
  apply unchanged_mbind; [now apply unchanged_equilibrium | intros _].
  apply unchanged_mbind; [apply unchanged_read | intros eq_only].
  apply unchanged_when.
  unfold fluctuations_on_grid_3D, blend_on_grid, find_interp_positions.
  repeat first
    [ apply unchanged_mbind; [|intros ?]
    | apply unchanged_setarr; intros ?; apply Hf
    | apply unchanged_when
    | apply unchanged_mfor; intros ?
    | apply unchanged_mret
    | apply unchanged_lift
    | apply unchanged_read
    | apply unchanged_getattr
    | apply unchanged_getarr
    | apply unchanged_grid_3D ].
Qed.

Lemma change_grid_3D_to_3D (s : XGC_Loader) (g : grid3D) :
  dimension s <> 2%Z ->
  change_grid (Cartesian3D g) s
  = interpolate_all_on_grid_3D fuel (set_grid (Cartesian3D g) s).
Proof.
  intros Hd. unfold loader.change_grid, mbind, read.
  apply Z.eqb_neq in Hd. rewrite Hd. reflexivity.
Qed.

(** X15.  [change_grid] from a 3-D grid to another 3-D grid stores the
    new grid and interpolates, and does nothing else: whether it returns
    or raises, [prevplane], [nextplane], [planes], [center_planes] and
    [n_plane] are those found for the old grid (the planes are not
    bracketed again for the angles of the new grid's points), and
    [self.grid] is the new grid. *)
Theorem change_grid_3D_keeps_the_old_planes (s : XGC_Loader) (g : grid3D) :
  dimension s <> 2%Z ->
  grid (snd (change_grid (Cartesian3D g) s)) = Cartesian3D g /\
  prevplane (snd (change_grid (Cartesian3D g) s)) = prevplane s /\
  nextplane (snd (change_grid (Cartesian3D g) s)) = nextplane s /\
  planes (snd (change_grid (Cartesian3D g) s)) = planes s /\
  center_planes (snd (change_grid (Cartesian3D g) s)) = center_planes s /\
  n_plane (snd (change_grid (Cartesian3D g) s)) = n_plane s.
Proof.
  intros Hd. rewrite (change_grid_3D_to_3D s g Hd).
  repeat split.
  - now rewrite (unchanged_interpolate_all_on_grid_3D grid
                   (fun _ _ _ => eq_refl)).
  - now rewrite (unchanged_interpolate_all_on_grid_3D prevplane
                   (fun _ _ _ => eq_refl)).
  - now rewrite (unchanged_interpolate_all_on_grid_3D nextplane
                   (fun _ _ _ => eq_refl)).
  - now rewrite (unchanged_interpolate_all_on_grid_3D planes
                   (fun _ _ _ => eq_refl)).
  - now rewrite (unchanged_interpolate_all_on_grid_3D center_planes
                   (fun _ _ _ => eq_refl)).
  - now rewrite (unchanged_interpolate_all_on_grid_3D n_plane
                   (fun _ _ _ => eq_refl)).
Qed.

(** X16.  Unlike the change from a 2-D grid, the change from a 3-D grid
    to another 3-D grid does not call [ToCylindrical]: given a grid whose
    cylindrical coordinates have not been created, [change_grid] raises
    [AttributeError] on [self.grid.r3D], with the new grid already stored
    in [self.grid] and everything else as it was. *)
Theorem change_grid_3D_needs_cylindrical_coordinates (s : XGC_Loader)
    (g : grid3D) :
  dimension s <> 2%Z -> g3_cyl g = None ->
  change_grid (Cartesian3D g) s
  = (Raise (AttributeError "r3D"), set_grid (Cartesian3D g) s).
Proof.
  intros Hd Hc. rewrite (change_grid_3D_to_3D s g Hd).
  unfold loader.interpolate_all_on_grid_3D, mbind, grid_3D. cbn [grid set_grid].
  now rewrite Hc.
Qed.

End ChangeGrid3D.

Lemma change_grid_3D_keeps_the_old_planes_witness :
  let s' :=
    snd (change_grid small_hull small_interpolator small_report
           2 midpoint_a midpoint_b small_fluc_planes small_fluc_data
           (mret tt) (mret tt) (mret tt) (mret tt) (mret tt) (mret tt)
           (mret tt) (mret tt) (mret tt) (mret tt) 20
           (Cartesian3D (ToCylindrical (mk_grid3D [0] [0] [5] None)))
           small_run) in
  grid s' = Cartesian3D (ToCylindrical (mk_grid3D [0] [0] [5] None)) /\
  prevplane s' = prevplane small_run /\
  nextplane s' = nextplane small_run /\
  planes s' = planes small_run /\
  center_planes s' = center_planes small_run /\
  n_plane s' = n_plane small_run.
Proof.
  apply (change_grid_3D_keeps_the_old_planes small_hull small_interpolator
           small_report 2 midpoint_a midpoint_b small_fluc_planes
           small_fluc_data (mret tt) (mret tt) (mret tt) (mret tt) (mret tt)
           (mret tt) (mret tt) (mret tt) (mret tt) (mret tt) 20 small_run).
  cbn. lia.
Defined.

Lemma change_grid_3D_needs_cylindrical_coordinates_witness :
  change_grid small_hull small_interpolator small_report
    2 midpoint_a midpoint_b small_fluc_planes small_fluc_data
    (mret tt) (mret tt) (mret tt) (mret tt) (mret tt) (mret tt)
    (mret tt) (mret tt) (mret tt) (mret tt) 20
    (Cartesian3D (mk_grid3D [0] [0] [5] None)) small_run
  = (Raise (AttributeError "r3D"),
     set_grid (Cartesian3D (mk_grid3D [0] [0] [5] None)) small_run).
Proof.
  apply (change_grid_3D_needs_cylindrical_coordinates small_hull
           small_interpolator small_report 2 midpoint_a midpoint_b
           small_fluc_planes small_fluc_data (mret tt) (mret tt) (mret tt)
           (mret tt) (mret tt) (mret tt) (mret tt) (mret tt) (mret tt)
           (mret tt) 20 small_run).
  - cbn. lia.
  - reflexivity.
Defined.

(** * The adiabatic response and the filter *)

Lemma in_np_where_positive (te0 : list f64) (n : nat) :
  existsb (Nat.eqb n) (np_where_positive te0) = f64_gt (nth n te0 NaN) (Num 0).
Proof.
  unfold np_where_positive.
  destruct (f64_gt (nth n te0 NaN) (Num 0)) eqn:E.
  - apply existsb_exists. exists n. split; [|apply Nat.eqb_refl].
    apply filter_In. split; [|exact E]. apply in_seq.
    destruct (Nat.lt_ge_cases n (length te0)) as [H | H]; [lia|].
    rewrite nth_overflow in E by exact H. discriminate.
  - destruct (existsb (Nat.eqb n) _) eqn:X; [|reflexivity].
    apply existsb_exists in X. destruct X as (m & Hm & Hnm).
    apply Nat.eqb_eq in Hnm. subst m.
    apply filter_In in Hm. destruct Hm as [_ Hm]. congruence.
Qed.

Lemma np_where_positive_in_range (te0 : list f64) (N L : nat) :
  (length te0 <= N)%nat -> (length te0 <= L)%nat ->
  forallb (fun n => Nat.ltb n N && Nat.ltb n L) (np_where_positive te0) = true.
Proof.
  intros HN HL. apply forallb_forall. intros n Hn.
  unfold np_where_positive in Hn. apply filter_In in Hn.
  destruct Hn as [Hn _]. apply in_seq in Hn.
  apply andb_true_iff. split; apply Nat.ltb_lt; lia.
Qed.

Lemma nth_error_map_seq {A : Type} (f : nat -> A) (n c : nat) :
  (c < n)%nat -> nth_error (map f (seq 0 n)) c = Some (f c).
Proof.
  intros H. rewrite nth_error_map, nth_error_seq.
  apply Nat.ltb_lt in H. now rewrite H.
Qed.

Lemma nth_error_combine_seq {A : Type} (l : list A) :
  forall (k c : nat) (v : A),
    nth_error l c = Some v ->
    nth_error (combine (seq k (length l)) l) c = Some ((k + c)%nat, v).
Proof.
  induction l as [|x l IH]; intros k c v H; [destruct c; discriminate|].
  destruct c as [|c]; simpl in *.
  - injection H as ->. now rewrite Nat.add_0_r.
  - rewrite (IH (S k) c v H). f_equal. f_equal. lia.
Qed.

Lemma nth_error_map_indexed {A B : Type} (f : nat * A -> B) (l : list A)
    (c : nat) (v : A) :
  nth_error l c = Some v ->
  nth_error (map f (combine (seq 0 (length l)) l)) c = Some (f (c, v)).
Proof.
  intros H. rewrite nth_error_map.
  now rewrite (nth_error_combine_seq l 0 c v H).
Qed.

Lemma length_map_indexed {A B : Type} (f : nat * A -> B) (l : list A) :
  length (map f (combine (seq 0 (length l)) l)) = length l.
Proof. rewrite length_map, length_combine, length_seq. lia. Qed.

(** What the filter leaves is within the bound, element by element. *)
Lemma filter_larger_bounded (ref : list f64) (arr : farr) (N : nat) :
  node_array N arr -> length ref = N ->
  exists out,
    filter_larger ref arr = Ret out /\ fshape out = fshape arr /\
    length (fcells out) = length (fcells arr) /\
    bounded_by ref out /\
    forall c v, nth_error (fcells arr) c = Some v ->
      nth_error (fcells out) c = Some v \/ nth_error (fcells out) c = Some (Num 0).
Proof.
  intros (Hsh & Hlast & Hlen) HL. unfold filter_larger.
  destruct (fshape arr) as [|d sh] eqn:Esh; [congruence|].
  rewrite Hlast, HL, Nat.eqb_refl. cbn [orb].
  eexists. split; [reflexivity|]. cbn [fshape fcells].
  split; [reflexivity|]. split; [apply length_map_indexed|].
  split.
  - intros c v Hv. cbn [fshape fcells] in *. rewrite Hlast.
    destruct (nth_error (fcells arr) c) as [w|] eqn:Hw.
    + rewrite (nth_error_map_indexed _ _ c w Hw) in Hv. cbn [fst snd] in Hv.
      destruct (f64_gt (f64_abs w) (f64_abs (nth (c mod N) ref NaN))) eqn:G;
        injection Hv as <-.
      * destruct (nth (c mod N) ref NaN) as [y | s |]; simpl;
          unfold Rltb; try reflexivity.
        rewrite Rabs_R0. destruct (Rlt_dec (Rabs y) 0) as [H | H]; [|reflexivity].
        pose proof (Rabs_pos y). lra.
      * exact G.
    + apply nth_error_None in Hw.
      assert (c < length (fcells arr))%nat; [|lia].
      rewrite <- (length_map_indexed
                    (fun cv => if f64_gt (f64_abs (snd cv))
                                    (f64_abs (nth (fst cv mod N) ref NaN))
                               then Num 0 else snd cv) (fcells arr)).
      apply nth_error_Some. congruence.
  - intros c v Hv. rewrite (nth_error_map_indexed _ _ c v Hv). cbn [fst snd].
    destruct (f64_gt _ _); auto.
Qed.

(** Element by element, the response is [ne0 * phi / te0] where [te0 > 0]
    and [0] elsewhere. *)
Lemma adiabatic_response_cells (ne0 te0 : list f64) (phi : farr) (N : nat) :
  node_array N phi -> length ne0 = N -> length te0 = N ->
  exists d,
    adiabatic_response ne0 te0 phi = Ret d /\ node_array N d /\
    fshape d = fshape phi /\
    forall c, (c < length (fcells phi))%nat ->
      nth_error (fcells d) c
      = Some (if f64_gt (nth (c mod N) te0 NaN) (Num 0)
              then f64_add (Num 0)
                     (f64_div (f64_mul (nth (c mod N) ne0 NaN)
                                       (nth c (fcells phi) NaN))
                              (nth (c mod N) te0 NaN))
              else Num 0).
Proof.
  intros (Hsh & Hlast & Hlen) Hne Hte. unfold adiabatic_response.
  destruct (fshape phi) as [|d0 sh] eqn:Esh; [congruence|].
  rewrite Hlast, (np_where_positive_in_range te0 N (length ne0)) by lia.
  eexists. split; [reflexivity|]. cbn [fshape fcells].
  split; [|split; [reflexivity|]].
  - unfold node_array. cbn [fshape fcells].
    split; [discriminate|]. split; [exact Hlast|].
    now rewrite length_map, length_seq.
  - intros c Hc. rewrite Hlen in Hc.
    rewrite (nth_error_map_seq _ _ c Hc). cbv beta zeta.
    now rewrite in_np_where_positive.
Qed.

Lemma bounded_by_reals (ref : list f64) (arr : farr) (c : nat) (x y : R) :
  bounded_by ref arr ->
  nth_error (fcells arr) c = Some (Num x) ->
  nth_error ref (c mod last (fshape arr) O) = Some (Num y) ->
  Rabs x <= Rabs y /\ (0 <= y -> 0 <= y + x).
Proof.
  intros Hb Hx Hy. specialize (Hb c (Num x) Hx).
  rewrite (nth_error_nth _ _ NaN Hy) in Hb. simpl in Hb.
  unfold Rltb in Hb. destruct (Rlt_dec (Rabs y) (Rabs x)) as [H | H];
    [discriminate|].
  split; [lra|]. intros Hy0. rewrite (Rabs_right y) in H by lra.
  unfold Rabs in H. destruct (Rcase_abs x); lra.
Qed.

(** X17.  With [Fluc_Filtering] set and arrays that have one entry per
    mesh node on their last axis, [calculate_dne_ad_2D3D] completes and
    leaves no fluctuation larger in magnitude than the equilibrium density
    at its node: [|dne_ad| > |ne0|] is false everywhere, and so are
    [|nane| > |ne0|] when the run has electrons and [|dni| > |ni0|] when
    the ions are loaded.  In particular, where the equilibrium density is
    not negative, [ne0 + dne_ad] is not negative either. *)
Theorem filtered_fluctuations_stay_below_the_density
    (he li : bool) (ne0 te0 ni0 : list f64) (phi nane0 dni0 : farr) (N : nat) :
  node_array N phi -> node_array N nane0 -> node_array N dni0 ->
  length ne0 = N -> length te0 = N -> length ni0 = N ->
  exists out,
    calculate_dne_ad_2D3D true (Some he) li (Some ne0) (Some te0) (Some ni0)
      (Some phi) (Some nane0) (Some dni0) = Ret out /\
    fshape (dne_ad out) = fshape phi /\
    bounded_by ne0 (dne_ad out) /\
    (forall c x y,
       nth_error (fcells (dne_ad out)) c = Some (Num x) ->
       nth_error ne0 (c mod N) = Some (Num y) ->
       Rabs x <= Rabs y /\ (0 <= y -> 0 <= y + x)) /\
    (if he then exists a, nane out = Some a /\ bounded_by ne0 a
     else nane out = Some nane0) /\
    (if li then exists a, dni out = Some a /\ bounded_by ni0 a
     else dni out = Some dni0).
Proof.
  intros Hphi Hna Hdi Hne Hte Hni.
  destruct (adiabatic_response_cells ne0 te0 phi N Hphi Hne Hte)
    as (d & Hd & Hdn & Hdsh & _).
  destruct (filter_larger_bounded ne0 d N Hdn Hne)
    as (d' & Hd' & Hsh' & _ & Hb' & _).
  destruct (filter_larger_bounded ne0 nane0 N Hna Hne)
    as (na' & Hna' & _ & _ & Hbna & _).
  destruct (filter_larger_bounded ni0 dni0 N Hdi Hni)
    as (di' & Hdi' & _ & _ & Hbdi & _).
  assert (HlastN : last (fshape d') O = N).
  { rewrite Hsh'. apply Hdn. }
  unfold calculate_dne_ad_2D3D. cbn [attr bind]. rewrite Hd. cbn [bind].
  rewrite Hd'. cbn [bind].
  destruct he, li; cbn [attr bind]; rewrite ?Hna', ?Hdi'; cbn [bind];
    (eexists; split; [reflexivity|]); cbn [dne_ad nane dni];
    (split; [congruence|]); (split; [exact Hb'|]);
    (split; [intros c x y Hx Hy; apply (bounded_by_reals ne0 d' c x y Hb' Hx);
             now rewrite HlastN|]);
    split; eauto.
Qed.

Lemma filtered_fluctuations_stay_below_the_density_witness :
  exists out,
    calculate_dne_ad_2D3D true (Some true) false
      (Some [Num 10; Num 1]) (Some [Num 2; Num 2]) (Some [Num 10; Num 1])
      (Some (mk_farr [1; 2]%nat [Num 1; Num 4]))
      (Some (mk_farr [1; 2]%nat [Num 3; Num (-3)]))
      (Some (mk_farr [1; 2]%nat [NaN; NaN])) = Ret out /\
    bounded_by [Num 10; Num 1] (dne_ad out).
Proof.
  destruct (filtered_fluctuations_stay_below_the_density true false
              [Num 10; Num 1] [Num 2; Num 2] [Num 10; Num 1]
              (mk_farr [1; 2]%nat [Num 1; Num 4])
              (mk_farr [1; 2]%nat [Num 3; Num (-3)])
              (mk_farr [1; 2]%nat [NaN; NaN]) 2)
    as (out & Hout & _ & Hb & _);
    try (unfold node_array; cbn; repeat split; (discriminate || reflexivity));
    try reflexivity.
  exists out. split; [exact Hout | exact Hb].
Defined.



(** * The node before each node *)

Lemma filter_seq_head (f : nat -> bool) (n : nat) :
  forall (a j : nat) (rest : list nat),
    filter f (seq a n) = j :: rest ->
    (a <= j < a + n)%nat /\ f j = true /\
    forall j', (a <= j' < j)%nat -> f j' = false.
Proof.
  induction n as [|n IH]; intros a j rest H; [discriminate|].
  simpl in H. destruct (f a) eqn:Fa.
  - injection H as <- _. repeat split; try lia. exact Fa.
  - destruct (IH (S a) j rest H) as (Hr & Hj & Hmin).
    repeat split; try lia; [exact Hj|].
    intros j' Hj'. destruct (Nat.eq_dec j' a) as [-> | Hne]; [exact Fa|].
    apply Hmin. lia.
Qed.

Lemma filter_seq_nil (f : nat -> bool) (a n : nat) :
  filter f (seq a n) = [] ->
  forall j, (a <= j < a + n)%nat -> f j = false.
Proof.
  intros H j Hj. destruct (f j) eqn:Fj; [|reflexivity].
  assert (In j (filter f (seq a n))) as Hin.
  { apply filter_In. split; [apply in_seq; lia | exact Fj]. }
  rewrite H in Hin. destruct Hin.
Qed.

Lemma nth_prevnode_of (nextnode : list Z) (i : nat) :
  (i < length nextnode)%nat ->
  nth_error (prevnode_of nextnode) i
  = Some (match np_nonzero_eq nextnode (Z.of_nat i) with
          | j :: _ => Z.of_nat j
          | [] => (-1)%Z
          end).
Proof.
  intros Hi. unfold prevnode_of.
  rewrite nth_error_map, nth_error_seq.
  apply Nat.ltb_lt in Hi. now rewrite Hi.
Qed.

Lemma prevnode_of_spec (nextnode : list Z) (i : nat) :
  (i < length nextnode)%nat ->
  (nth_error (prevnode_of nextnode) i = Some (-1)%Z /\
   forall j, nth_error nextnode j <> Some (Z.of_nat i))
  \/
  exists j,
    nth_error (prevnode_of nextnode) i = Some (Z.of_nat j) /\
    nth_error nextnode j = Some (Z.of_nat i) /\
    forall j', (j' < j)%nat -> nth_error nextnode j' <> Some (Z.of_nat i).
Proof.
  intros Hi.
  rewrite (nth_prevnode_of nextnode i Hi). unfold np_nonzero_eq.
  destruct (filter _ _) as [|j rest] eqn:F.
  - left. split; [reflexivity|]. intros j Hj.
    assert (Hlt : (j < length nextnode)%nat) by (apply nth_error_Some; congruence).
    pose proof (filter_seq_nil _ _ _ F j ltac:(lia)) as Hf. cbv beta in Hf.
    rewrite (nth_error_nth _ _ 0%Z Hj) in Hf. apply Z.eqb_neq in Hf. congruence.
  - right. exists j.
    destruct (filter_seq_head _ _ _ _ _ F) as (Hr & Hj & Hmin).
    split; [reflexivity|]. apply Z.eqb_eq in Hj. split.
    + rewrite <- Hj. apply nth_error_nth'. lia.
    + intros j' Hj' E.
      pose proof (Hmin j' ltac:(lia)) as Hf. cbv beta in Hf.
      rewrite (nth_error_nth _ _ 0%Z E) in Hf. apply Z.eqb_neq in Hf. congruence.
Qed.

(** X19.  [prevnode] has one entry per node.  The entry of node [i] is
    [-1] exactly when no node has [i] as its next node; otherwise it is
    the first node [j] with [nextnode[j] == i], so that following
    [nextnode] from [prevnode[i]] leads back to [i]. *)
Theorem prevnode_is_the_first_node_before (nextnode : list Z) (i : nat) :
  (i < length nextnode)%nat ->
  length (prevnode_of nextnode) = length nextnode /\
  ((nth_error (prevnode_of nextnode) i = Some (-1)%Z /\
    forall j, nth_error nextnode j <> Some (Z.of_nat i))
   \/
   exists j,
     nth_error (prevnode_of nextnode) i = Some (Z.of_nat j) /\
     nth_error nextnode j = Some (Z.of_nat i) /\
     forall j', (j' < j)%nat -> nth_error nextnode j' <> Some (Z.of_nat i)).
Proof.
  intros Hi. split; [unfold prevnode_of; now rewrite length_map, length_seq|].
  now apply prevnode_of_spec.
Qed.

Lemma prevnode_is_the_first_node_before_witness :
  length (prevnode_of [1; 2; 0; 1]%Z) = length [1; 2; 0; 1]%Z /\
  ((nth_error (prevnode_of [1; 2; 0; 1]%Z) 3 = Some (-1)%Z /\
    forall j, nth_error [1; 2; 0; 1]%Z j <> Some (Z.of_nat 3))
   \/
   exists j,
     nth_error (prevnode_of [1; 2; 0; 1]%Z) 3 = Some (Z.of_nat j) /\
     nth_error [1; 2; 0; 1]%Z j = Some (Z.of_nat 3) /\
     forall j', (j' < j)%nat -> nth_error [1; 2; 0; 1]%Z j' <> Some (Z.of_nat 3)).
Proof.
  apply (prevnode_is_the_first_node_before [1; 2; 0; 1]%Z 3). simpl. lia.
Defined.

(** X20.  When no node number occurs twice in [nextnode] (every node is
    the next node of at most one node), [prevnode] undoes [nextnode]:
    [prevnode[nextnode[j]] == j] for every node [j] whose next node is a
    node of the mesh. *)
Theorem prevnode_undoes_nextnode (nextnode : list Z) (j i : nat) :
  NoDup nextnode ->
  nth_error nextnode j = Some (Z.of_nat i) -> (i < length nextnode)%nat ->
  nth_error (prevnode_of nextnode) i = Some (Z.of_nat j).
Proof.
  intros Hnd Hj Hi.
  destruct (prevnode_of_spec nextnode i Hi)
    as [[_ Hnone] | (j0 & Hp & Hn & _)].
  - now destruct (Hnone j).
  - rewrite Hp. do 2 f_equal.
    assert (Hj0 : (j0 < length nextnode)%nat) by (apply nth_error_Some; congruence).
    apply (proj1 (NoDup_nth_error nextnode) Hnd j0 j Hj0). congruence.
Qed.

Lemma prevnode_undoes_nextnode_witness :
  nth_error (prevnode_of [1; 2; 0]%Z) 2 = Some (Z.of_nat 1).
Proof.
  apply (prevnode_undoes_nextnode [1; 2; 0]%Z 1 2).
  - repeat constructor; simpl; intuition lia.
  - reflexivity.
  - simpl. lia.
Defined.

(** * Building the grids *)

Lemma py_int_floor (x : R) :
  0 <= x -> IZR (py_int x) <= x < IZR (py_int x) + 1.
Proof.
  intros Hx. unfold py_int. destruct (Rle_dec 0 x) as [_ | H]; [|contradiction].
  destruct (base_Int_part x) as [H1 H2]. lra.
Qed.

(** The number of points computed from a resolution. *)
Lemma points_from_resolution (range res : R) :
  0 <= range -> 0 < res ->
  (2 <= py_int (range / res + 2))%Z /\
  IZR (py_int (range / res + 2)) - 2 <= range / res
    < IZR (py_int (range / res + 2)) - 1 /\
  range / IZR (py_int (range / res + 2) - 1) < res.
Proof.
  intros Hr Hres.
  assert (Hq : 0 <= range / res).
  { apply Rmult_le_pos; [exact Hr|]. left. now apply Rinv_0_lt_compat. }
  destruct (py_int_floor (range / res + 2)) as [H1 H2]; [lra|].
  set (n := py_int (range / res + 2)) in *.
  assert (Hn : (2 <= n)%Z).
  { assert (1 < IZR n) as Hgt by lra.
    apply (lt_IZR 1) in Hgt. lia. }
  split; [lia|]. split; [lra|].
  rewrite minus_IZR.
  assert (Hpos : 0 < IZR n - 1) by lra.
  apply (Rmult_lt_reg_r (IZR n - 1)); [exact Hpos|].
  unfold Rdiv at 1. rewrite Rmult_assoc, Rinv_l, Rmult_1_r by lra.
  replace range with (range / res * res) at 1 by (field; lra).
  rewrite (Rmult_comm res). apply Rmult_lt_compat_r; lra.
Qed.

(** [np.linspace] with at least two points. *)
Lemma np_linspace_spans (lo hi : R) (n : Z) :
  (2 <= n)%Z ->
  exists pts,
    np_linspace lo hi n = Built pts /\
    Z.of_nat (length pts) = n /\ spans lo hi pts /\
    INR (length pts - 1) = IZR (n - 1).
Proof.
  intros Hn. unfold np_linspace.
  destruct (n <? 0)%Z eqn:Hneg; [apply Z.ltb_lt in Hneg; lia|].
  destruct (Z.to_nat n) as [|[|m]] eqn:En; [lia | lia |].
  eexists. split; [reflexivity|].
  assert (Hlen : length (map (fun i => lo + INR i * ((hi - lo) / INR (S m)))
                             (seq 0 (S (S m)))) = S (S m))
    by now rewrite length_map, length_seq.
  assert (Hm : INR (S m) <> 0) by (apply not_0_INR; lia).
  rewrite Hlen. split; [lia|].
  assert (Hnth : forall i, (i < S (S m))%nat ->
            nth_error (map (fun i => lo + INR i * ((hi - lo) / INR (S m)))
                           (seq 0 (S (S m)))) i
            = Some (lo + INR i * ((hi - lo) / INR (S m)))).
  { intros i Hi. rewrite nth_error_map, nth_error_seq.
    apply Nat.ltb_lt in Hi. now rewrite Hi. }
  split; [|replace (S (S m) - 1)%nat with (S m) by lia;
           rewrite INR_IZR_INZ; f_equal; lia].
  unfold spans. rewrite Hlen. replace (S (S m) - 1)%nat with (S m) by lia.
  split; [lia|]. split; [|split].
  - rewrite (Hnth 0%nat) by lia. f_equal. simpl. lra.
  - rewrite (Hnth (S m)) by lia. f_equal. field. exact Hm.
  - intros i Hi.
    rewrite (nth_error_nth _ _ 0 (Hnth (S i) Hi)).
    rewrite (nth_error_nth _ _ 0 (Hnth i ltac:(lia))).
    rewrite S_INR. lra.
Qed.

Lemma axis_built_from_resolution (lo hi res : R) :
  lo <= hi -> 0 < res ->
  exists pts,
    np_linspace lo hi (py_int ((hi - lo) / res + 2)) = Built pts /\
    (py_int ((hi - lo) / res + 2) =? 0)%Z = false /\
    axis_from_resolution lo hi res (py_int ((hi - lo) / res + 2))
      ((hi - lo) / IZR (py_int ((hi - lo) / res + 2))) pts.
Proof.
  intros Hle Hres.
  destruct (points_from_resolution (hi - lo) res) as (Hn & Hq & Hfine);
    [lra | exact Hres |].
  destruct (np_linspace_spans lo hi _ Hn) as (pts & Hpts & Hlen & Hspan & HINR).
  exists pts. split; [exact Hpts|]. split; [apply Z.eqb_neq; lia|].
  unfold axis_from_resolution. rewrite HINR.
  split; [exact Hq|]. split; [exact Hlen|]. split; [exact Hspan|].
  split; [exact Hfine | reflexivity].
Qed.

(** X21.  A [Cartesian3D] grid asked for by its resolutions, with
    [min <= max] and a positive resolution on every axis, is built; each
    axis gets [N = floor((max - min) / Res) + 2] points, at least two,
    from [min] to [max] inclusive and equally spaced, with a spacing
    [(max - min) / (N - 1)] strictly below the resolution asked for.  The
    resolution the object stores is [(max - min) / N], which is not that
    spacing. *)
Theorem Cartesian3D_from_resolutions
    (Xmin Xmax Ymin Ymax Zmin Zmax rx ry rz : R) :
  Xmin <= Xmax -> Ymin <= Ymax -> Zmin <= Zmax ->
  0 < rx -> 0 < ry -> 0 < rz ->
  exists g,
    Cartesian3D_init
      (mk_kwargs_3D (Some Xmin) (Some Xmax) (Some Ymin) (Some Ymax)
         (Some Zmin) (Some Zmax) None (Some rx) None (Some ry) None (Some rz))
    = Built g /\
    axis_from_resolution Xmin Xmax rx (NX g) (ResX g) (g3_X1D (axes_3D g)) /\
    axis_from_resolution Ymin Ymax ry (NY g) (ResY g) (g3_Y1D (axes_3D g)) /\
    axis_from_resolution Zmin Zmax rz (NZ g) (ResZ g) (g3_Z1D (axes_3D g)) /\
    g3_cyl (axes_3D g) = None.
Proof.
  intros HX HY HZ Hrx Hry Hrz.
  destruct (axis_built_from_resolution Xmin Xmax rx HX Hrx) as (xs & Hxs & Hx0 & Hxa).
  destruct (axis_built_from_resolution Ymin Ymax ry HY Hry) as (ys & Hys & Hy0 & Hya).
  destruct (axis_built_from_resolution Zmin Zmax rz HZ Hrz) as (zs & Hzs & Hz0 & Hza).
  unfold Cartesian3D_init, axis_3D, Reqb.
  cbn [kw_Xmin kw_Xmax kw_Ymin kw_Ymax kw_Zmin kw_Zmax
       kw_NX kw_ResX kw_NY kw_ResY kw_NZ kw_ResZ].
  destruct (Req_dec_T rx 0); [lra|]. destruct (Req_dec_T ry 0); [lra|].
  destruct (Req_dec_T rz 0); [lra|].
  cbv zeta. rewrite Hx0, Hy0, Hz0. cbn [and_then fst snd].
  rewrite Hxs, Hys, Hzs. cbn [and_then].
  eexists. split; [reflexivity|].
  cbn [NX ResX NY ResY NZ ResZ axes_3D g3_X1D g3_Y1D g3_Z1D g3_cyl].
  split; [exact Hxa|]. split; [exact Hya|]. split; [exact Hza | reflexivity].
Qed.

Lemma Cartesian3D_from_resolutions_witness :
  exists g,
    Cartesian3D_init
      (mk_kwargs_3D (Some 0) (Some 1) (Some 0) (Some 1) (Some 0) (Some 0)
         None (Some (1 / 2)) None (Some 1) None (Some 1))
    = Built g /\
    axis_from_resolution 0 1 (1 / 2) (NX g) (ResX g) (g3_X1D (axes_3D g)).
Proof.
  destruct (Cartesian3D_from_resolutions 0 1 0 1 0 0 (1 / 2) 1 1)
    as (g & Hg & HX & _); try lra.
  exists g. split; [exact Hg | exact HX].
Defined.

(** X22.  The same for a [Cartesian2D] grid asked for by [ResR] and
    [ResZ], from [DownLeft = (Zmin, Rmin)] to [UpRight = (Zmax, Rmax)]. *)
Theorem Cartesian2D_from_resolutions (Zmin Rmin Zmax Rmax rr rz : R) :
  Rmin <= Rmax -> Zmin <= Zmax -> 0 < rr -> 0 < rz ->
  exists g,
    Cartesian2D_init
      (mk_kwargs_2D (Some (Zmin, Rmin)) (Some (Zmax, Rmax))
         None (Some rr) None (Some rz))
    = Built g /\
    axis_from_resolution Rmin Rmax rr (NR g) (ResR g) (g2_R1D (axes_2D g)) /\
    axis_from_resolution Zmin Zmax rz (NZ_2D g) (ResZ_2D g)
      (g2_Z1D (axes_2D g)).
Proof.
  intros HR HZ Hrr Hrz.
  destruct (axis_built_from_resolution Rmin Rmax rr HR Hrr) as (rs & Hrs & Hr0 & Hra).
  destruct (axis_built_from_resolution Zmin Zmax rz HZ Hrz) as (zs & Hzs & Hz0 & Hza).
  unfold Cartesian2D_init, axis_2D, Reqb.
  cbn [kw_DownLeft kw_UpRight kw_NR kw_ResR kw_NZ_2D kw_ResZ_2D].
  destruct (Req_dec_T rr 0); [lra|]. destruct (Req_dec_T rz 0); [lra|].
  cbv zeta. rewrite Hr0, Hz0. cbn [and_then fst snd].
  rewrite Hrs, Hzs. cbn [and_then].
  eexists. split; [reflexivity|].
  cbn [NR ResR NZ_2D ResZ_2D axes_2D g2_R1D g2_Z1D].
  split; [exact Hra | exact Hza].
Qed.

Lemma Cartesian2D_from_resolutions_witness :
  exists g,
    Cartesian2D_init
      (mk_kwargs_2D (Some (0, 1)) (Some (1, 2)) None (Some (1 / 2))
         None (Some 1))
    = Built g /\
    axis_from_resolution 1 2 (1 / 2) (NR g) (ResR g) (g2_R1D (axes_2D g)).
Proof.
  destruct (Cartesian2D_from_resolutions 0 1 1 2 (1 / 2) 1)
    as (g & Hg & HR & _); try lra.
  exists g. split; [exact Hg | exact HR].
Defined.

(** X23.  Asked for by the numbers of points, at least two per axis, the
    two classes build the same axes, [N] points from [min] to [max]
    inclusive and equally spaced, but store different resolutions:
    [Cartesian3D] stores the spacing of its axis, [(max - min) / (N - 1)],
    while [Cartesian2D] stores [(max - min) / N], which is smaller than
    the spacing of [R1D] whenever [Rmin < Rmax]. *)
Theorem grids_from_counts (Zmin Rmin Zmax Rmax : R) (nr nz : Z) :
  (2 <= nr)%Z -> (2 <= nz)%Z ->
  exists g2 g3,
    Cartesian2D_init
      (mk_kwargs_2D (Some (Zmin, Rmin)) (Some (Zmax, Rmax))
         (Some nr) None (Some nz) None)
    = Built g2 /\
    Cartesian3D_init
      (mk_kwargs_3D (Some Rmin) (Some Rmax) (Some Zmin) (Some Zmax)
         (Some Zmin) (Some Zmax) (Some nr) None (Some nz) None (Some nz) None)
    = Built g3 /\
    g3_X1D (axes_3D g3) = g2_R1D (axes_2D g2) /\
    g3_Y1D (axes_3D g3) = g2_Z1D (axes_2D g2) /\
    Z.of_nat (length (g2_R1D (axes_2D g2))) = nr /\
    Z.of_nat (length (g2_Z1D (axes_2D g2))) = nz /\
    spans Rmin Rmax (g2_R1D (axes_2D g2)) /\
    spans Zmin Zmax (g2_Z1D (axes_2D g2)) /\
    ResX g3 = (Rmax - Rmin) / INR (length (g2_R1D (axes_2D g2)) - 1) /\
    ResR g2 = (Rmax - Rmin) / IZR nr /\
    (Rmin < Rmax -> ResR g2 < ResX g3).
Proof.
  intros Hnr Hnz.
  destruct (np_linspace_spans Rmin Rmax nr Hnr) as (rs & Hrs & Hlr & Hsr & Hir).
  destruct (np_linspace_spans Zmin Zmax nz Hnz) as (zs & Hzs & Hlz & Hsz & Hiz).
  unfold Cartesian2D_init, Cartesian3D_init, axis_2D, axis_3D.
  cbn [kw_DownLeft kw_UpRight kw_NR kw_ResR kw_NZ_2D kw_ResZ_2D
       kw_Xmin kw_Xmax kw_Ymin kw_Ymax kw_Zmin kw_Zmax
       kw_NX kw_ResX kw_NY kw_ResY kw_NZ kw_ResZ].
  assert (Er : (nr =? 0)%Z = false) by (apply Z.eqb_neq; lia).
  assert (Ez : (nz =? 0)%Z = false) by (apply Z.eqb_neq; lia).
  assert (Er1 : (1 <? nr)%Z = true) by (apply Z.ltb_lt; lia).
  assert (Ez1 : (1 <? nz)%Z = true) by (apply Z.ltb_lt; lia).
  rewrite Er, Ez, Er1, Ez1. cbn [and_then fst snd].
  rewrite Hrs, Hzs. cbn [and_then].
  do 2 eexists. split; [reflexivity|]. split; [reflexivity|].
  cbn [NR ResR NX ResX axes_2D axes_3D g2_R1D g2_Z1D g3_X1D g3_Y1D].
  rewrite Hir.
  split; [reflexivity|]. split; [reflexivity|].
  split; [exact Hlr|]. split; [exact Hlz|].
  split; [exact Hsr|]. split; [exact Hsz|].
  split; [reflexivity|]. split; [reflexivity|].
  intros Hlt. rewrite minus_IZR.
  assert (H2 : 2 <= IZR nr) by now apply IZR_le.
  unfold Rdiv. apply Rmult_lt_compat_l; [lra|].
  apply Rinv_lt_contravar; [|lra].
  apply Rmult_lt_0_compat; lra.
Qed.

Lemma grids_from_counts_witness :
  exists g2 g3,
    Cartesian2D_init
      (mk_kwargs_2D (Some (0, 1)) (Some (1, 2)) (Some 3%Z) None (Some 2%Z) None)
    = Built g2 /\
    Cartesian3D_init
      (mk_kwargs_3D (Some 1) (Some 2) (Some 0) (Some 1) (Some 0) (Some 1)
         (Some 3%Z) None (Some 2%Z) None (Some 2%Z) None)
    = Built g3 /\
    g3_X1D (axes_3D g3) = g2_R1D (axes_2D g2).
Proof.
  destruct (grids_from_counts 0 1 1 2 3 2) as (g2 & g3 & H2 & H3 & HX & _);
    try lia.
  exists g2, g3. repeat split; assumption.
Defined.

(** * The blend fractions and the arc lengths *)

Section ArcLengths.

Variable Nstage : nat.
Variable a : nat -> nat -> R.
Variable b : nat -> R.
Variables BR BZ BPhi : tri_interp.

Local Abbreviation pt_loop := (pt_loop Nstage a b BR BZ BPhi).
Local Abbreviation trace_step := (trace_step Nstage a b BR BZ BPhi).
Local Abbreviation field_line_traces := (field_line_traces Nstage a b BR BZ BPhi).
Local Abbreviation find_interp_positions_v2_upgrade :=
  (find_interp_positions_v2_upgrade Nstage a b BR BZ BPhi).
Local Abbreviation traced_as := (traced_as Nstage a b BR BZ BPhi).
Local Abbreviation weighted := (weighted Nstage b).

(** The two arc lengths of one query point: finite; their sum is the
    plane spacing times [sum_j b[j] * R] where the field at the point is
    purely toroidal, and both are zero where the point is outside the
    mesh. *)
Lemma traced_arc_lengths (fuel P : nat) (co : bool) (Nstep : nat)
    (r z phi : R) (prev next : Z) (y : trace_pair) :
  (0 < P)%nat -> (0 < Nstep)%nat ->
  traced_as fuel P co Nstep (mk_qpoint r z phi prev next) y ->
  exists sb sf : R,
    sp (bwd_end y) = Fin sb /\ sp (fwd_end y) = Fin sf /\
    (forall bphi,
       BR z r = Some 0 -> BZ z r = Some 0 -> BPhi z r = Some bphi ->
       bphi <> 0 -> sb + sf = 2 * PI / INR P * weighted r) /\
    (BR z r = None -> BZ z r = None -> BPhi z r = None -> sb = 0 /\ sf = 0).
Proof.
  intros HP HN Hrel.
  destruct Hrel as (HF0 & HB0 & HF & HB & k & Hk & Hbr & Hqp & Hqn & _).
  cbn [qPhi qprev qnext] in Hbr, Hqp, Hqn.
  pose proof (pt_loop_finite Nstage a b BR BZ BPhi _ _ _ _ _ _
                (start_tpoint_finite _ _) HF) as (_ & _ & Hfs).
  pose proof (pt_loop_finite Nstage a b BR BZ BPhi _ _ _ _ _ _
                (start_tpoint_finite _ _) HB) as (_ & _ & Hbs).
  apply isfinite_Fin_inv in Hfs, Hbs.
  destruct Hfs as [sf Hsf], Hbs as [sb Hsb].
  exists sb, sf. split; [exact Hsb|]. split; [exact Hsf|]. split.
  - intros bphi HBR HBZ HBPhi Hb.
    destruct (initial_angle_values P co (mk_qpoint r z phi prev next) k Hk Hbr
                Hqp Hqn) as [HF1 HB1].
    rewrite HF0 in HF1. rewrite HB0 in HB1.
    injection HF1 as HF1. injection HB1 as HB1. cbn [qPhi] in HF1, HB1.
    change (match k with O => 1 | S _ => INR k + 1 end) with (INR (S k))
      in HF1, HB1.
    pose proof (plane_spacing_pos P HP) as Hd.
    pose proof (step_angle_pos P Nstep HP HN) as Hstep.
    destruct Hbr as [Hlo Hhi].
    assert (HsF : 0 <= FWD_sign co * phif0 y)
      by (rewrite HF1; unfold FWD_sign; destruct co; cbv beta iota; lra).
    assert (HsB : 0 <= BWD_sign co * phib0 y)
      by (rewrite HB1; unfold BWD_sign; destruct co; cbv beta iota; lra).
    destruct (pt_loop_toroidal_length Nstage a b BR BZ BPhi r z bphi
                HBR HBZ HBPhi Hb fuel
                (FWD_sign co) _ (phif0 y) (mk_qpoint r z phi prev next)
                (fwd_end y) eq_refl eq_refl
                (sign_unit_FWD co) Hstep HsF HF) as (_ & _ & Hsf').
    destruct (pt_loop_toroidal_length Nstage a b BR BZ BPhi r z bphi
                HBR HBZ HBPhi Hb fuel
                (BWD_sign co) _ (phib0 y) (mk_qpoint r z phi prev next)
                (bwd_end y) eq_refl eq_refl
                (sign_unit_BWD co) Hstep HsB HB) as (_ & _ & Hsb').
    rewrite Hsf in Hsf'. rewrite Hsb in Hsb'.
    injection Hsf' as ->. injection Hsb' as ->.
    assert (Hsum : Rabs (phib0 y) + Rabs (phif0 y) = 2 * PI / INR P).
    { rewrite HF1, HB1. rewrite S_INR in *. destruct co.
      - rewrite Rabs_left1 by lra. rewrite Rabs_right by lra. lra.
      - rewrite Rabs_right by lra. rewrite Rabs_left1 by lra. lra. }
    rewrite <- Hsum. ring.
  - intros HBR HBZ HBPhi.
    assert (Hinv : forall sign dphi phi0 e,
              pt_loop fuel sign dphi true
                (start_tpoint (mk_qpoint r z phi prev next) phi0) = Ret e ->
              sp e = Fin 0).
    { intros sign dphi phi0 e He.
      eapply (pt_loop_invariant Nstage a b BR BZ BPhi sign dphi
                (fun p => Rp p = Fin r /\ Zp p = Fin z /\ sp p = Fin 0)
                (trace_step_outside Nstage a b BR BZ BPhi r z HBR HBZ HBPhi
                   sign dphi));
        [|exact He]. repeat split. }
    rewrite (Hinv _ _ _ _ HF) in Hsf. rewrite (Hinv _ _ _ _ HB) in Hsb.
    injection Hsf as <-. injection Hsb as <-. split; reflexivity.
Qed.

(** C1, as the code has it.  With the planes of [get_interp_planes],
    angles in [0, 2*pi) and fuel for [Nstep] passes the tracer returns,
    and at every query point the previous-plane triple carries the
    quotient s_backward / (s_backward + s_forward) of the two accumulated
    arc lengths as the floats give it, the next-plane triple one minus it.
    Both arc lengths are finite.  When their sum is not zero the two
    fractions are the real quotient and its complement; when it is zero
    both are 0/0.  A positive R does not decide which: where the field at
    the point is purely toroidal the sum is 2*pi/P * sum_j b[j] * R, but at
    a point outside the mesh both arc lengths are zero. *)
Theorem blend_fraction_is_arc_length_ratio (fuel P : nat) (co : bool)
    (Nstep : nat) (r3D z3D phi3D : list R) :
  (0 < P)%nat -> (0 < Nstep)%nat -> (Nstep <= fuel)%nat ->
  length z3D = length r3D -> length phi3D = length r3D ->
  Forall (fun phi => 0 <= phi < 2 * PI) phi3D ->
  exists (bwd fwd : list tpoint) (out : list ipos),
    field_line_traces fuel P co r3D z3D phi3D
      (fst (get_interp_planes P co phi3D)) (snd (get_interp_planes P co phi3D))
      Nstep = Ret (bwd, fwd) /\
    find_interp_positions_v2_upgrade fuel P co r3D z3D phi3D
      (fst (get_interp_planes P co phi3D)) (snd (get_interp_planes P co phi3D))
      Nstep = Ret out /\
    length out = length r3D /\
    forall i r z,
      nth_error r3D i = Some r -> nth_error z3D i = Some z ->
      exists (qb qf : tpoint) (o : ipos) (sb sf : R),
        nth_error bwd i = Some qb /\ nth_error fwd i = Some qf /\
        nth_error out i = Some o /\
        prev_frac o = fdiv (sp qb) (fadd (sp qb) (sp qf)) /\
        next_frac o = fsub (Fin 1) (prev_frac o) /\
        sp qb = Fin sb /\ sp qf = Fin sf /\
        (sb + sf <> 0 ->
         prev_frac o = Fin (sb / (sb + sf)) /\
         next_frac o = Fin (1 - sb / (sb + sf))) /\
        (sb + sf = 0 -> prev_frac o = NonFin /\ next_frac o = NonFin) /\
        (forall bphi,
           BR z r = Some 0 -> BZ z r = Some 0 -> BPhi z r = Some bphi ->
           bphi <> 0 -> sb + sf = 2 * PI / INR P * weighted r) /\
        (BR z r = None -> BZ z r = None -> BPhi z r = None ->
         sb = 0 /\ sf = 0).
Proof.
  intros HP HN Hfuel Hlz Hlphi Hrange.
  destruct (field_line_traces_run Nstage a b BR BZ BPhi fuel P co Nstep
              r3D z3D phi3D HP HN Hfuel Hlz Hlphi Hrange)
    as (ys & Hrun & Hlen & Hpt).
  exists (map bwd_end ys), (map fwd_end ys).
  eexists. split; [exact Hrun|].
  unfold loader.find_interp_positions_v2_upgrade. rewrite Hrun. cbn [bind fst snd].
  split; [reflexivity|].
  split; [now rewrite length_map, length_combine_map|].
  intros i r z Hr Hz.
  assert (Hi : (i < length r3D)%nat) by (apply nth_error_Some; congruence).
  destruct (nth_error phi3D i) as [phi|] eqn:Hphi;
    [|apply nth_error_None in Hphi; lia].
  destruct (Hpt i r z phi Hr Hz Hphi) as (prev & next & y & _ & _ & Hy & Hrel).
  destruct (traced_arc_lengths fuel P co Nstep r z phi prev next y HP HN Hrel)
    as (sb & sf & Hsb & Hsf & Htor & Hout).
  exists (bwd_end y), (fwd_end y), (ipos_of (bwd_end y) (fwd_end y)), sb, sf.
  split; [now apply map_nth_error|]. split; [now apply map_nth_error|].
  split.
  { apply (map_nth_error (fun bf => ipos_of (fst bf) (snd bf)) i
             (combine (map bwd_end ys) (map fwd_end ys))
             (d := (bwd_end y, fwd_end y))).
    now apply nth_error_combine_map. }
  split; [reflexivity|]. split; [reflexivity|].
  split; [exact Hsb|]. split; [exact Hsf|].
  unfold ipos_of. cbn [prev_frac next_frac].
  rewrite Hsb, Hsf. cbn [fadd lift2 fdiv]. unfold Reqb.
  split; [|split; [|split; [exact Htor | exact Hout]]].
  - intros Hne. destruct (Req_dec_T (sb + sf) 0); [contradiction|].
    split; reflexivity.
  - intros H0. destruct (Req_dec_T (sb + sf) 0); [|contradiction].
    split; reflexivity.
Qed.

(** A query point outside the mesh, as the tracer and the blend see it. *)
Lemma outside_point_traces (fuel P : nat) (co : bool) (Nstep : nat)
    (r3D z3D phi3D : list R) (i : nat) (r z phi : R) :
  (0 < P)%nat -> (0 < Nstep)%nat -> (Nstep <= fuel)%nat ->
  length z3D = length r3D -> length phi3D = length r3D ->
  Forall (fun phi => 0 <= phi < 2 * PI) phi3D ->
  nth_error r3D i = Some r -> nth_error z3D i = Some z ->
  nth_error phi3D i = Some phi ->
  BR z r = None -> BZ z r = None -> BPhi z r = None ->
  exists bwd fwd out qb qf o prev next phif phib,
    field_line_traces fuel P co r3D z3D phi3D
      (fst (get_interp_planes P co phi3D)) (snd (get_interp_planes P co phi3D))
      Nstep = Ret (bwd, fwd) /\
    find_interp_positions_v2_upgrade fuel P co r3D z3D phi3D
      (fst (get_interp_planes P co phi3D)) (snd (get_interp_planes P co phi3D))
      Nstep = Ret out /\
    nth_error bwd i = Some qb /\ nth_error fwd i = Some qf /\
    nth_error out i = Some o /\
    nth_error (fst (get_interp_planes P co phi3D)) i = Some prev /\
    nth_error (snd (get_interp_planes P co phi3D)) i = Some next /\
    phiFWD_init P co (mk_qpoint r z phi prev next) = Ret phif /\
    phiBWD_init P co (mk_qpoint r z phi prev next) = Ret phib /\
    (if co then phif <> 0 else phib <> 0) /\
    sp qb = Fin 0 /\ sp qf = Fin 0 /\
    prev_frac o = NonFin /\ next_frac o = NonFin /\
    forall (pv nx : list fval) (p n : fval),
      nth_error pv i = Some p -> nth_error nx i = Some n ->
      nth_error (blend pv nx out) i = Some NonFin.
Proof.
  intros HP HN Hfuel Hlz Hlphi Hrange Hr Hz Hphi HBR HBZ HBPhi.
  destruct (field_line_traces_run Nstage a b BR BZ BPhi fuel P co Nstep
              r3D z3D phi3D HP HN Hfuel Hlz Hlphi Hrange)
    as (ys & Hrun & Hlen & Hpt).
  destruct (Hpt i r z phi Hr Hz Hphi)
    as (prev & next & y & Hprev & Hnext & Hy & Hrel).
  destruct (traced_arc_lengths fuel P co Nstep r z phi prev next y HP HN Hrel)
    as (sb & sf & Hsb & Hsf & _ & Hzero).
  destruct (Hzero HBR HBZ HBPhi) as [-> ->].
  destruct Hrel as (HF0 & HB0 & _ & _ & k & _ & _ & _ & _ & Hfar & _).
  set (out := map (fun bf => ipos_of (fst bf) (snd bf))
                  (combine (map bwd_end ys) (map fwd_end ys))).
  assert (Hout : nth_error out i = Some (ipos_of (bwd_end y) (fwd_end y))).
  { apply (map_nth_error (fun bf => ipos_of (fst bf) (snd bf)) i
             (combine (map bwd_end ys) (map fwd_end ys))
             (d := (bwd_end y, fwd_end y))).
    now apply nth_error_combine_map. }
  assert (Hfrac : prev_frac (ipos_of (bwd_end y) (fwd_end y)) = NonFin /\
                  next_frac (ipos_of (bwd_end y) (fwd_end y)) = NonFin).
  { unfold ipos_of. cbn [prev_frac next_frac]. rewrite Hsb, Hsf.
    cbn [fadd lift2 fdiv]. unfold Reqb.
    destruct (Req_dec_T (0 + 0) 0) as [_ | H]; [|lra].
    split; reflexivity. }
  destruct Hfrac as [Hpf Hnf].
  exists (map bwd_end ys), (map fwd_end ys), out, (bwd_end y), (fwd_end y),
         (ipos_of (bwd_end y) (fwd_end y)), prev, next, (phif0 y), (phib0 y).
  split; [exact Hrun|].
  split; [unfold loader.find_interp_positions_v2_upgrade; now rewrite Hrun|].
  split; [now apply map_nth_error|]. split; [now apply map_nth_error|].
  split; [exact Hout|]. split; [exact Hprev|]. split; [exact Hnext|].
  split; [exact HF0|]. split; [exact HB0|]. split; [exact Hfar|].
  split; [exact Hsb|]. split; [exact Hsf|].
  split; [exact Hpf|]. split; [exact Hnf|].
  intros pv nx p n Hp Hn. unfold blend.
  rewrite (nth_error_map3 _ pv nx out i p n _ Hp Hn Hout).
  rewrite Hpf, Hnf. destruct p, n; reflexivity.
Qed.

End ArcLengths.

(** * Worked instances of the blend *)

Lemma on_square_far : on_square 0 5 = false.
Proof.
  unfold on_square, Rleb.
  destruct (Rle_dec 5 2) as [H | _]; [lra|].
  now rewrite andb_false_r.
Qed.

Lemma square_field_far (v : R) : ci_call (square_field v) 0 5 = None.
Proof. cbn. now rewrite on_square_far. Qed.

Lemma blend_fraction_is_arc_length_ratio_witness :
  exists (out : list ipos) (o : ipos) (sb sf : R),
    find_interp_positions_v2_upgrade 2 midpoint_a midpoint_b
      zero_field zero_field unit_field 3 2 true [1] [0] [1]
      (fst (get_interp_planes 2 true [1])) (snd (get_interp_planes 2 true [1])) 3
    = Ret out /\
    nth_error out 0 = Some o /\
    sb + sf = 2 * PI / INR 2 * 1 /\
    prev_frac o = Fin (sb / (sb + sf)) /\
    next_frac o = Fin (1 - sb / (sb + sf)).
Proof.
  destruct (blend_fraction_is_arc_length_ratio 2 midpoint_a midpoint_b
              zero_field zero_field unit_field 3 2 true 3 [1] [0] [1])
    as (bwd & fwd & out & _ & Hout & _ & Hpt).
  - lia.
  - lia.
  - lia.
  - reflexivity.
  - reflexivity.
  - exact one_in_range.
  - destruct (Hpt 0%nat 1 0 eq_refl eq_refl)
      as (qb & qf & o & sb & sf & _ & _ & Ho & _ & _ & _ & _ & Hq & _ & Htor & _).
    specialize (Htor 1 eq_refl eq_refl eq_refl ltac:(lra)).
    rewrite weighted_midpoint in Htor.
    assert (Hne : sb + sf <> 0).
    { rewrite Htor. pose proof (plane_spacing_pos 2 ltac:(lia)). lra. }
    exists out, o, sb, sf. split; [exact Hout|]. split; [exact Ho|].
    split; [exact Htor|]. exact (Hq Hne).
Defined.

(** C1 as the spec words it fails at a point of positive R outside the
    mesh: R = 5, between the planes of a run with two planes, so that
    both traces cover a nonzero angle.  Both arc lengths are zero, the
    denominator is zero and neither fraction is a number. *)
Lemma blend_fraction_undefined_outside_the_mesh :
  exists (bwd fwd : list tpoint) (out : list ipos) (qb qf : tpoint) (o : ipos)
         (prev next : Z) (phif phib : R),
    field_line_traces 2 midpoint_a midpoint_b
      (ci_call (square_field 0)) (ci_call (square_field 0))
      (ci_call (square_field 2)) 3 2 true [5] [0] [1]
      (fst (get_interp_planes 2 true [1])) (snd (get_interp_planes 2 true [1])) 3
    = Ret (bwd, fwd) /\
    find_interp_positions_v2_upgrade 2 midpoint_a midpoint_b
      (ci_call (square_field 0)) (ci_call (square_field 0))
      (ci_call (square_field 2)) 3 2 true [5] [0] [1]
      (fst (get_interp_planes 2 true [1])) (snd (get_interp_planes 2 true [1])) 3
    = Ret out /\
    nth_error bwd 0 = Some qb /\ nth_error fwd 0 = Some qf /\
    nth_error out 0 = Some o /\
    nth_error (fst (get_interp_planes 2 true [1])) 0 = Some prev /\
    nth_error (snd (get_interp_planes 2 true [1])) 0 = Some next /\
    phiFWD_init 2 true (mk_qpoint 5 0 1 prev next) = Ret phif /\
    phiBWD_init 2 true (mk_qpoint 5 0 1 prev next) = Ret phib /\
    0 < 5 /\ phif <> 0 /\
    sp qb = Fin 0 /\ sp qf = Fin 0 /\
    prev_frac o = NonFin /\ next_frac o = NonFin /\
    (forall sb sf : R, sp qb = Fin sb -> sp qf = Fin sf ->
       sb + sf = 0 /\
       prev_frac o <> Fin (sb / (sb + sf)) /\
       next_frac o <> Fin (1 - sb / (sb + sf))).
Proof.
  destruct (outside_point_traces 2 midpoint_a midpoint_b
              (ci_call (square_field 0)) (ci_call (square_field 0))
              (ci_call (square_field 2)) 3 2 true 3 [5] [0] [1] 0 5 0 1)
    as (bwd & fwd & out & qb & qf & o & prev & next & phif & phib & H);
    try reflexivity; try lia;
    try exact one_in_range; try apply square_field_far.
  destruct H as (H1 & H2 & H3 & H4 & H5 & H6 & H7 & H8 & H9 & H10 & H11 & H12
                 & H13 & H14 & _).
  exists bwd, fwd, out, qb, qf, o, prev, next, phif, phib.
  repeat (split; [assumption|]).
  split; [lra|]. repeat (split; [assumption|]).
  intros sb sf Hb Hf. rewrite H11 in Hb. rewrite H12 in Hf.
  injection Hb as <-. injection Hf as <-.
  rewrite H13, H14. split; [lra|]. split; discriminate.
Defined.

Lemma small_field_blocks (j : nat) (vals : ndarr) :
  nd_block small_field [0; 0; j]%nat = Ret vals ->
  (j = 0%nat /\ map data (cells vals) = [Fin 1]) \/
  (j = 1%nat /\ map data (cells vals) = [Fin 3]).
Proof.
  destruct j as [|[|j]]; cbn; intros H; try discriminate;
    injection H as <-; [left | right]; split; reflexivity.
Qed.

Lemma small_field_has_blocks (j : nat) :
  (j < 2)%nat -> exists vals, nd_block small_field [0; 0; j]%nat = Ret vals.
Proof.
  intros Hj. destruct j as [|[|j]]; [eexists; reflexivity.. | lia].
Qed.

Lemma NoDup_two_planes : NoDup [0%Z; 1%Z].
Proof.
  constructor; [intros [H | []]; discriminate|].
  constructor; [intros []|constructor].
Qed.

Lemma point_on_plane_takes_plane_value_witness :
  exists (out : list ipos) (pn : list fval * list fval),
    find_interp_positions_v2_upgrade 2 midpoint_a midpoint_b
      zero_field zero_field unit_field 3 2 true [1] [0]
      [INR 0 * (2 * PI / INR 2)]
      (fst (get_interp_planes 2 true [INR 0 * (2 * PI / INR 2)]))
      (snd (get_interp_planes 2 true [INR 0 * (2 * PI / INR 2)])) 3
    = Ret out /\
    interpolate_planes small_fill_interpolator [(0, 1)] small_field 0 0
      [0%Z; 1%Z]
      (fst (get_interp_planes 2 true [INR 0 * (2 * PI / INR 2)]))
      (snd (get_interp_planes 2 true [INR 0 * (2 * PI / INR 2)]))
      out [Fin 0] [Fin 0] = Ret pn /\
    nth_error (blend (fst pn) (snd pn) out) 0 = Some (Fin 1).
Proof.
  destruct (point_on_plane_takes_plane_value 2 midpoint_a midpoint_b
              zero_field zero_field unit_field small_fill_interpolator
              3 2 true 3 [1] [0] [INR 0 * (2 * PI / INR 2)] [(0, 1)]
              small_field 0 0 [0%Z; 1%Z] 0 0 0 1 1 0)
    as (bwd & fwd & out & qnear & qfar & o & pn & vals & w & Hrun & _ & _
        & Hfar & Hout & Ho & Hpn & Hvals & Hown & Hw & Hblend & _).
  - lia.
  - lia.
  - lia.
  - reflexivity.
  - reflexivity.
  - exact (angle_zero_in_range 2).
  - reflexivity.
  - reflexivity.
  - reflexivity.
  - lia.
  - exact NoDup_two_planes.
  - reflexivity.
  - intros j' Hj'. now apply small_field_has_blocks.
  - lia.
  - assert (Hne : sp qfar <> Fin 0).
    { apply (far_trace_nonzero 2 midpoint_a midpoint_b zero_field zero_field
               unit_field 3 2 true 3 [1] [0] [INR 0 * (2 * PI / INR 2)] 0 1 0 1)
        with (bwd := bwd) (fwd := fwd);
        try reflexivity; try lia; try assumption.
      + exact (angle_zero_in_range 2).
      + lra.
      + rewrite weighted_midpoint. lra. }
    destruct (Hblend Hne) as (_ & _ & Hval).
    (* the other plane's value is finite *)
    assert (Hfin : isfinite w = true).
    { destruct (interpolate_planes_pointwise small_fill_interpolator [(0, 1)]
                  small_field 0 0 [0%Z; 1%Z]
                  (fst (get_interp_planes 2 true [INR 0 * (2 * PI / INR 2)]))
                  (snd (get_interp_planes 2 true [INR 0 * (2 * PI / INR 2)]))
                  out (seq 0 2) [Fin 0] [Fin 0])
        as (pn' & Hpn' & Hidx).
      { intros j Hj. apply small_field_has_blocks. apply in_seq in Hj. lia. }
      assert (E : Ret pn' = Ret pn) by (rewrite <- Hpn', <- Hpn; reflexivity).
      injection E as ->.
      destruct (nth_error (fst (get_interp_planes 2 true
                                  [INR 0 * (2 * PI / INR 2)])) 0)
        as [sprev|] eqn:Hp; [|discriminate].
      destruct (nth_error (snd (get_interp_planes 2 true
                                  [INR 0 * (2 * PI / INR 2)])) 0)
        as [snext|] eqn:Hn; [|discriminate].
      destruct (Hidx 0%nat sprev snext o (Fin 0) (Fin 0) Hp Hn Ho
                  eq_refl eq_refl) as [_ Hsnd].
      cbn [snd] in Hw. rewrite Hsnd in Hw. injection Hw as <-.
      unfold small_fill_interpolator.
      destruct (snext =? 1)%Z; [|destruct (snext =? 0)%Z];
        try reflexivity;
        destruct (nextZ o) as [z'|], (nextR o) as [r'|]; try reflexivity;
        destruct (on_square z' r'); reflexivity. }
    specialize (Hval Hfin).
    exists out, pn. split; [exact Hout|]. split; [exact Hpn|].
    rewrite Hval. f_equal.
    destruct (small_field_blocks 0 vals Hvals) as [[_ ->] | [E _]];
      [|discriminate].
    unfold small_fill_interpolator. now rewrite on_square_corner.
Defined.

(** C2 as the spec words it fails at a point on a stored plane that lies
    outside the mesh: R = 5, at the angle of plane 0.  Both arc lengths
    are zero, so neither fraction is 1 or 0, and the blended value is not
    a number, while plane 0's own interpolated value there is the fill
    value 0. *)
Lemma on_plane_point_outside_the_mesh_blends_to_nan :
  exists (out : list ipos) (o : ipos) (pn : list fval * list fval)
         (vals : ndarr),
    find_interp_positions_v2_upgrade 2 midpoint_a midpoint_b
      (ci_call (square_field 0)) (ci_call (square_field 0))
      (ci_call (square_field 2)) 3 2 true [5] [0]
      [INR 0 * (2 * PI / INR 2)]
      (fst (get_interp_planes 2 true [INR 0 * (2 * PI / INR 2)]))
      (snd (get_interp_planes 2 true [INR 0 * (2 * PI / INR 2)])) 3
    = Ret out /\
    nth_error out 0 = Some o /\
    prev_frac o = NonFin /\ next_frac o = NonFin /\
    interpolate_planes small_fill_interpolator [(0, 1)] small_field 0 0
      [0%Z; 1%Z]
      (fst (get_interp_planes 2 true [INR 0 * (2 * PI / INR 2)]))
      (snd (get_interp_planes 2 true [INR 0 * (2 * PI / INR 2)]))
      out [Fin 0] [Fin 0] = Ret pn /\
    nth_error (blend (fst pn) (snd pn) out) 0 = Some NonFin /\
    nd_block small_field [0; 0; 0]%nat = Ret vals /\
    small_fill_interpolator [(0, 1)] (map data (cells vals)) (Fin 0) (Fin 5)
    = Fin 0 /\
    next_frac o <> Fin 1 /\ prev_frac o <> Fin 0 /\
    nth_error (blend (fst pn) (snd pn) out) 0
    <> Some (small_fill_interpolator [(0, 1)] (map data (cells vals))
               (Fin 0) (Fin 5)).
Proof.
  destruct (outside_point_traces 2 midpoint_a midpoint_b
              (ci_call (square_field 0)) (ci_call (square_field 0))
              (ci_call (square_field 2)) 3 2 true 3 [5] [0]
              [INR 0 * (2 * PI / INR 2)] 0 5 0 (INR 0 * (2 * PI / INR 2)))
    as (bwd & fwd & out & qb & qf & o & prev & next & phif & phib & H);
    try reflexivity; try lia;
    try exact (angle_zero_in_range 2); try apply square_field_far.
  destruct H as (_ & Hout & _ & _ & Ho & Hp & Hn & _ & _ & _ & _ & _
                 & Hpf & Hnf & Hblend).
  destruct (interpolate_planes_pointwise small_fill_interpolator [(0, 1)]
              small_field 0 0 [0%Z; 1%Z]
              (fst (get_interp_planes 2 true [INR 0 * (2 * PI / INR 2)]))
              (snd (get_interp_planes 2 true [INR 0 * (2 * PI / INR 2)]))
              out (seq 0 2) [Fin 0] [Fin 0])
    as (pn & Hpn & Hidx).
  { intros j Hj. apply small_field_has_blocks. apply in_seq in Hj. lia. }
  destruct (Hidx 0%nat prev next o (Fin 0) (Fin 0) Hp Hn Ho eq_refl eq_refl)
    as [Hfst Hsnd].
  exists out, o, pn, (nd_plain [1%nat] [Fin 1]).
  split; [exact Hout|]. split; [exact Ho|].
  split; [exact Hpf|]. split; [exact Hnf|].
  split; [exact Hpn|].
  split; [exact (Hblend _ _ _ _ Hfst Hsnd)|].
  split; [reflexivity|].
  assert (Hown : small_fill_interpolator [(0, 1)]
                   (map data (cells (nd_plain [1%nat] [Fin 1])))
                   (Fin 0) (Fin 5) = Fin 0).
  { unfold small_fill_interpolator. now rewrite on_square_far. }
  split; [exact Hown|].
  rewrite Hpf, Hnf, (Hblend _ _ _ _ Hfst Hsnd), Hown.
  repeat split; discriminate.
Defined.

